(** * DIDIndexer: a shallow embedding of the batched retrieval pipeline

    The development follows [DIDIndexer.ts] (class [DIDIndexer]) and the
    configuration step of [index.ts] ([main]).

    Conventions of the embedding.
    - A JavaScript [number] that is used as a count, an index or a step is
      an integer here ([Z]); [NaN] and fractional values are outside the
      model ([parseInt] yields an integer whenever it yields a number
      other than [NaN]).  Lengths of lists are [nat].
    - A JavaScript string is a [string] of 8-bit characters; the methods
      modelled on it ([split], [join], [includes], [toLowerCase]) agree
      with JavaScript on ASCII text.
    - A [for] loop whose exit depends on its step is a function with fuel:
      [None] means that the fuel ran out, every other answer is the answer
      of the loop.
    - An [async] function that can reject returns an [outcome]: [Return]
      for a fulfilled promise, [Throw] for a rejected one.  The network
      and the ABI coder are parameters of the sections that use them.
    - The array of records that [buildSubdomainRelations] mutates is a
      list used as a store: a record is referred to by its position, and
      the name index maps a name to a position, so that the aliasing of
      the map's values with the array's elements is kept. *)

From stdpp Require Import gmap strings list fin_maps.
From Stdlib Require Import ZArith Lia Ascii.

Local Open Scope Z_scope.

(** ** JavaScript primitives *)

Module Js.

(** [Array.prototype.slice(from, to)]: a negative index counts from the
    end, and both indices are clamped to the array. *)
Definition rel_index (len k : Z) : Z :=
  if k <? 0 then Z.max (len + k) 0 else Z.min k len.

Definition slice {A : Type} (l : list A) (from to : Z) : list A :=
  let len := Z.of_nat (length l) in
  let k := rel_index len from in
  let final := rel_index len to in
  take (Z.to_nat (final - k)) (drop (Z.to_nat k) l).

(** [s.split(sep)] for a separator of one character: the result is never
    empty, and has one more element than [s] has separators. *)
Fixpoint split (sep : ascii) (s : string) : list string :=
  match s with
  | EmptyString => [EmptyString]
  | String c s' =>
      if Ascii.eqb c sep then EmptyString :: split sep s'
      else match split sep s' with
           | [] => [String c EmptyString]
           | w :: ws => String c w :: ws
           end
  end.

(** [parts.join(sep)]. *)
Fixpoint join (sep : string) (parts : list string) : string :=
  match parts with
  | [] => EmptyString
  | [w] => w
  | w :: ws => (w +:+ sep +:+ join sep ws)%string
  end.

(** [s.includes(sub)]. *)
Fixpoint includes (s sub : string) : bool :=
  String.prefix sub s
  || match s with
     | EmptyString => false
     | String _ s' => includes s' sub
     end.

(** [s.toLowerCase()] on ASCII letters. *)
Definition lower_char (c : ascii) : ascii :=
  let n := Ascii.N_of_ascii c in
  if ((65 <=? n) && (n <=? 90))%N then Ascii.ascii_of_N (n + 32) else c.

Fixpoint toLowerCase (s : string) : string :=
  match s with
  | EmptyString => EmptyString
  | String c s' => String (lower_char c) (toLowerCase s')
  end.

(** Truthiness of a string, and of a string that may be [undefined]. *)
Definition truthy (s : string) : bool := negb (String.eqb s EmptyString).

Definition truthy_opt (s : option string) : bool :=
  match s with
  | Some s => truthy s
  | None => false
  end.

End Js.

(** ** Results of calls that can fail *)

Inductive outcome (E A : Type) : Type :=
| Return (a : A)
| Throw (e : E).
Arguments Return {E A} a.
Arguments Throw {E A} e.

(** What the indexer throws: a value that a collaborator (the network, the
    ABI coder) threw, passed on as it is, or an [Error] object that the
    indexer builds itself from a message. *)
Inductive thrown (E : Type) : Type :=
| Cause (error : E)
| JsError (message : string).
Arguments Cause {E} error.
Arguments JsError {E} message.

(** ** Data model ([types.ts]) *)

Record DomainData : Type := mkDomainData {
  id_ : string;
  name : string;
  did : string;
  note : string;
  allowSubdomain : bool;
  owner : string;
  subdomains : list string
}.

Module ContractMetadata.
Record t : Type := mk {
  domain : string;
  did : string;
  notes : string;
  allowSubdomain : bool
}.
End ContractMetadata.

Record IndexerConfig : Type := mkIndexerConfig {
  rpcUrl : string;
  contractAddress : string;
  batchSize : Z;
  concurrency : Z;
  retryAttempts : Z
}.

(** ** Start-up: [main] of [index.ts] and the constructor *)

(** The environment.  [RPC_URL] and [CONTRACT_ADDRESS] are texts that may
    be unset.  A numeric variable is given by the integer that
    [parseInt(text, 10)] reads from it, [None] when the variable is unset
    or empty (then the default text is parsed instead). *)
Record Env : Type := mkEnv {
  RPC_URL : option string;
  CONTRACT_ADDRESS : option string;
  BATCH_SIZE : option Z;
  CONCURRENCY : option Z;
  RETRY_ATTEMPTS : option Z
}.

Record DIDIndexer : Type := mkDIDIndexer { config : IndexerConfig }.

(** [constructor(config, abi)]: the provider, the interface and the
    contract built from [config] are the collaborators of the sections
    below; the instance keeps [config] as it was given. *)
Definition DIDIndexer_constructor (cfg : IndexerConfig) : DIDIndexer :=
  mkDIDIndexer cfg.

Inductive startup : Type :=
| Exit (code : Z)
| Proceed (indexer : DIDIndexer).

(** [main] up to [new DIDIndexer(config, abi)]:
    [if (!rpcUrl || !contractAddress) process.exit(1)], then the
    configuration is built and handed to the constructor. *)
Definition main_startup (env : Env) : startup :=
  if negb (Js.truthy_opt (RPC_URL env)) || negb (Js.truthy_opt (CONTRACT_ADDRESS env))
  then Exit 1
  else Proceed (DIDIndexer_constructor
         {| rpcUrl := default EmptyString (RPC_URL env);
            contractAddress := default EmptyString (CONTRACT_ADDRESS env);
            batchSize := default 500 (BATCH_SIZE env);
            concurrency := default 5 (CONCURRENCY env);
            retryAttempts := default 3 (RETRY_ATTEMPTS env) |}).

(** ** The retrying caller: [executeMulticallWithRetry] *)

(** What the caller does, in order. *)
Inductive event : Type :=
| EvCall (attempt : Z) (calls : list string)
| EvWarn (attempt : Z)
| EvErrorLog (attempt : Z)
| EvSleep (ms : Z).

Section Retry.
Context {E : Type}.

(** [staticCall k calls]: what the [k]-th call of
    [contract.multicall.staticCall(calls)] does. *)
Variable staticCall : Z -> list string -> outcome E (list string).

(** [for (let attempt = 1; attempt <= retryAttempts; attempt++)], entered
    at [attempt] with [trace] already done; after the loop,
    [throw new Error('Multicall failed')]. *)
Fixpoint executeMulticallWithRetry_loop (fuel : nat) (retryAttempts : Z)
    (calls : list string) (attempt : Z) (trace : list event)
    : option (outcome (thrown E) (list string) * list event) :=
  match fuel with
  | O => None
  | S fuel' =>
      if attempt <=? retryAttempts then
        match staticCall attempt calls with
        | Return results => Some (Return results, trace ++ [EvCall attempt calls])
        | Throw error =>
            if attempt =? retryAttempts then
              Some (Throw (Cause error),
                    trace ++ [EvCall attempt calls; EvErrorLog attempt])
            else
              executeMulticallWithRetry_loop fuel' retryAttempts calls (attempt + 1)
                (trace ++ [EvCall attempt calls; EvWarn attempt;
                           EvSleep (1000 * attempt)])
        end
      else Some (Throw (JsError "Multicall failed"), trace)
  end.

Definition executeMulticallWithRetry (fuel : nat) (cfg : IndexerConfig)
    (calls : list string) : option (outcome (thrown E) (list string) * list event) :=
  executeMulticallWithRetry_loop fuel (retryAttempts cfg) calls 1 [].
End Retry.

(** ** Detail retrieval: [multicallGetDetails] *)

Section Details.
Context {E : Type}.

(** The ABI coder: [encodeFunctionData(signature, [tokenId])], and
    [decodeFunctionResult(signature, result)[0]] for the two signatures;
    [None] is the [undefined] that an index past the end of [results]
    gives. *)
Variable encodeFunctionData : string -> string -> string.
Variable decodeMetadata : option string -> outcome E ContractMetadata.t.
Variable decodeOwner : option string -> outcome E string.

(** [for (const tokenId of tokenIds) { calls.push(..); calls.push(..) }] *)
Definition encodeDetailCalls (tokenIds : list string) : list string :=
  foldl (fun calls tokenId =>
           (calls ++ [encodeFunctionData "getMetadata(uint256)" tokenId])
             ++ [encodeFunctionData "ownerOf(uint256)" tokenId])
        [] tokenIds.

(** [for (let i = 0; i < tokenIds.length; i++)], entered at [i] with the
    identifiers from [tokenIds[i]] on still to do. *)
Fixpoint decodeDetails_loop (i : nat) (todo : list string) (results : list string)
    (domains : list DomainData) : outcome (thrown E) (list DomainData) :=
  match todo with
  | [] => Return domains
  | tokenId :: todo' =>
      let metadataResult := results !! (i * 2)%nat in
      let ownerResult := results !! (i * 2 + 1)%nat in
      match decodeMetadata metadataResult with
      | Throw e => Throw (Cause e)
      | Return metadata =>
          match decodeOwner ownerResult with
          | Throw e => Throw (Cause e)
          | Return owner_ =>
              decodeDetails_loop (S i) todo' results
                (domains ++
                 [{| id_ := tokenId;
                     name := ContractMetadata.domain metadata;
                     did := ContractMetadata.did metadata;
                     note := ContractMetadata.notes metadata;
                     allowSubdomain := ContractMetadata.allowSubdomain metadata;
                     owner := Js.toLowerCase owner_;
                     subdomains := [] |}])
          end
      end
  end.

Definition decodeDetails (tokenIds results : list string)
    : outcome (thrown E) (list DomainData) :=
  decodeDetails_loop 0 tokenIds results [].

Variable staticCall : Z -> list string -> outcome E (list string).

Definition multicallGetDetails (fuel : nat) (cfg : IndexerConfig)
    (tokenIds : list string) : option (outcome (thrown E) (list DomainData)) :=
  match executeMulticallWithRetry staticCall fuel cfg (encodeDetailCalls tokenIds) with
  | None => None
  | Some (Throw e, _) => Some (Throw e)
  | Some (Return results, _) => Some (decodeDetails tokenIds results)
  end.
End Details.

(** ** The batch scheduler *)

Record Range : Type := mkRange { start : Z; end_ : Z }.

(** [createBatches]: [for (let i = 0; i < total; i += batchSize)], entered
    at [i] with [batches] already pushed. *)
Fixpoint createBatches_loop (fuel : nat) (total batchSize i : Z)
    (batches : list Range) : option (list Range) :=
  match fuel with
  | O => None
  | S fuel' =>
      if i <? total then
        createBatches_loop fuel' total batchSize (i + batchSize)
          (batches ++ [mkRange i (Z.min (i + batchSize) total)])
      else Some batches
  end.

Definition createBatches (fuel : nat) (total batchSize : Z) : option (list Range) :=
  createBatches_loop fuel total batchSize 0 [].

(** [createBatchesFromArray]:
    [for (let i = 0; i < items.length; i += batchSize)]. *)
Fixpoint createBatchesFromArray_loop {T : Type} (fuel : nat) (items : list T)
    (batchSize i : Z) (batches : list (list T)) : option (list (list T)) :=
  match fuel with
  | O => None
  | S fuel' =>
      if i <? Z.of_nat (length items) then
        createBatchesFromArray_loop fuel' items batchSize (i + batchSize)
          (batches ++ [Js.slice items i (i + batchSize)])
      else Some batches
  end.

Definition createBatchesFromArray {T : Type} (fuel : nat) (items : list T)
    (batchSize : Z) : option (list (list T)) :=
  createBatchesFromArray_loop fuel items batchSize 0 [].

(** ** Bounded execution: [concurrentMap] *)

Section ConcurrentMap.
Context {T R E : Type}.

(** Which rejection [Promise.all] reports is the one that happens first
    in time; [race e es] picks it among the rejections [e :: es] of a
    window, listed in unit order. *)
Variable race : E -> list E -> E.

Fixpoint rejections (outs : list (outcome E R)) : list E :=
  match outs with
  | [] => []
  | Return _ :: outs' => rejections outs'
  | Throw e :: outs' => e :: rejections outs'
  end.

Fixpoint fulfilments (outs : list (outcome E R)) : list R :=
  match outs with
  | [] => []
  | Return r :: outs' => r :: fulfilments outs'
  | Throw _ :: outs' => fulfilments outs'
  end.

(** [await Promise.all(promises)] on settled promises. *)
Definition Promise_all (outs : list (outcome E R)) : outcome E (list R) :=
  match rejections outs with
  | [] => Return (fulfilments outs)
  | e :: es => Throw (race e es)
  end.

(** [for (let i = 0; i < items.length; i += concurrency)], entered at [i]
    with [results] pushed so far; [started] lists the units on which [fn]
    has been called. *)
Fixpoint concurrentMap_loop (fuel : nat) (items : list T)
    (fn : T -> outcome E R) (concurrency i : Z)
    (results : list R) (started : list T)
    : option (outcome E (list R) * list T) :=
  match fuel with
  | O => None
  | S fuel' =>
      if i <? Z.of_nat (length items) then
        let chunk := Js.slice items i (i + concurrency) in
        match Promise_all (map fn chunk) with
        | Return chunkResults =>
            concurrentMap_loop fuel' items fn concurrency (i + concurrency)
              (results ++ chunkResults) (started ++ chunk)
        | Throw e => Some (Throw e, started ++ chunk)
        end
      else Some (Return results, started)
  end.

Definition concurrentMap (fuel : nat) (items : list T)
    (fn : T -> outcome E R) (concurrency : Z)
    : option (outcome E (list R) * list T) :=
  concurrentMap_loop fuel items fn concurrency 0 [] [].
End ConcurrentMap.

(** ** The details stage: [batchGetDomainDetails] *)

Section DetailsStage.
Context {E : Type}.
Variable race : E -> list E -> E.

(** The worker of the stage, [multicallGetDetails] followed by the
    progress report, as what it does on a batch. *)
Variable worker : list string -> outcome E (list DomainData).

Definition batchGetDomainDetails (fuel : nat) (cfg : IndexerConfig)
    (tokenIds : list string) : option (outcome E (list DomainData)) :=
  let detailBatchSize := batchSize cfg / 2 in
  match createBatchesFromArray fuel tokenIds detailBatchSize with
  | None => None
  | Some batches =>
      match concurrentMap race fuel batches worker (concurrency cfg) with
      | None => None
      | Some (Throw e, _) => Some (Throw e)
      | Some (Return results, _) => Some (Return (concat results))
      end
  end.
End DetailsStage.

(** ** The relationship builder: [buildSubdomainRelations] *)

(** [domains.forEach((d) => domainMap.set(d.name, d))]: the map sends a
    name to the position of the record it was last set to. *)
Fixpoint domainMap_from (i : nat) (domains : list DomainData)
    (domainMap : gmap string nat) : gmap string nat :=
  match domains with
  | [] => domainMap
  | d :: domains' => domainMap_from (S i) domains' (<[name d := i]> domainMap)
  end.

Definition domainMap_of (domains : list DomainData) : gmap string nat :=
  domainMap_from 0 domains ∅.

(** [parent.subdomains.push(n)] *)
Definition push_subdomain (parent : DomainData) (n : string) : DomainData :=
  {| id_ := id_ parent; name := name parent; did := did parent;
     note := note parent; allowSubdomain := allowSubdomain parent;
     owner := owner parent; subdomains := subdomains parent ++ [n] |}.

(** The name of the parent, when [parts.length > 1]:
    [parts.slice(1).join('.')]. *)
Definition parent_name (n : string) : option string :=
  let parts := Js.split "." n in
  if (1 <? length parts)%nat then Some (Js.join "." (drop 1 parts)) else None.

(** The body of [for (const domain of domains)] for the record at position
    [j] of the store [ds]. *)
Definition link_step (domainMap : gmap string nat) (ds : list DomainData)
    (j : nat) : list DomainData :=
  match ds !! j with
  | None => ds
  | Some domain =>
      match parent_name (name domain) with
      | None => ds
      | Some parentDomain =>
          match domainMap !! parentDomain with
          | None => ds
          | Some p =>
              match ds !! p with
              | None => ds
              | Some parent =>
                  if negb (bool_decide (name domain ∈ subdomains parent))
                  then <[p := push_subdomain parent (name domain)]> ds
                  else ds
              end
          end
      end
  end.

Definition buildSubdomainRelations (domains : list DomainData) : list DomainData :=
  foldl (link_step (domainMap_of domains)) domains (seq 0 (length domains)).

(** ** Statistics: [getStatistics] *)

Module Statistics.
Record t : Type := mk {
  total : nat;
  topLevel : nat;
  subdomains : nat;
  withDID : nat;
  allowingSubdomains : nat
}.
End Statistics.

Definition getStatistics (domains : list DomainData) : Statistics.t :=
  {| Statistics.total := length domains;
     Statistics.topLevel :=
       length (filter (fun d => negb (Js.includes (name d) ".") = true) domains);
     Statistics.subdomains :=
       length (filter (fun d => Js.includes (name d) "." = true) domains);
     Statistics.withDID :=
       length (filter (fun d => Js.truthy (did d)
                                && negb (String.eqb (did d) "") = true) domains);
     Statistics.allowingSubdomains :=
       length (filter (fun d => allowSubdomain d = true) domains) |}.

(** ** Identifier retrieval: [multicallTokenByIndex] *)

Section TokenIds.
Context {E : Type}.

(** The ABI coder for [tokenByIndex]:
    [encodeFunctionData('tokenByIndex', [i])] and
    [decodeFunctionResult('tokenByIndex', result)[0].toString()]. *)
Variable encodeTokenByIndex : Z -> string.
Variable decodeTokenByIndex : string -> outcome E string.
Variable staticCall : Z -> list string -> outcome E (list string).

(** [for (let i = start; i < end; i++) calls.push(..)], entered at [i]. *)
Fixpoint encodeTokenCalls_loop (fuel : nat) (end_index i : Z)
    (calls : list string) : option (list string) :=
  match fuel with
  | O => None
  | S fuel' =>
      if i <? end_index then
        encodeTokenCalls_loop fuel' end_index (i + 1)
          (calls ++ [encodeTokenByIndex i])
      else Some calls
  end.

(** [for (const result of results) tokenIds.push(..)] *)
Fixpoint decodeTokenIds_loop (todo : list string) (tokenIds : list string)
    : outcome (thrown E) (list string) :=
  match todo with
  | [] => Return tokenIds
  | result :: todo' =>
      match decodeTokenByIndex result with
      | Throw e => Throw (Cause e)
      | Return tokenId => decodeTokenIds_loop todo' (tokenIds ++ [tokenId])
      end
  end.

Definition decodeTokenIds (results : list string)
    : outcome (thrown E) (list string) :=
  decodeTokenIds_loop results [].

(** The answer, and the trace of the retrying caller. *)
Definition multicallTokenByIndex (fuel : nat) (cfg : IndexerConfig)
    (start_index end_index : Z)
    : option (outcome (thrown E) (list string) * list event) :=
  match encodeTokenCalls_loop fuel end_index start_index [] with
  | None => None
  | Some calls =>
      match executeMulticallWithRetry staticCall fuel cfg calls with
      | None => None
      | Some (Throw e, trace) => Some (Throw e, trace)
      | Some (Return results, trace) => Some (decodeTokenIds results, trace)
      end
  end.
End TokenIds.

(** ** The identifier stage: [batchGetTokenIds] *)

Section TokenIdsStage.
Context {E : Type}.
Variable race : E -> list E -> E.

(** The worker of the stage, [multicallTokenByIndex] on the range followed
    by the progress report, as what it does on a range. *)
Variable worker : Range -> outcome E (list string).

Definition batchGetTokenIds (fuel : nat) (cfg : IndexerConfig) (total : Z)
    : option (outcome E (list string)) :=
  match createBatches fuel total (batchSize cfg) with
  | None => None
  | Some batches =>
      match concurrentMap race fuel batches worker (concurrency cfg) with
      | None => None
      | Some (Throw e, _) => Some (Throw e)
      | Some (Return results, _) => Some (Return (concat results))
      end
  end.
End TokenIdsStage.

(** ** The pipeline: [indexAllDomains] *)

Section Pipeline.
Context {E : Type}.
Variable race : E -> list E -> E.

(** [getTotalSupply()]: [Number(await this.contract.totalSupply())], or
    the failure of the call; the workers of the two stages. *)
Variable getTotalSupply : outcome E Z.
Variable tokenWorker : Range -> outcome E (list string).
Variable detailWorker : list string -> outcome E (list DomainData).

(** The value the pipeline returns; console output and the optional
    progress observer are left out. *)
Definition indexAllDomains (fuel : nat) (cfg : IndexerConfig)
    : option (outcome E (list DomainData)) :=
  match getTotalSupply with
  | Throw e => Some (Throw e)
  | Return totalSupply =>
      match batchGetTokenIds race tokenWorker fuel cfg totalSupply with
      | None => None
      | Some (Throw e) => Some (Throw e)
      | Some (Return tokenIds) =>
          match batchGetDomainDetails race detailWorker fuel cfg tokenIds with
          | None => None
          | Some (Throw e) => Some (Throw e)
          | Some (Return domains) =>
              Some (Return (buildSubdomainRelations domains))
          end
      end
  end.
End Pipeline.

(** ** The note listing script *)

(** [uniqueNotes.add(note)] on a [Set] kept in insertion order. *)
Definition Set_add (s : list string) (x : string) : list string :=
  if bool_decide (x ∈ s) then s else s ++ [x].

(** [data.domains.forEach(domain => uniqueNotes.add(domain.note))], then
    [Array.from(uniqueNotes)]. *)
Definition notesList (domains : list DomainData) : list string :=
  foldl (fun uniqueNotes domain => Set_add uniqueNotes (note domain)) [] domains.

(** * Definitions used to state the properties *)

(** ** Termination of a function with fuel *)

Definition terminates {A : Type} (run : nat -> option A) : Prop :=
  exists fuel a, run fuel = Some a.

Definition diverges {A : Type} (run : nat -> option A) : Prop :=
  forall fuel, run fuel = None.

(** [run] returns [a]: every large enough fuel shows [a], and no fuel
    shows anything else. *)
Definition returns {A : Type} (run : nat -> option A) (a : A) : Prop :=
  (exists fuel, forall fuel', (fuel <= fuel')%nat -> run fuel' = Some a)
  /\ (forall fuel a', run fuel = Some a' -> a' = a).

(** ** Chunking *)

Definition range_len (r : Range) : Z := end_ r - start r.

(** The ranges that [n] iterations push when the loop is entered at [i]. *)
Fixpoint ranges_from (total batchSize : Z) (n : nat) (i : Z) : list Range :=
  match n with
  | O => []
  | S n' => mkRange i (Z.min (i + batchSize) total)
            :: ranges_from total batchSize n' (i + batchSize)
  end.

(** Number of chunks of size [c] needed for [total] items. *)
Definition chunk_count (total c : Z) : nat := Z.to_nat ((total + c - 1) / c).

(** [n] is the number of iterations left when a loop stepping by [c] up to
    [total] is at [i]. *)
Definition iterations_left (total c i : Z) (n : nat) : Prop :=
  match n with
  | O => total <= i
  | S n' => i + Z.of_nat n' * c < total <= i + Z.of_nat n * c
  end.

(** Length of the last chunk. *)
Definition last_chunk_len (total c : Z) : Z :=
  if total mod c =? 0 then c else total mod c.

(** [createBatches total c] returns [bs]. *)
Definition createBatches_returns (total c : Z) (bs : list Range) : Prop :=
  returns (fun fuel => createBatches fuel total c) bs.

(** The consecutive chunks of at most [c] elements of [l]; [n] bounds
    their number. *)
Fixpoint chunks {T : Type} (n c : nat) (l : list T) : list (list T) :=
  match n with
  | O => []
  | S n' =>
      match l with
      | [] => []
      | _ :: _ => take c l :: chunks n' c (drop c l)
      end
  end.

(** The window number [w] of the units, for windows of [c] units. *)
Definition window {T : Type} (c w : nat) (items : list T) : list T :=
  take c (drop (w * c) items).

(** A choice for [Promise.all]: the rejection of the first unit, in unit
    order, that rejects. *)
Definition first_rejection {E : Type} (e : E) (es : list E) : E := e.

(** ** The retrying caller *)

(** What a failed attempt that is retried leaves in the trace. *)
Definition retried_attempt (calls : list string) (attempt : Z) : list event :=
  [EvCall attempt calls; EvWarn attempt; EvSleep (1000 * attempt)].

(** What the last attempt leaves in the trace. *)
Definition last_attempt {E : Type} (calls : list string) (attempt : Z)
    (res : outcome (thrown E) (list string)) : list event :=
  match res with
  | Return _ => [EvCall attempt calls]
  | Throw _ => [EvCall attempt calls; EvErrorLog attempt]
  end.

(** Number of aggregated calls made in a trace. *)
Fixpoint count_calls (trace : list event) : Z :=
  match trace with
  | [] => 0
  | EvCall _ _ :: trace' => 1 + count_calls trace'
  | _ :: trace' => count_calls trace'
  end.

(** Two networks used as examples: one that always times out, one that
    times out once and then answers each call with its own payload. *)
Definition always_timeout (attempt : Z) (calls : list string)
    : outcome string (list string) :=
  Throw "timeout"%string.

Definition timeout_once (attempt : Z) (calls : list string)
    : outcome string (list string) :=
  if attempt =? 1 then Throw "timeout"%string else Return calls.

Definition config_with_retries (n : Z) : IndexerConfig :=
  {| rpcUrl := "http://localhost:8545"; contractAddress := "0x00";
     batchSize := 500; concurrency := 5; retryAttempts := n |}.

(** ** Detail retrieval *)

(** The record built from an identifier and its two decoded results. *)
Definition record_of (tokenId : string) (metadata : ContractMetadata.t)
    (owner_ : string) : DomainData :=
  {| id_ := tokenId;
     name := ContractMetadata.domain metadata;
     did := ContractMetadata.did metadata;
     note := ContractMetadata.notes metadata;
     allowSubdomain := ContractMetadata.allowSubdomain metadata;
     owner := Js.toLowerCase owner_;
     subdomains := [] |}.

(** The two payloads of an identifier, metadata first. *)
Definition detail_calls (encodeFunctionData : string -> string -> string)
    (tokenId : string) : list string :=
  [encodeFunctionData "getMetadata(uint256)" tokenId;
   encodeFunctionData "ownerOf(uint256)" tokenId].

Definition is_upper (c : ascii) : bool :=
  let n := Ascii.N_of_ascii c in ((65 <=? n) && (n <=? 90))%N.

Fixpoint has_upper (s : string) : bool :=
  match s with
  | EmptyString => false
  | String c s' => is_upper c || has_upper s'
  end.

(** An ABI coder used as an example: a call is its signature and its
    argument, a metadata result is a domain name, an owner result is an
    address; [undefined] cannot be decoded. *)
Definition example_encode (signature tokenId : string) : string :=
  (signature +:+ ":" +:+ tokenId)%string.

Definition example_decodeMetadata (result : option string)
    : outcome string ContractMetadata.t :=
  match result with
  | Some r => Return (ContractMetadata.mk r "" "" false)
  | None => Throw "undefined"%string
  end.

Definition example_decodeOwner (result : option string) : outcome string string :=
  match result with
  | Some r => Return r
  | None => Throw "undefined"%string
  end.

(** ** Names and relationships *)

(** The string [s] contains the character [c]. *)
Fixpoint has_char (c : ascii) (s : string) : bool :=
  match s with
  | EmptyString => false
  | String a s' => Ascii.eqb a c || has_char c s'
  end.

(** [n] is a child of the record [d] that [d] does not list yet. *)
Definition new_child (d : DomainData) (n : string) : Prop :=
  parent_name n = Some (name d) /\ n ∉ subdomains d.

(** The record [d] once the names among [names] that are its new children
    have been appended, in the order of [names]. *)
Definition linked (names : list string) (d : DomainData) : DomainData :=
  {| id_ := id_ d; name := name d; did := did d; note := note d;
     allowSubdomain := allowSubdomain d; owner := owner d;
     subdomains := subdomains d ++ filter (new_child d) names |}.

Definition record_named (n : string) (subs : list string) : DomainData :=
  {| id_ := "0"; name := n; did := ""; note := ""; allowSubdomain := true;
     owner := "0x00"; subdomains := subs |}.

(** Records used as examples: names written as in the registry, the
    parent after the first label. *)
Definition example_domains : list DomainData :=
  [record_named "a" []; record_named "b.a" []; record_named "c.b.a" [];
   record_named "y.x" []].

(** Four records: two names with ['.'], three with a DID, one that
    allows subdomains. *)
Definition example_registry : list DomainData :=
  [ {| id_ := "1"; name := "a"; did := "did:1"; note := ""; allowSubdomain := true;
       owner := "0x01"; subdomains := [] |};
    {| id_ := "2"; name := "b.a"; did := "did:2"; note := ""; allowSubdomain := false;
       owner := "0x02"; subdomains := [] |};
    {| id_ := "3"; name := "c"; did := ""; note := ""; allowSubdomain := false;
       owner := "0x03"; subdomains := [] |};
    {| id_ := "4"; name := "d.c"; did := "did:4"; note := ""; allowSubdomain := false;
       owner := "0x04"; subdomains := [] |} ].

(** ** Start-up *)

(** The bounds that the run configuration is said to meet. *)
Definition within_bounds (cfg : IndexerConfig) : Prop :=
  1 <= batchSize cfg /\ 1 <= concurrency cfg /\ 1 <= retryAttempts cfg.

Definition example_env (batch conc retries : option Z) : Env :=
  {| RPC_URL := Some "http://localhost:8545"%string;
     CONTRACT_ADDRESS := Some "0x5DA4Fa8e567d86e52eF8Da860de1be8f54cae97D"%string;
     BATCH_SIZE := batch; CONCURRENCY := conc; RETRY_ATTEMPTS := retries |}.

(** A network used as an example: it answers every aggregated call with
    the metadata and the owner of two records. *)
Definition example_details_call (attempt : Z) (calls : list string)
    : outcome string (list string) :=
  Return ["a.com"; "0xAB"; "b.a.com"; "0xCd"]%string.

(** ** Sums over batches and traces *)

(** What a run adds to [processed] over the given ranges. *)
Fixpoint processed_total (batches : list Range) : Z :=
  match batches with
  | [] => 0
  | r :: batches' => range_len r + processed_total batches'
  end.

(** Time slept in a trace, in milliseconds. *)
Fixpoint total_sleep (trace : list event) : Z :=
  match trace with
  | [] => 0
  | EvSleep ms :: trace' => ms + total_sleep trace'
  | _ :: trace' => total_sleep trace'
  end.

(** The payload lists of the aggregated calls of a trace. *)
Fixpoint called_payloads (trace : list event) : list (list string) :=
  match trace with
  | [] => []
  | EvCall _ calls :: trace' => calls :: called_payloads trace'
  | _ :: trace' => called_payloads trace'
  end.

(** Two records differ at most by subdomains appended to the second. *)
Definition extends_subdomains (d d' : DomainData) : Prop :=
  id_ d' = id_ d /\ name d' = name d /\ did d' = did d /\ note d' = note d
  /\ allowSubdomain d' = allowSubdomain d /\ owner d' = owner d
  /\ subdomains d `prefix_of` subdomains d'.

(** Collaborators used as examples. *)
Definition example_token (i : Z) : string :=
  if i =? 0 then "t0" else if i =? 1 then "t1" else if i =? 2 then "t2" else "tn".

Definition example_tokenWorker (r : Range) : outcome string (list string) :=
  Return (example_token <$> seqZ (start r) (end_ r - start r)).

Definition example_record (tokenId : string) : DomainData :=
  {| id_ := tokenId; name := tokenId; did := ""; note := "n";
     allowSubdomain := false; owner := "0x00"; subdomains := [] |}.

Definition example_detailWorker (batch : list string)
    : outcome string (list DomainData) :=
  Return (example_record <$> batch).

Definition example_encodeIndex (i : Z) : string :=
  if i =? 5 then "idx5" else if i =? 6 then "idx6" else "idx".

Definition echo_call (attempt : Z) (calls : list string)
    : outcome string (list string) :=
  Return calls.

Definition example_config (batch conc retries : Z) : IndexerConfig :=
  {| rpcUrl := "http://localhost:8545"; contractAddress := "0x00";
     batchSize := batch; concurrency := conc; retryAttempts := retries |}.

Definition example_decodeId (result : string) : outcome string string :=
  Return result.

(** ** The builder on any list of records *)

(** What a run of the builder on [names] may have made of the record [d]. *)
Definition linked_from (names : list string) (d d' : DomainData) : Prop :=
  extends_subdomains d d'
  /\ (forall n, n ∈ subdomains d' ->
        n ∈ subdomains d \/ (n ∈ names /\ parent_name n = Some (name d)))
  /\ (NoDup (subdomains d) -> NoDup (subdomains d')).

(** Records with a repeated name. *)
Definition example_duplicates : list DomainData :=
  [record_named "a" []; record_named "b.a" []; record_named "a" ["old"]].

(** Workers that fail, used as examples. *)
Definition always_failing_worker (r : Range) : outcome string (list string) :=
  Throw "boom"%string.

Definition failing_on_t2 (batch : list string) : outcome string (list DomainData) :=
  if bool_decide ("t2"%string ∈ batch) then Throw "boom"%string
  else Return (example_record <$> batch).

(** * Proofs *)

(** ** [createBatches] partitions [[0, total)] *)

Section CreateBatches.
Variables total c : Z.
Hypothesis c_pos : 1 <= c.

Lemma iterations_left_step i n :
  iterations_left total c i (S n) -> iterations_left total c (i + c) n.
Proof. unfold iterations_left. destruct n as [|n]; intros H; lia. Qed.

Lemma iterations_left_enter i n :
  iterations_left total c i (S n) -> i < total.
Proof. unfold iterations_left. intros H. nia. Qed.

Lemma chunk_count_iterations :
  0 <= total -> iterations_left total c 0 (chunk_count total c).
Proof.
  intros Ht. unfold chunk_count.
  pose proof (Z.div_mod (total + c - 1) c ltac:(lia)) as Hdm.
  pose proof (Z.mod_pos_bound (total + c - 1) c ltac:(lia)) as Hb.
  assert (0 <= (total + c - 1) / c) as Hq by (apply Z.div_pos; lia).
  destruct (Z.to_nat ((total + c - 1) / c)) as [|n] eqn:E; unfold iterations_left.
  - assert ((total + c - 1) / c = 0) by lia. nia.
  - assert ((total + c - 1) / c = Z.of_nat (S n)) as Hn by lia.
    rewrite Hn in Hdm. nia.
Qed.

Lemma createBatches_loop_spec n :
  forall i batches fuel,
    iterations_left total c i n -> (n < fuel)%nat ->
    createBatches_loop fuel total c i batches
    = Some (batches ++ ranges_from total c n i).
Proof.
  induction n as [|n IH]; intros i batches fuel Hn Hf.
  - destruct fuel as [|fuel]; [lia|]. simpl in *.
    destruct (Z.ltb_spec i total); [lia|]. by rewrite app_nil_r.
  - destruct fuel as [|fuel]; [lia|]. simpl.
    pose proof (iterations_left_enter _ _ Hn).
    destruct (Z.ltb_spec i total); [|lia].
    rewrite IH; [|by apply iterations_left_step|lia].
    by rewrite <- app_assoc.
Qed.

Lemma last_chunk_arith n :
  Z.of_nat n * c < total <= Z.of_nat n * c + c ->
  total - Z.of_nat n * c = last_chunk_len total c.
Proof.
  intros Hn. unfold last_chunk_len.
  destruct (Z.eqb_spec (total mod c) 0) as [E|E].
  - apply Z.mod_divide in E; [|lia]. destruct E as [q Hq]. subst total.
    assert (q = Z.of_nat n + 1) by nia. nia.
  - pose proof (Z.mod_pos_bound total c ltac:(lia)).
    assert (total <> Z.of_nat n * c + c) as Hne.
    { intros Heq. apply E. rewrite Heq.
      replace (Z.of_nat n * c + c) with ((Z.of_nat n + 1) * c) by lia.
      apply Z.mod_mul. lia. }
    apply (Z.mod_unique_pos total c (Z.of_nat n)); lia.
Qed.
End CreateBatches.

Lemma ranges_from_length total c n i : length (ranges_from total c n i) = n.
Proof. revert i. induction n; intros; simpl; auto. Qed.

Lemma ranges_from_lookup total c n i (k : nat) :
  (k < n)%nat ->
  ranges_from total c n i !! k
  = Some (mkRange (i + Z.of_nat k * c) (Z.min (i + Z.of_nat k * c + c) total)).
Proof.
  revert i k. induction n as [|n IH]; intros i k Hk; [lia|].
  destruct k as [|k].
  - simpl. do 2 f_equal; [|f_equal]; lia.
  - change (ranges_from total c n (i + c) !! k
            = Some (mkRange (i + Z.of_nat (S k) * c)
                            (Z.min (i + Z.of_nat (S k) * c + c) total))).
    rewrite IH; [|lia].
    by replace (i + c + Z.of_nat k * c) with (i + Z.of_nat (S k) * c) by lia.
Qed.

Lemma createBatches_loop_fuel_mono fuel fuel' total c i batches bs :
  createBatches_loop fuel total c i batches = Some bs ->
  (fuel <= fuel')%nat ->
  createBatches_loop fuel' total c i batches = Some bs.
Proof.
  revert fuel' i batches. induction fuel as [|fuel IH]; intros fuel' i batches H Hle.
  - discriminate.
  - destruct fuel' as [|fuel']; [lia|]. simpl in *.
    destruct (i <? total); [|done]. apply IH; [done|lia].
Qed.

Lemma createBatches_returns_ranges total c :
  0 <= total -> 1 <= c ->
  createBatches_returns total c (ranges_from total c (chunk_count total c) 0).
Proof.
  intros Ht Hc.
  assert (forall fuel, (chunk_count total c < fuel)%nat ->
            createBatches fuel total c
            = Some (ranges_from total c (chunk_count total c) 0)) as Hrun.
  { intros fuel Hf. unfold createBatches.
    by rewrite (createBatches_loop_spec total c Hc (chunk_count total c) 0 [] fuel
                  (chunk_count_iterations total c Hc Ht) Hf). }
  split.
  - exists (S (chunk_count total c)). intros fuel' Hf. apply Hrun. lia.
  - intros fuel bs' H.
    apply (createBatches_loop_fuel_mono _ (fuel `max` S (chunk_count total c))%nat) in H; [|lia].
    unfold createBatches in Hrun.
    rewrite Hrun in H; [congruence|lia].
Qed.

Lemma range_lookup_bounds total c (k : nat) :
  0 <= total -> 1 <= c -> (k < chunk_count total c)%nat ->
  Z.of_nat k * c < total.
Proof.
  intros Ht Hc Hk.
  pose proof (chunk_count_iterations total c Hc Ht) as H.
  destruct (chunk_count total c) as [|n]; [lia|].
  unfold iterations_left in H. nia.
Qed.

Lemma ranges_lookup_inv total c (k : nat) r :
  ranges_from total c (chunk_count total c) 0 !! k = Some r ->
  (k < chunk_count total c)%nat
  /\ r = mkRange (Z.of_nat k * c) (Z.min (Z.of_nat k * c + c) total).
Proof.
  intros H.
  assert (k < chunk_count total c)%nat as Hk.
  { apply lookup_lt_Some in H. by rewrite ranges_from_length in H. }
  split; [done|].
  rewrite (ranges_from_lookup total c _ 0 k Hk) in H.
  by injection H as <-.
Qed.

(** C2. For [total >= 0] and [chunkSize >= 1], [createBatches] returns the
    ranges [[k*c, min (k*c + c) total)], [k = 0, 1, ...]: every range is
    non-empty, the first starts at 0, each next one starts where the
    previous one ends, the last one ends at [total] and has length
    [total mod c], or [c] when that is 0; every index of [[0, total)] lies
    in exactly one range and the ranges hold nothing else; [total = 0]
    gives no range. *)
Theorem createBatches_partition (total c : Z) :
  0 <= total -> 1 <= c ->
  exists bs : list Range,
    createBatches_returns total c bs
    /\ length bs = chunk_count total c
    /\ (forall (k : nat) r, bs !! k = Some r ->
          start r = Z.of_nat k * c /\ end_ r = Z.min (Z.of_nat k * c + c) total)
    /\ (forall (k : nat) r, bs !! k = Some r -> start r < end_ r)
    /\ (forall r, bs !! 0%nat = Some r -> start r = 0)
    /\ (forall (k : nat) r r', bs !! k = Some r -> bs !! S k = Some r' ->
          start r' = end_ r)
    /\ (forall r, last bs = Some r ->
          end_ r = total /\ range_len r = last_chunk_len total c)
    /\ (forall x, 0 <= x < total <->
          exists (k : nat) r, bs !! k = Some r /\ start r <= x < end_ r)
    /\ (forall x (k k' : nat) r r', bs !! k = Some r -> bs !! k' = Some r' ->
          start r <= x < end_ r -> start r' <= x < end_ r' -> k = k')
    /\ (total = 0 -> bs = []).
Proof.
  intros Ht Hc.
  set (n := chunk_count total c).
  pose proof (chunk_count_iterations total c Hc Ht) as Hn. fold n in Hn.
  exists (ranges_from total c n 0).
  split; [by apply createBatches_returns_ranges|].
  split; [apply ranges_from_length|].
  assert (forall (k : nat) r, ranges_from total c n 0 !! k = Some r ->
            (k < n)%nat /\ Z.of_nat k * c < total
            /\ start r = Z.of_nat k * c
            /\ end_ r = Z.min (Z.of_nat k * c + c) total) as Hlk.
  { intros k r H. apply ranges_lookup_inv in H as [Hk ->]. simpl.
    split; [done|]. split; [|done]. by apply range_lookup_bounds. }
  split; [intros k r H; apply Hlk in H; tauto|].
  split; [intros k r H; apply Hlk in H; lia|].
  split; [intros r H; apply Hlk in H; lia|].
  split; [intros k r r' H H'; apply Hlk in H, H'; lia|].
  split.
  { intros r H. rewrite last_lookup, ranges_from_length in H.
    apply Hlk in H as (Hk & Hlt & Hs & He).
    destruct n as [|m]; [lia|]. simpl in *. unfold iterations_left in Hn.
    assert (end_ r = total) as Hend by lia. split; [done|].
    unfold range_len. rewrite Hend, Hs.
    apply (last_chunk_arith total c Hc m); lia. }
  split.
  { intros x. split.
    - intros Hx. exists (Z.to_nat (x / c)).
      assert (0 <= x / c) by (apply Z.div_pos; lia).
      pose proof (Z.div_mod x c ltac:(lia)) as Hdm.
      pose proof (Z.mod_pos_bound x c ltac:(lia)) as Hb.
      assert (Z.to_nat (x / c) < n)%nat as Hk.
      { destruct n as [|m]; unfold iterations_left in Hn; [lia|].
        assert (x / c < Z.of_nat (S m)); [|lia]. nia. }
      eexists. split; [apply (ranges_from_lookup total c n 0 _ Hk)|].
      simpl. rewrite Z2Nat.id by lia. nia.
    - intros (k & r & H & Hx). apply Hlk in H. lia. }
  split.
  { intros x k k' r r' H H' Hx Hx'. apply Hlk in H, H'.
    assert (Z.of_nat k = x / c) as Hk1.
    { apply (Z.div_unique_pos x c (Z.of_nat k) (x - Z.of_nat k * c)); lia. }
    assert (Z.of_nat k' = x / c) as Hk2.
    { apply (Z.div_unique_pos x c (Z.of_nat k') (x - Z.of_nat k' * c)); lia. }
    lia. }
  intros ->. destruct n as [|m]; [done|].
  unfold iterations_left in Hn. nia.
Qed.

Lemma createBatches_partition_witness :
  exists bs : list Range,
    createBatches_returns 10 3 bs /\ length bs = 4%nat
    /\ last bs = Some (mkRange 9 10).
Proof.
  destruct (createBatches_partition 10 3 ltac:(lia) ltac:(lia))
    as (bs & Hret & Hlen & _).
  exists bs. split; [exact Hret|]. split; [exact Hlen|].
  destruct Hret as [_ Huniq].
  rewrite <- (Huniq 5%nat
                [mkRange 0 3; mkRange 3 6; mkRange 6 9; mkRange 9 10] eq_refl).
  reflexivity.
Defined.

(** ** [slice] on the windows of a loop *)

Lemma slice_forward {T : Type} (l : list T) (i c : Z) :
  0 <= i -> 0 <= c ->
  Js.slice l i (i + c) = take (Z.to_nat c) (drop (Z.to_nat i) l).
Proof.
  intros Hi Hc. unfold Js.slice, Js.rel_index.
  destruct (Z.ltb_spec i 0); [lia|].
  destruct (Z.ltb_spec (i + c) 0); [lia|].
  set (len := Z.of_nat (length l)).
  destruct (Z.le_gt_cases i len) as [Hle|Hgt].
  - rewrite (Z.min_l i len) by lia.
    destruct (Z.le_gt_cases (i + c) len) as [Hle'|Hgt'].
    + rewrite (Z.min_l (i + c) len) by lia. f_equal. lia.
    + rewrite (Z.min_r (i + c) len) by lia.
      rewrite !take_ge; [done| |]; rewrite length_drop; lia.
  - rewrite !Z.min_r by lia. rewrite Z.sub_diag. simpl.
    rewrite take_0.
    rewrite (drop_ge l (Z.to_nat i)) by lia. by rewrite take_nil.
Qed.

Lemma slice_backward {T : Type} (l : list T) (i c : Z) :
  i <= 0 -> c <= 0 -> i < 0 \/ c = 0 -> Js.slice l i (i + c) = [].
Proof.
  intros Hi Hc Hor. unfold Js.slice, Js.rel_index.
  set (len := Z.of_nat (length l)).
  assert (0 <= len) by lia.
  destruct (Z.ltb_spec i 0), (Z.ltb_spec (i + c) 0); try lia.
  - replace (Z.to_nat (Z.max (len + (i + c)) 0 - Z.max (len + i) 0)) with 0%nat by lia.
    apply take_0.
  - assert (i = 0 /\ c = 0) as [-> ->] by lia.
    replace (Z.to_nat (Z.min (0 + 0) len - Z.min 0 len)) with 0%nat by lia.
    apply take_0.
Qed.

(** ** [createBatchesFromArray] *)

Section CreateBatchesFromArray.
Context {T : Type}.
Variable items : list T.

Lemma createBatchesFromArray_loop_spec (c : Z) :
  1 <= c ->
  forall fuel i batches,
    0 <= i -> Z.max 0 (Z.of_nat (length items) - i) < Z.of_nat fuel ->
    createBatchesFromArray_loop fuel items c i batches
    = Some (batches ++ chunks fuel (Z.to_nat c) (drop (Z.to_nat i) items)).
Proof.
  intros Hc. induction fuel as [|fuel IH]; intros i batches Hi Hf.
  - lia.
  - simpl. destruct (Z.ltb_spec i (Z.of_nat (length items))) as [Hlt|Hge].
    + rewrite IH by lia. rewrite slice_forward by lia.
      destruct (drop (Z.to_nat i) items) as [|x rest] eqn:Hd.
      { apply (f_equal length) in Hd. rewrite length_drop in Hd. simpl in Hd. lia. }
      rewrite <- app_assoc. simpl. do 3 f_equal.
      rewrite <- Hd, drop_drop.
      by replace (Z.to_nat i + Z.to_nat c)%nat with (Z.to_nat (i + c)) by lia.
    + rewrite drop_ge by lia. by rewrite app_nil_r.
Qed.

Lemma chunks_fuel_irrelevant (c : nat) :
  (1 <= c)%nat ->
  forall n m (l : list T), (length l <= n)%nat -> (length l <= m)%nat ->
    chunks n c l = chunks m c l.
Proof.
  intros Hc. induction n as [|n IH]; intros m l Hn Hm.
  - destruct l; [|simpl in *; lia]. by destruct m.
  - destruct l as [|x l]; [by destruct m|].
    destruct m as [|m]; [simpl in *; lia|].
    simpl. f_equal. apply IH; rewrite length_drop; simpl in *; lia.
Qed.

Lemma concat_chunks (c : nat) :
  (1 <= c)%nat ->
  forall n (l : list T), (length l <= n)%nat -> concat (chunks n c l) = l.
Proof.
  intros Hc. induction n as [|n IH]; intros l Hn.
  - destruct l; [done|simpl in *; lia].
  - destruct l as [|x l]; [done|].
    change (take c (x :: l) ++ concat (chunks n c (drop c (x :: l))) = x :: l).
    rewrite IH; [apply take_drop|].
    rewrite length_drop. simpl in *. lia.
Qed.

Lemma createBatchesFromArray_fuel_mono fuel fuel' (c i : Z) batches bs :
  createBatchesFromArray_loop fuel items c i batches = Some bs ->
  (fuel <= fuel')%nat ->
  createBatchesFromArray_loop fuel' items c i batches = Some bs.
Proof.
  revert fuel' i batches. induction fuel as [|fuel IH]; intros fuel' i batches H Hle.
  - discriminate.
  - destruct fuel' as [|fuel']; [lia|]. simpl in *.
    destruct (i <? Z.of_nat (length items)); [|done]. apply IH; [done|lia].
Qed.

(** With a step of at least 1 the loop returns the chunks of [items]. *)
Lemma createBatchesFromArray_returns (c : Z) :
  1 <= c ->
  returns (fun fuel => createBatchesFromArray fuel items c)
          (chunks (length items) (Z.to_nat c) items).
Proof.
  intros Hc.
  assert (forall fuel, (length items < fuel)%nat ->
            createBatchesFromArray fuel items c
            = Some (chunks (length items) (Z.to_nat c) items)) as Hrun.
  { intros fuel Hf. unfold createBatchesFromArray.
    rewrite createBatchesFromArray_loop_spec by lia. simpl. f_equal.
    apply chunks_fuel_irrelevant; lia. }
  split.
  - exists (S (length items)). intros fuel' Hf. apply Hrun. lia.
  - intros fuel bs H.
    apply (createBatchesFromArray_fuel_mono _ (fuel `max` S (length items))%nat) in H; [|lia].
    unfold createBatchesFromArray in Hrun. rewrite Hrun in H; [congruence|lia].
Qed.

(** With a step of at most 0 the counter never passes the length. *)
Lemma createBatchesFromArray_loop_diverges (c : Z) :
  c <= 0 -> items <> [] ->
  forall fuel i batches,
    i <= 0 -> createBatchesFromArray_loop fuel items c i batches = None.
Proof.
  intros Hc Hne.
  assert (0 < Z.of_nat (length items)) as Hlen.
  { destruct items; [done|simpl; lia]. }
  induction fuel as [|fuel IH]; intros i batches Hi; [done|].
  simpl. destruct (Z.ltb_spec i (Z.of_nat (length items))); [|lia].
  apply IH. lia.
Qed.
End CreateBatchesFromArray.

(** ** [Promise.all] and [concurrentMap] *)

Section ConcurrentMapFacts.
Context {T R E : Type}.
Variable race : E -> list E -> E.
Variable fn : T -> outcome E R.

Lemma rejections_app (a b : list (outcome E R)) :
  rejections (a ++ b) = rejections a ++ rejections b.
Proof.
  induction a as [|[r|e] a IH]; simpl; [done|done|]. by rewrite IH.
Qed.

Lemma fulfilments_app (a b : list (outcome E R)) :
  fulfilments (a ++ b) = fulfilments a ++ fulfilments b.
Proof.
  induction a as [|[r|e] a IH]; simpl; [done| |done]. by rewrite IH.
Qed.

Lemma elem_of_rejections (l : list T) (e : E) :
  e ∈ rejections (map fn l) <-> exists u, u ∈ l /\ fn u = Throw e.
Proof.
  induction l as [|x l IH]; simpl.
  - split; [intros H; by apply elem_of_nil in H|].
    intros (u & Hu & _). by apply elem_of_nil in Hu.
  - destruct (fn x) as [r|e'] eqn:Hx.
    + rewrite IH. split.
      * intros (u & Hu & Hf). exists u. split; [by apply elem_of_cons; right|done].
      * intros (u & Hu & Hf). apply elem_of_cons in Hu as [->|Hu]; [congruence|].
        by exists u.
    + rewrite elem_of_cons, IH. split.
      * intros [->|(u & Hu & Hf)].
        -- exists x. split; [by apply elem_of_cons; left|done].
        -- exists u. split; [by apply elem_of_cons; right|done].
      * intros (u & Hu & Hf). apply elem_of_cons in Hu as [->|Hu].
        -- left. congruence.
        -- right. by exists u.
Qed.

Lemma rejections_nil (l : list T) :
  rejections (map fn l) = [] <-> forall x, x ∈ l -> exists r, fn x = Return r.
Proof.
  split.
  - intros Hnil x Hx. destruct (fn x) as [r|e] eqn:Hfx; [by exists r|].
    assert (e ∈ rejections (map fn l)) as He by (apply elem_of_rejections; eauto).
    rewrite Hnil in He. by apply elem_of_nil in He.
  - intros Hall. destruct (rejections (map fn l)) as [|e es] eqn:Hr; [done|].
    assert (e ∈ rejections (map fn l)) as He by (rewrite Hr; apply elem_of_cons; by left).
    apply elem_of_rejections in He as (u & Hu & Hf).
    destruct (Hall u Hu) as [r Hr']. congruence.
Qed.

Lemma fulfilments_all (l : list T) :
  rejections (map fn l) = [] -> map Return (fulfilments (map fn l)) = map fn l.
Proof.
  induction l as [|x l IH]; simpl; [done|].
  destruct (fn x) as [r|e]; [|done]. intros H. simpl. by rewrite IH.
Qed.

Lemma Promise_all_fulfilled (l : list T) :
  rejections (map fn l) = [] ->
  Promise_all race (map fn l) = Return (fulfilments (map fn l)).
Proof. intros H. unfold Promise_all. by rewrite H. Qed.

Lemma Promise_all_rejected (l : list T) :
  rejections (map fn l) <> [] ->
  exists e es, rejections (map fn l) = e :: es
               /\ Promise_all race (map fn l) = Throw (race e es).
Proof.
  intros H. unfold Promise_all.
  destruct (rejections (map fn l)) as [|e es]; [done|]. by exists e, es.
Qed.

Lemma concurrentMap_loop_fuel_mono (items : list T) (c : Z) fuel fuel' i results started o :
  concurrentMap_loop race fuel items fn c i results started = Some o ->
  (fuel <= fuel')%nat ->
  concurrentMap_loop race fuel' items fn c i results started = Some o.
Proof.
  revert fuel' i results started.
  induction fuel as [|fuel IH]; intros fuel' i results started H Hle.
  - discriminate.
  - destruct fuel' as [|fuel']; [lia|]. simpl in *.
    destruct (i <? Z.of_nat (length items)); [|done].
    destruct (Promise_all race (map fn (Js.slice items i (i + c)))); [|done].
    apply IH; [done|lia].
Qed.

(** From one run to all runs. *)
Lemma concurrentMap_returns (items : list T) (c : Z) fuel o :
  (forall fuel', (fuel <= fuel')%nat ->
     concurrentMap race fuel' items fn c = Some o) ->
  returns (fun fuel => concurrentMap race fuel items fn c) o.
Proof.
  intros Hrun. split; [by exists fuel|].
  intros fuel1 o' H. unfold concurrentMap in *.
  apply (concurrentMap_loop_fuel_mono _ _ _ (fuel1 `max` fuel)%nat) in H; [|lia].
  rewrite Hrun in H; [congruence|lia].
Qed.

Section Forward.
Variable items : list T.
Variable c : Z.
Hypothesis c_pos : 1 <= c.

(** All units from [i] on succeed: the loop returns their results. *)
Lemma concurrentMap_loop_ok :
  forall fuel i results started,
    0 <= i -> Z.max 0 (Z.of_nat (length items) - i) < Z.of_nat fuel ->
    rejections (map fn (drop (Z.to_nat i) items)) = [] ->
    concurrentMap_loop race fuel items fn c i results started
    = Some (Return (results ++ fulfilments (map fn (drop (Z.to_nat i) items))),
            started ++ drop (Z.to_nat i) items).
Proof.
  induction fuel as [|fuel IH]; intros i results started Hi Hf Hok; [lia|].
  simpl. destruct (Z.ltb_spec i (Z.of_nat (length items))) as [Hlt|Hge].
  - rewrite slice_forward by lia.
    rewrite <- (take_drop (Z.to_nat c) (drop (Z.to_nat i) items)) in Hok.
    rewrite map_app, rejections_app in Hok.
    apply app_eq_nil in Hok as [Hok1 Hok2].
    rewrite Promise_all_fulfilled by done.
    rewrite drop_drop in Hok2.
    replace (Z.to_nat i + Z.to_nat c)%nat with (Z.to_nat (i + c)) in Hok2 by lia.
    rewrite IH; [|lia|lia|done].
    rewrite <- !app_assoc, <- fulfilments_app, <- map_app.
    replace (Z.to_nat (i + c)) with (Z.to_nat i + Z.to_nat c)%nat by lia.
    rewrite <- drop_drop. by rewrite take_drop.
  - rewrite drop_ge by lia. simpl. by rewrite !app_nil_r.
Qed.

(** Some unit from [i] on fails: the loop throws in the first window,
    counted from [i], that holds a failing unit. *)
Lemma concurrentMap_loop_fail :
  forall fuel i results started,
    0 <= i -> Z.max 0 (Z.of_nat (length items) - i) < Z.of_nat fuel ->
    rejections (map fn (drop (Z.to_nat i) items)) <> [] ->
    exists (w : nat) e',
      concurrentMap_loop race fuel items fn c i results started
      = Some (Throw e',
              started ++ take ((w + 1) * Z.to_nat c) (drop (Z.to_nat i) items))
      /\ rejections (map fn (take (w * Z.to_nat c) (drop (Z.to_nat i) items))) = []
      /\ (exists e es,
            rejections (map fn (window (Z.to_nat c) w (drop (Z.to_nat i) items)))
            = e :: es /\ e' = race e es).
Proof.
  induction fuel as [|fuel IH]; intros i results started Hi Hf Hbad; [lia|].
  simpl. destruct (Z.ltb_spec i (Z.of_nat (length items))) as [Hlt|Hge].
  - rewrite slice_forward by lia.
    set (rest := drop (Z.to_nat i) items) in *.
    destruct (rejections (map fn (take (Z.to_nat c) rest))) as [|e es] eqn:Hwin.
    + rewrite Promise_all_fulfilled by done.
      assert (rejections (map fn (drop (Z.to_nat (i + c)) items)) <> []) as Hbad'.
      { intros Hnil. apply Hbad.
        rewrite <- (take_drop (Z.to_nat c) rest), map_app, rejections_app, Hwin.
        unfold rest. rewrite drop_drop.
        by replace (Z.to_nat i + Z.to_nat c)%nat with (Z.to_nat (i + c)) by lia. }
      destruct (IH (i + c) (results ++ fulfilments (map fn (take (Z.to_nat c) rest)))
                  (started ++ take (Z.to_nat c) rest) ltac:(lia) ltac:(lia) Hbad')
        as (w & e' & Hrun & Hpre & Hw).
      assert (drop (Z.to_nat (i + c)) items = drop (Z.to_nat c) rest) as Hdrop.
      { unfold rest. rewrite drop_drop. f_equal; lia. }
      rewrite Hdrop in Hrun, Hpre, Hw.
      exists (S w), e'. split; [|split].
      * rewrite Hrun. do 2 f_equal. rewrite <- app_assoc. f_equal.
        rewrite take_take_drop. f_equal; lia.
      * replace (S w * Z.to_nat c)%nat with (Z.to_nat c + w * Z.to_nat c)%nat by lia.
        rewrite <- take_take_drop, map_app, rejections_app, Hwin, Hpre. done.
      * unfold window in *. rewrite drop_drop in Hw.
        by replace (S w * Z.to_nat c)%nat with (Z.to_nat c + w * Z.to_nat c)%nat by lia.
    + unfold Promise_all. rewrite Hwin.
      exists 0%nat, (race e es). split; [|split].
      * by replace ((0 + 1) * Z.to_nat c)%nat with (Z.to_nat c) by lia.
      * done.
      * exists e, es. unfold window. simpl. by rewrite drop_0.
  - exfalso. apply Hbad. by rewrite drop_ge by lia.
Qed.
End Forward.

Section Backward.
Variable items : list T.
Variable c : Z.
Hypothesis c_nonpos : c <= 0.
Hypothesis items_nonempty : items <> [].

(** Past the first iteration, or with a step of 0, every window is
    empty and the counter never passes the length. *)
Lemma concurrentMap_loop_spins :
  forall fuel i results started,
    i <= 0 -> i < 0 \/ c = 0 ->
    concurrentMap_loop race fuel items fn c i results started = None.
Proof.
  assert (0 < Z.of_nat (length items)) as Hlen.
  { destruct items; [done|simpl; lia]. }
  induction fuel as [|fuel IH]; intros i results started Hi Hor; [done|].
  simpl. destruct (Z.ltb_spec i (Z.of_nat (length items))); [|lia].
  rewrite slice_backward by lia. simpl.
  unfold Promise_all. simpl. apply IH; lia.
Qed.

Lemma concurrentMap_backward_first fuel :
  concurrentMap race (S fuel) items fn c
  = match Promise_all race (map fn (Js.slice items 0 c)) with
    | Return _ => None
    | Throw e => Some (Throw e, Js.slice items 0 c)
    end.
Proof.
  assert (0 < Z.of_nat (length items)) as Hlen.
  { destruct items; [done|simpl; lia]. }
  unfold concurrentMap. cbn [concurrentMap_loop].
  destruct (Z.ltb_spec 0 (Z.of_nat (length items))); [|lia].
  change (0 + c) with c.
  destruct (Promise_all race (map fn (Js.slice items 0 c))) as [rs|e]; [|done].
  apply concurrentMap_loop_spins; lia.
Qed.
End Backward.
End ConcurrentMapFacts.

(** C1. With a concurrency of at least 1 and a worker that succeeds on
    every unit, [concurrentMap] returns one result per unit, the [k]-th
    result being the worker's result on the [k]-th unit: the results are
    the plain map of the worker over the units, for every concurrency
    value; every unit has been started, once and in order. *)
Theorem concurrentMap_preserves_order {T R E : Type} (race : E -> list E -> E)
    (items : list T) (fn : T -> outcome E R) (c : Z) :
  1 <= c ->
  (forall x, x ∈ items -> exists r, fn x = Return r) ->
  exists rs : list R,
    returns (fun fuel => concurrentMap race fuel items fn c) (Return rs, items)
    /\ length rs = length items
    /\ (forall (k : nat) x, items !! k = Some x ->
          exists r, rs !! k = Some r /\ fn x = Return r)
    /\ map Return rs = map fn items
    /\ (forall c', 1 <= c' ->
          returns (fun fuel => concurrentMap race fuel items fn c') (Return rs, items)).
Proof.
  intros Hc Hok. apply rejections_nil in Hok.
  exists (fulfilments (map fn items)).
  assert (forall c', 1 <= c' ->
            returns (fun fuel => concurrentMap race fuel items fn c')
                    (Return (fulfilments (map fn items)), items)) as Hall.
  { intros c' Hc'. apply (concurrentMap_returns race fn items c' (S (length items))).
    intros fuel' Hf. unfold concurrentMap.
    rewrite (concurrentMap_loop_ok race fn items c' Hc'); [done|lia|lia|done]. }
  pose proof (fulfilments_all fn items Hok) as Hmap.
  split; [by apply Hall|].
  split.
  { apply (f_equal length) in Hmap. by rewrite !length_map in Hmap. }
  split; [|by split].
  intros k x Hk.
  assert (map fn items !! k = Some (fn x)) as Hfx by (by rewrite list_lookup_fmap, Hk).
  rewrite <- Hmap, list_lookup_fmap in Hfx.
  destruct (fulfilments (map fn items) !! k) as [r|]; [|done].
  exists r. split; [done|]. simpl in Hfx. congruence.
Qed.

Lemma concurrentMap_preserves_order_witness :
  exists rs : list Z,
    returns (fun fuel =>
               concurrentMap (E := string) first_rejection fuel [1; 2; 3; 4; 5]
                 (fun x => Return (x * 2)) 2)
            (Return rs, [1; 2; 3; 4; 5])
    /\ rs = [2; 4; 6; 8; 10].
Proof.
  destruct (concurrentMap_preserves_order (E := string) first_rejection
              [1; 2; 3; 4; 5] (fun x => Return (x * 2)) 2 ltac:(lia)
              ltac:(intros x _; eexists; reflexivity))
    as (rs & Hret & _ & _ & Hmap & _).
  exists rs. split; [exact Hret|].
  destruct Hret as [_ Huniq].
  by injection (Huniq 4%nat (Return [2; 4; 6; 8; 10], [1; 2; 3; 4; 5]) eq_refl).
Defined.

(** C4. With a concurrency of at least 1, when some unit fails,
    [concurrentMap] fails and returns no result list.  It stops in the
    first window [w] that holds a failing unit and throws the failure of a
    unit of that window (the failure of the given unit when no unit fails
    otherwise); every unit of the windows before [w] succeeded, and the
    results of those and of the units of [w] that succeeded are dropped;
    the units started are those of the windows up to [w], no unit of a
    later window is started. *)
Theorem concurrentMap_fail_fast {T R E : Type} (race : E -> list E -> E)
    (items : list T) (fn : T -> outcome E R) (c : Z) (x : T) (e : E) :
  (forall e0 es, race e0 es ∈ e0 :: es) ->
  1 <= c -> x ∈ items -> fn x = Throw e ->
  exists (w : nat) (e' : E),
    returns (fun fuel => concurrentMap race fuel items fn c)
            (Throw e', take ((w + 1) * Z.to_nat c) items)
    /\ (forall fuel rs started,
          concurrentMap race fuel items fn c <> Some (Return rs, started))
    /\ (exists u, u ∈ window (Z.to_nat c) w items /\ fn u = Throw e')
    /\ (forall y, y ∈ take (w * Z.to_nat c) items -> exists r, fn y = Return r)
    /\ ((forall y e2, y ∈ items -> fn y = Throw e2 -> e2 = e) -> e' = e).
Proof.
  intros Hrace Hc Hx Hfx.
  assert (rejections (map fn items) <> []) as Hbad.
  { intros Hnil. destruct (proj1 (rejections_nil fn items) Hnil x Hx). congruence. }
  assert (forall fuel, (length items < fuel)%nat ->
            exists (w : nat) e',
              concurrentMap race fuel items fn c
              = Some (Throw e', take ((w + 1) * Z.to_nat c) items)
              /\ rejections (map fn (take (w * Z.to_nat c) items)) = []
              /\ (exists e0 es,
                    rejections (map fn (window (Z.to_nat c) w items)) = e0 :: es
                    /\ e' = race e0 es)) as Hrun.
  { intros fuel Hf.
    apply (concurrentMap_loop_fail race fn items c Hc fuel 0 [] []); [lia|lia|done]. }
  destruct (Hrun (S (length items)) ltac:(lia)) as (w & e' & Hr & Hpre & e0 & es & Hwin & He').
  assert (returns (fun fuel => concurrentMap race fuel items fn c)
                  (Throw e', take ((w + 1) * Z.to_nat c) items)) as Hret.
  { apply (concurrentMap_returns race fn items c (S (length items))).
    intros fuel' Hf. unfold concurrentMap in *.
    by apply (concurrentMap_loop_fuel_mono race fn items c (S (length items))). }
  assert (exists u, u ∈ window (Z.to_nat c) w items /\ fn u = Throw e') as (u & Hu & Hfu).
  { apply elem_of_rejections. rewrite Hwin, He'. apply Hrace. }
  exists w, e'. split; [done|]. split; [|split; [|split]].
  - intros fuel rs started H. destruct Hret as [_ Huniq].
    apply Huniq in H. discriminate.
  - by exists u.
  - by apply rejections_nil.
  - intros Honly. apply (Honly u); [|done].
    unfold window in Hu. by apply subseteq_take, subseteq_drop in Hu.
Qed.

Lemma first_rejection_In {E : Type} (e0 : E) (es : list E) :
  first_rejection e0 es ∈ e0 :: es.
Proof. apply elem_of_cons. by left. Qed.

Lemma concurrentMap_fail_fast_witness :
  exists (w : nat) (e' : string),
    returns (fun fuel =>
               concurrentMap first_rejection fuel [1; 2; 3; 4; 5]
                 (fun x => if x =? 4 then Throw "boom"%string else Return (x * 2)) 2)
            (Throw e', take ((w + 1) * 2) [1; 2; 3; 4; 5])
    /\ e' = "boom"%string.
Proof.
  destruct (concurrentMap_fail_fast first_rejection [1; 2; 3; 4; 5]
              (fun x => if x =? 4 then Throw "boom"%string else Return (x * 2))
              2 4 "boom"%string first_rejection_In ltac:(lia)
              ltac:(by repeat constructor) eq_refl)
    as (w & e' & Hret & _ & _ & _ & Honly).
  exists w, e'. split; [exact Hret|].
  apply Honly. intros y e2 _.
  destruct (y =? 4); [congruence|discriminate].
Defined.

(** ** Termination of the loops that step by a chunk size *)

Lemma batchGetDomainDetails_diverges {E : Type} (race : E -> list E -> E)
    (worker : list string -> outcome E (list DomainData))
    (cfg : IndexerConfig) (tokenIds : list string) :
  batchSize cfg / 2 <= 0 -> tokenIds <> [] ->
  diverges (fun fuel => batchGetDomainDetails race worker fuel cfg tokenIds).
Proof.
  intros Hc Hne fuel. unfold batchGetDomainDetails, createBatchesFromArray.
  by rewrite createBatchesFromArray_loop_diverges.
Qed.

(** C10, as the code has it.  On a non-empty list,
    [createBatchesFromArray] terminates when its step is at least 1 and
    does not terminate when it is at most 0.  [concurrentMap] terminates
    when its step is at least 1; with a step of at most 0 it never returns
    a result list: it does not terminate when the step is 0 or when no
    unit of its first window [items.slice(0, c)] fails, and it rejects
    with the failure of such a unit otherwise.  With [batchSize = 1] the
    details stage chunks by [floor(1 / 2) = 0] and does not terminate on a
    non-empty identifier list. *)
Theorem step_loops_termination {T : Type} (items : list T) :
  items <> [] ->
  (forall c, 1 <= c -> terminates (fun fuel => createBatchesFromArray fuel items c))
  /\ (forall c, c <= 0 -> diverges (fun fuel => createBatchesFromArray fuel items c))
  /\ (forall (R E : Type) (race : E -> list E -> E) (fn : T -> outcome E R) c,
        1 <= c -> terminates (fun fuel => concurrentMap race fuel items fn c))
  /\ (forall (R E : Type) (race : E -> list E -> E) (fn : T -> outcome E R) c,
        c <= 0 ->
        (forall fuel rs started,
           concurrentMap race fuel items fn c <> Some (Return rs, started))
        /\ (c = 0 -> diverges (fun fuel => concurrentMap race fuel items fn c))
        /\ (rejections (map fn (Js.slice items 0 c)) = [] ->
            diverges (fun fuel => concurrentMap race fuel items fn c))
        /\ (forall e es,
              rejections (map fn (Js.slice items 0 c)) = e :: es ->
              returns (fun fuel => concurrentMap race fuel items fn c)
                      (Throw (race e es), Js.slice items 0 c)))
  /\ (forall (E : Type) (race : E -> list E -> E)
             (worker : list string -> outcome E (list DomainData))
             (cfg : IndexerConfig) (tokenIds : list string),
        batchSize cfg = 1 -> tokenIds <> [] ->
        batchSize cfg / 2 = 0
        /\ diverges (fun fuel => batchGetDomainDetails race worker fuel cfg tokenIds)).
Proof.
  intros Hne. split; [|split; [|split; [|split]]].
  - intros c Hc. destruct (createBatchesFromArray_returns items c Hc) as [[fuel H] _].
    exists fuel, (chunks (length items) (Z.to_nat c) items). by apply H.
  - intros c Hc fuel. by apply createBatchesFromArray_loop_diverges.
  - intros R E race fn c Hc.
    destruct (rejections (map fn items)) as [|e es] eqn:Hrej.
    + exists (S (length items)). eexists. unfold concurrentMap.
      apply (concurrentMap_loop_ok race fn items c Hc); [lia|lia|done].
    + destruct (concurrentMap_loop_fail race fn items c Hc (S (length items)) 0 [] []
                  ltac:(lia) ltac:(lia)) as (w & e' & H & _).
      { change (Z.to_nat 0) with 0%nat. by rewrite drop_0, Hrej. }
      exists (S (length items)). eexists. exact H.
  - intros R E race fn c Hc.
    assert (forall fuel,
              concurrentMap race fuel items fn c
              = match fuel with
                | O => None
                | S _ => match Promise_all race (map fn (Js.slice items 0 c)) with
                         | Return _ => None
                         | Throw e => Some (Throw e, Js.slice items 0 c)
                         end
                end) as Hrun.
    { intros [|fuel]; [done|]. by apply concurrentMap_backward_first. }
    split; [|split; [|split]].
    + intros fuel rs started. rewrite Hrun. destruct fuel; [done|].
      by destruct (Promise_all race (map fn (Js.slice items 0 c))).
    + intros -> fuel. rewrite Hrun. destruct fuel; [done|].
      assert (Js.slice items 0 0 = []) as Hs
        by (apply (slice_backward items 0 0); lia).
      by rewrite Hs.
    + intros Hok fuel. rewrite Hrun. destruct fuel; [done|].
      by rewrite Promise_all_fulfilled.
    + intros e es Hrej.
      apply (concurrentMap_returns race fn items c 1).
      intros fuel' Hf. rewrite Hrun. destruct fuel' as [|fuel']; [lia|].
      unfold Promise_all. by rewrite Hrej.
  - intros E race worker cfg tokenIds Hb Hne'. rewrite Hb.
    split; [done|].
    apply batchGetDomainDetails_diverges; [by rewrite Hb|done].
Qed.

Lemma step_loops_termination_witness :
  diverges (fun fuel => createBatchesFromArray fuel ["1"; "2"; "3"]%string 0).
Proof.
  apply (step_loops_termination ["1"; "2"; "3"]%string); [discriminate|lia].
Defined.

(** With a negative step and a failing unit in the first window,
    [concurrentMap] terminates: it rejects. *)
Lemma concurrentMap_negative_step_terminates :
  ["a"; "b"]%string <> []
  /\ -1 <= 0
  /\ concurrentMap (R := Z) first_rejection 1 ["a"; "b"]%string
       (fun _ => Throw "boom"%string) (-1)
     = Some (Throw "boom"%string, ["a"]%string)
  /\ ~ diverges (fun fuel =>
                   concurrentMap (R := Z) first_rejection fuel ["a"; "b"]%string
                     (fun _ => Throw "boom"%string) (-1)).
Proof.
  split; [discriminate|]. split; [lia|]. split; [reflexivity|].
  intros H. specialize (H 1%nat). discriminate.
Qed.

(** ** The retrying caller *)

Section RetryFacts.
Context {E : Type}.
Variable staticCall : Z -> list string -> outcome E (list string).
Variable maxAttempts : Z.
Variable calls : list string.

Lemma executeMulticallWithRetry_loop_fuel_mono fuel fuel' attempt trace o :
  executeMulticallWithRetry_loop staticCall fuel maxAttempts calls attempt trace = Some o ->
  (fuel <= fuel')%nat ->
  executeMulticallWithRetry_loop staticCall fuel' maxAttempts calls attempt trace = Some o.
Proof.
  revert fuel' attempt trace.
  induction fuel as [|fuel IH]; intros fuel' attempt trace H Hle; [discriminate|].
  destruct fuel' as [|fuel']; [lia|]. simpl in *.
  destruct (attempt <=? maxAttempts); [|done].
  destruct (staticCall attempt calls); [done|].
  destruct (attempt =? maxAttempts); [done|].
  apply IH; [done|lia].
Qed.

Lemma count_calls_app (t1 t2 : list event) :
  count_calls (t1 ++ t2) = count_calls t1 + count_calls t2.
Proof.
  induction t1 as [|ev t1 IH]; [simpl; lia|].
  destruct ev; simpl; lia.
Qed.

Lemma count_calls_retried (a n : Z) :
  0 <= n ->
  count_calls (flat_map (retried_attempt calls) (seqZ a n)) = n.
Proof.
  intros Hn. rewrite <- (Z2Nat.id n Hn). generalize (Z.to_nat n). clear.
  intros k. revert a. induction k as [|k IH]; intros a; [done|].
  rewrite seqZ_cons by lia.
  replace (Z.pred (Z.of_nat (S k))) with (Z.of_nat k) by lia.
  cbn [flat_map retried_attempt app count_calls]. rewrite IH. lia.
Qed.

(** The loop entered at [attempt]: it stops at some attempt [n], the
    first one that succeeds or else the last one allowed. *)
Lemma executeMulticallWithRetry_loop_spec :
  forall fuel attempt trace,
    attempt <= maxAttempts -> maxAttempts - attempt < Z.of_nat fuel ->
    exists (n : Z) (res : outcome (thrown E) (list string)),
      executeMulticallWithRetry_loop staticCall fuel maxAttempts calls attempt trace
      = Some (res, trace ++ flat_map (retried_attempt calls) (seqZ attempt (n - attempt))
                     ++ last_attempt calls n res)
      /\ attempt <= n <= maxAttempts
      /\ (forall k, attempt <= k < n -> exists e, staticCall k calls = Throw e)
      /\ match staticCall n calls with
         | Return results => res = Return results
         | Throw e => n = maxAttempts /\ res = Throw (Cause e)
         end.
Proof.
  induction fuel as [|fuel IH]; intros attempt trace Hle Hf; [lia|].
  simpl. destruct (Z.leb_spec attempt maxAttempts); [|lia].
  destruct (staticCall attempt calls) as [results|e] eqn:Hcall.
  - exists attempt, (Return results). rewrite Z.sub_diag, Hcall. simpl.
    repeat split; lia.
  - destruct (Z.eqb_spec attempt maxAttempts) as [Heq|Hne].
    + exists attempt, (Throw (Cause e)). rewrite Z.sub_diag, Hcall. simpl.
      repeat split; lia.
    + destruct (IH (attempt + 1)
                  (trace ++ [EvCall attempt calls; EvWarn attempt; EvSleep (1000 * attempt)])
                  ltac:(lia) ltac:(lia)) as (n & res & Hrun & Hn & Hfail & Hlast).
      exists n, res. split; [|split; [lia|split; [|done]]].
      * rewrite Hrun. do 2 f_equal.
        rewrite (seqZ_cons attempt (n - attempt)) by lia.
        replace (Z.succ attempt) with (attempt + 1) by lia.
        replace (Z.pred (n - attempt)) with (n - (attempt + 1)) by lia.
        cbn [flat_map retried_attempt]. by rewrite <- !app_assoc.
      * intros k Hk. destruct (Z.eq_dec k attempt) as [->|Hk']; [by exists e|].
        apply Hfail. lia.
Qed.

(** With no attempt allowed the network is never called. *)
Lemma executeMulticallWithRetry_loop_none fuel :
  maxAttempts < 1 ->
  executeMulticallWithRetry_loop staticCall (S fuel) maxAttempts calls 1 []
  = Some (Throw (JsError "Multicall failed"), []).
Proof. intros H. simpl. by destruct (Z.leb_spec 1 maxAttempts); [lia|]. Qed.
End RetryFacts.

(** C3, as the code has it.  With [maxAttempts >= 1] the retrying caller
    stops at an attempt [n <= maxAttempts], having made exactly [n]
    aggregated calls: the attempts before [n] failed, and each of them
    was followed by a warning and a sleep of [1000 * attempt]; when
    attempt [n] succeeds its results are returned; when it fails, [n] is
    [maxAttempts] and the failure of that attempt is thrown again as it
    is, the attempt count being logged only. *)
Theorem executeMulticallWithRetry_attempts {E : Type}
    (staticCall : Z -> list string -> outcome E (list string))
    (cfg : IndexerConfig) (calls : list string) :
  1 <= retryAttempts cfg ->
  exists (n : Z) (res : outcome (thrown E) (list string)) (trace : list event),
    returns (fun fuel => executeMulticallWithRetry staticCall fuel cfg calls)
            (res, trace)
    /\ trace = flat_map (retried_attempt calls) (seqZ 1 (n - 1))
               ++ last_attempt calls n res
    /\ 1 <= n <= retryAttempts cfg
    /\ count_calls trace = n
    /\ (forall k, 1 <= k < n -> exists e, staticCall k calls = Throw e)
    /\ match staticCall n calls with
       | Return results => res = Return results
       | Throw e => n = retryAttempts cfg /\ res = Throw (Cause e)
       end.
Proof.
  intros Hmax.
  set (fuel0 := S (Z.to_nat (retryAttempts cfg))).
  destruct (executeMulticallWithRetry_loop_spec staticCall (retryAttempts cfg) calls
              fuel0 1 [] Hmax ltac:(lia)) as (n & res & Hrun & Hn & Hfail & Hlast).
  simpl app in Hrun.
  exists n, res, (flat_map (retried_attempt calls) (seqZ 1 (n - 1))
                  ++ last_attempt calls n res).
  split; [|split; [done|split; [done|split; [|by split]]]].
  - split.
    + exists fuel0. intros fuel' Hf. unfold executeMulticallWithRetry.
      by apply (executeMulticallWithRetry_loop_fuel_mono staticCall _ calls fuel0).
    + intros fuel o H. unfold executeMulticallWithRetry in H.
      apply (executeMulticallWithRetry_loop_fuel_mono staticCall _ calls _
               (fuel `max` fuel0)%nat) in H; [|lia].
      apply (executeMulticallWithRetry_loop_fuel_mono staticCall _ calls _
               (fuel `max` fuel0)%nat) in Hrun; [|lia].
      congruence.
  - rewrite count_calls_app, count_calls_retried by lia.
    destruct res; simpl; lia.
Qed.

Lemma executeMulticallWithRetry_attempts_witness :
  exists (n : Z) (trace : list event),
    returns (fun fuel =>
               executeMulticallWithRetry timeout_once fuel (config_with_retries 3)
                 ["0xab"; "0xcd"]%string)
            (Return ["0xab"; "0xcd"]%string, trace)
    /\ n = 2
    /\ trace = [EvCall 1 ["0xab"; "0xcd"]%string; EvWarn 1; EvSleep 1000;
                EvCall 2 ["0xab"; "0xcd"]%string].
Proof.
  destruct (executeMulticallWithRetry_attempts timeout_once (config_with_retries 3)
              ["0xab"; "0xcd"]%string ltac:(simpl; lia))
    as (n & res & trace & Hret & _).
  pose proof (proj2 Hret 3%nat _ eq_refl) as Heq.
  injection Heq as Hres Htrace. subst res trace.
  eexists 2, _. split; [exact Hret|]. split; reflexivity.
Defined.

(** The value thrown after the last failed attempt does not carry the
    attempt count: the same value is thrown after one attempt and after
    two, so that no reading of the thrown value gives the number of
    attempts made. *)
Lemma thrown_value_without_attempt_count :
  executeMulticallWithRetry always_timeout 2 (config_with_retries 1) []
  = Some (Throw (Cause "timeout"%string), [EvCall 1 []; EvErrorLog 1])
  /\ executeMulticallWithRetry always_timeout 3 (config_with_retries 2) []
     = Some (Throw (Cause "timeout"%string),
             [EvCall 1 []; EvWarn 1; EvSleep 1000; EvCall 2 []; EvErrorLog 2])
  /\ ~ (exists attempts_of : thrown string -> Z,
          forall fuel cfg v trace,
            executeMulticallWithRetry always_timeout fuel cfg [] = Some (Throw v, trace) ->
            attempts_of v = count_calls trace).
Proof.
  split; [reflexivity|]. split; [reflexivity|].
  intros [attempts_of H].
  pose proof (H 2%nat (config_with_retries 1) _ _ eq_refl) as H1.
  pose proof (H 3%nat (config_with_retries 2) _ _ eq_refl) as H2.
  simpl in H1, H2. lia.
Qed.

(** ** Detail retrieval: encoding and decoding *)

Lemma lower_char_not_upper (c : ascii) : is_upper (Js.lower_char c) = false.
Proof. by destruct c as [[] [] [] [] [] [] [] []]. Qed.

Lemma toLowerCase_no_upper (s : string) : has_upper (Js.toLowerCase s) = false.
Proof.
  induction s as [|c s IH]; [done|]. simpl.
  by rewrite lower_char_not_upper, IH.
Qed.

Section DetailsFacts.
Context {E : Type}.
Variable encodeFunctionData : string -> string -> string.
Variable decodeMetadata : option string -> outcome E ContractMetadata.t.
Variable decodeOwner : option string -> outcome E string.

Lemma encodeDetailCalls_flat_map (tokenIds : list string) :
  encodeDetailCalls encodeFunctionData tokenIds = flat_map (detail_calls encodeFunctionData) tokenIds.
Proof.
  unfold encodeDetailCalls.
  assert (forall acc,
            foldl (fun calls tokenId =>
                     (calls ++ [encodeFunctionData "getMetadata(uint256)" tokenId])
                       ++ [encodeFunctionData "ownerOf(uint256)" tokenId])
                  acc tokenIds
            = acc ++ flat_map (detail_calls encodeFunctionData) tokenIds) as H.
  { induction tokenIds as [|t ts IH]; intros acc; simpl.
    - by rewrite app_nil_r.
    - rewrite IH. by rewrite <- !app_assoc. }
  apply H.
Qed.

Lemma flat_map_pair_length (tokenIds : list string) :
  length (flat_map (detail_calls encodeFunctionData) tokenIds) = (2 * length tokenIds)%nat.
Proof. induction tokenIds as [|t ts IH]; simpl in *; lia. Qed.

Lemma flat_map_pair_lookup (tokenIds : list string) (i : nat) (t : string) :
  tokenIds !! i = Some t ->
  flat_map (detail_calls encodeFunctionData) tokenIds !! (i * 2)%nat
  = Some (encodeFunctionData "getMetadata(uint256)" t)
  /\ flat_map (detail_calls encodeFunctionData) tokenIds !! (i * 2 + 1)%nat
     = Some (encodeFunctionData "ownerOf(uint256)" t).
Proof.
  revert i. induction tokenIds as [|t0 ts IH]; intros i Hi; [done|].
  destruct i as [|i].
  - injection Hi as ->. by split.
  - simpl in Hi. apply IH in Hi as [H1 H2]. by split.
Qed.

Variable results : list string.

Lemma decodeDetails_loop_Return :
  forall todo i domains out,
    decodeDetails_loop decodeMetadata decodeOwner i todo results domains = Return out ->
    exists recs,
      out = domains ++ recs
      /\ length recs = length todo
      /\ forall (j : nat) t, todo !! j = Some t ->
           exists metadata owner_,
             decodeMetadata (results !! ((i + j) * 2)%nat) = Return metadata
             /\ decodeOwner (results !! ((i + j) * 2 + 1)%nat) = Return owner_
             /\ recs !! j = Some (record_of t metadata owner_).
Proof.
  induction todo as [|t todo IH]; intros i domains out H; simpl in H.
  - injection H as <-. exists []. by rewrite app_nil_r.
  - destruct (decodeMetadata (results !! (i * 2)%nat)) as [metadata|e] eqn:Hm; [|done].
    destruct (decodeOwner (results !! (i * 2 + 1)%nat)) as [owner_|e] eqn:Ho; [|done].
    apply IH in H as (recs & -> & Hlen & Hrec).
    exists (record_of t metadata owner_ :: recs).
    split; [by rewrite <- app_assoc|]. split; [simpl; lia|].
    intros [|j] t' Hj.
    + injection Hj as <-. exists metadata, owner_.
      by rewrite Nat.add_0_r.
    + simpl in Hj. apply Hrec in Hj as (m & o & H1 & H2 & H3).
      exists m, o. by replace (i + S j)%nat with (S i + j)%nat by lia.
Qed.

Lemma decodeDetails_loop_total :
  forall todo i domains,
    (forall j, (j < length todo)%nat ->
       (exists metadata, decodeMetadata (results !! ((i + j) * 2)%nat) = Return metadata)
       /\ (exists owner_, decodeOwner (results !! ((i + j) * 2 + 1)%nat) = Return owner_)) ->
    exists out, decodeDetails_loop decodeMetadata decodeOwner i todo results domains
                = Return out.
Proof.
  induction todo as [|t todo IH]; intros i domains Hok; simpl.
  - by eexists.
  - destruct (Hok 0%nat ltac:(simpl; lia)) as [[m Hm] [o Ho]].
    rewrite Nat.add_0_r in Hm, Ho. rewrite Hm, Ho.
    apply IH. intros j Hj.
    replace (S i + j)%nat with (i + S j)%nat by lia.
    apply Hok. simpl. lia.
Qed.
End DetailsFacts.

(** ** Names: [split], [join], [includes] *)

Lemma includes_dot (s : string) : Js.includes s "." = has_char "." s.
Proof.
  induction s as [|a s IH]; [done|].
  cbn [Js.includes has_char String.prefix]. rewrite IH.
  destruct (ascii_dec "." a) as [<-|Hne].
  - by destruct s.
  - by destruct (Ascii.eqb_spec a ".") as [->|_].
Qed.

Lemma split_nonempty (c : ascii) (s : string) : Js.split c s <> [].
Proof.
  destruct s as [|a s]; simpl; [done|].
  destruct (Ascii.eqb a c); [done|]. by destruct (Js.split c s).
Qed.

Lemma join_split (c : ascii) (s : string) :
  Js.join (String c EmptyString) (Js.split c s) = s.
Proof.
  induction s as [|a s IH]; [done|]. simpl.
  pose proof (split_nonempty c s) as Hne.
  destruct (Ascii.eqb_spec a c) as [->|Hac].
  - destruct (Js.split c s) as [|w ws]; [done|]. simpl in *. by rewrite IH.
  - destruct (Js.split c s) as [|w ws]; [done|].
    destruct ws as [|w' ws]; simpl in *; by rewrite <- IH.
Qed.

Lemma split_label (c : ascii) (label rest : string) :
  has_char c label = false ->
  Js.split c (label +:+ String c rest) = label :: Js.split c rest.
Proof.
  induction label as [|a label IH]; simpl; intros H.
  - by rewrite Ascii.eqb_refl.
  - apply orb_false_iff in H as [Ha Hl]. rewrite Ha, (IH Hl). done.
Qed.

Lemma split_no_sep (c : ascii) (s : string) :
  has_char c s = false -> Js.split c s = [s].
Proof.
  induction s as [|a s IH]; simpl; intros H; [done|].
  apply orb_false_iff in H as [Ha Hs]. by rewrite Ha, (IH Hs).
Qed.

Lemma first_label (c : ascii) (s : string) :
  has_char c s = true ->
  exists label rest, s = (label +:+ String c rest)%string /\ has_char c label = false.
Proof.
  induction s as [|a s IH]; simpl; intros H; [done|].
  destruct (Ascii.eqb_spec a c) as [->|Hac].
  - by exists EmptyString, s.
  - simpl in H. destruct (IH H) as (label & rest & -> & Hl).
    exists (String a label), rest. split; [done|]. simpl.
    rewrite Hl. by destruct (Ascii.eqb_spec a c).
Qed.

(** A name without ['.'] has no parent name. *)
Lemma parent_name_None (n : string) :
  parent_name n = None <-> has_char "." n = false.
Proof.
  unfold parent_name. split.
  - intros H. destruct (has_char "." n) eqn:Hdot; [|done].
    destruct (first_label _ _ Hdot) as (label & rest & -> & Hl).
    rewrite (split_label "." label rest Hl) in H. simpl in H.
    pose proof (split_nonempty "." rest).
    by destruct (Js.split "." rest).
  - intros H. by rewrite (split_no_sep _ _ H).
Qed.

(** The parent name is what follows the first ['.']. *)
Lemma parent_name_Some (n pn : string) :
  parent_name n = Some pn <->
  exists label, has_char "." label = false /\ n = (label +:+ "." +:+ pn)%string.
Proof.
  assert (forall label rest, has_char "." label = false ->
            parent_name (label +:+ String "." rest) = Some rest) as Hstep.
  { intros label rest Hl. unfold parent_name.
    rewrite (split_label "." label rest Hl).
    pose proof (split_nonempty "." rest).
    destruct (Js.split "." rest) as [|w ws] eqn:Hs; [done|].
    simpl length. simpl drop. rewrite <- Hs.
    change (Some (Js.join "." (Js.split "." rest)) = Some rest).
    by rewrite join_split. }
  split.
  - intros H. destruct (has_char "." n) eqn:Hdot.
    + destruct (first_label _ _ Hdot) as (label & rest & -> & Hl).
      rewrite (Hstep label rest Hl) in H. injection H as ->. by exists label.
    + apply parent_name_None in Hdot. congruence.
  - intros (label & Hl & ->). by apply Hstep.
Qed.

(** ** The relationship builder *)

Lemma domainMap_from_Some (ds : list DomainData) :
  forall i (m : gmap string nat) n p,
    domainMap_from i ds m !! n = Some p ->
    m !! n = Some p
    \/ exists (j : nat) d, ds !! j = Some d /\ name d = n /\ p = (i + j)%nat.
Proof.
  induction ds as [|d0 ds IH]; intros i m n p H; simpl in H; [by left|].
  apply IH in H as [H|(j & d & Hj & Hn & ->)].
  - apply lookup_insert_Some in H as [[Hn <-]|[Hn H]]; [|by left].
    right. exists 0%nat, d0. split; [done|]. split; [done|lia].
  - right. exists (S j), d. split; [done|]. split; [done|lia].
Qed.

Lemma domainMap_from_None (ds : list DomainData) :
  forall i (m : gmap string nat) n,
    domainMap_from i ds m !! n = None ->
    m !! n = None /\ forall d, d ∈ ds -> name d <> n.
Proof.
  induction ds as [|d0 ds IH]; intros i m n H; simpl in H.
  - split; [done|]. intros d Hd. by apply elem_of_nil in Hd.
  - apply IH in H as [H Hds]. apply lookup_insert_None in H as [Hm Hn].
    split; [done|]. intros d Hd. apply elem_of_cons in Hd as [->|Hd]; [done|].
    by apply Hds.
Qed.

(** The map sends a name to a record of that name. *)
Lemma domainMap_of_Some (domains : list DomainData) n p :
  domainMap_of domains !! n = Some p ->
  exists d, domains !! p = Some d /\ name d = n.
Proof.
  intros H. apply domainMap_from_Some in H as [H|(j & d & Hj & Hn & ->)].
  - by rewrite lookup_empty in H.
  - by exists d.
Qed.

Lemma domainMap_of_None (domains : list DomainData) n :
  domainMap_of domains !! n = None -> forall d, d ∈ domains -> name d <> n.
Proof. intros H. by apply domainMap_from_None in H as [_ H]. Qed.

Lemma linked_nil (d : DomainData) : linked [] d = d.
Proof. destruct d. unfold linked. simpl. by rewrite app_nil_r. Qed.

Lemma linked_snoc (names : list string) (n : string) (d : DomainData) :
  linked (names ++ [n]) d
  = if decide (new_child d n) then push_subdomain (linked names d) n
    else linked names d.
Proof.
  unfold linked, push_subdomain. simpl.
  rewrite filter_app, (list.filter_singleton (new_child d) n []).
  destruct (decide (new_child d n)).
  - by rewrite app_assoc.
  - by rewrite app_nil_r.
Qed.

Lemma linked_unchanged (domains : list DomainData) (names : list string) (n : string) :
  (forall d, d ∈ domains -> ~ new_child d n) ->
  linked (names ++ [n]) <$> domains = linked names <$> domains.
Proof.
  intros Hno. apply list_eq. intros i. rewrite !list_lookup_fmap.
  destruct (domains !! i) as [d|] eqn:Hd; [|done]. simpl. f_equal.
  rewrite linked_snoc. destruct (decide (new_child d n)) as [Hc|]; [|done].
  exfalso. apply (Hno d); [|done]. apply list_elem_of_lookup. by exists i.
Qed.

Section LinkStep.
Variable domains : list DomainData.
Hypothesis names_unique : NoDup (name <$> domains).

Lemma same_name_same_position (p q : nat) (d d' : DomainData) :
  domains !! p = Some d -> domains !! q = Some d' -> name d = name d' -> p = q.
Proof.
  intros Hp Hq Hn.
  apply (NoDup_lookup (name <$> domains) p q (name d) names_unique).
  - by rewrite list_lookup_fmap, Hp.
  - by rewrite list_lookup_fmap, Hq, Hn.
Qed.

(** The name at position [j] is not among the names before [j]. *)
Lemma name_fresh (j : nat) (dj : DomainData) :
  domains !! j = Some dj -> name dj ∉ name <$> take j domains.
Proof.
  intros Hj Hin. apply list_elem_of_fmap in Hin as (d & Hn & Hd).
  apply elem_of_take in Hd as (i & Hi & Hlt).
  pose proof (same_name_same_position j i dj d Hj Hi Hn). lia.
Qed.

Lemma link_step_linked (j : nat) (dj : DomainData) :
  domains !! j = Some dj ->
  link_step (domainMap_of domains) (linked (name <$> take j domains) <$> domains) j
  = linked (name <$> take (S j) domains) <$> domains.
Proof.
  intros Hj. rewrite (take_S_r domains j dj Hj), fmap_app. simpl.
  set (names := name <$> take j domains).
  unfold link_step. rewrite list_lookup_fmap, Hj. simpl.
  destruct (parent_name (name dj)) as [pn|] eqn:Hpn.
  2: { symmetry. apply linked_unchanged. intros d _ [Hc _]. congruence. }
  destruct (domainMap_of domains !! pn) as [p0|] eqn:Hm.
  2: { symmetry. apply linked_unchanged. intros d Hd [Hc _].
       apply (domainMap_of_None domains pn Hm d Hd). congruence. }
  destruct (domainMap_of_Some domains pn p0 Hm) as (d0 & Hd0 & Hn0).
  rewrite list_lookup_fmap, Hd0. simpl.
  assert (name dj ∉ filter (new_child d0) names) as Hfresh.
  { intros Hin. apply list_elem_of_filter in Hin as [_ Hin].
    by apply (name_fresh j dj Hj). }
  destruct (decide (name dj ∈ subdomains d0)) as [Hin|Hnotin].
  - rewrite bool_decide_eq_true_2 by (apply elem_of_app; by left). simpl.
    symmetry. apply linked_unchanged. intros d Hd [Hc Hnew].
    apply list_elem_of_lookup in Hd as [p Hp].
    assert (p = p0) as ->.
    { apply (same_name_same_position p p0 d d0 Hp Hd0). congruence. }
    assert (d = d0) as -> by congruence. done.
  - rewrite bool_decide_eq_false_2.
    2: { intros Hin. apply elem_of_app in Hin as [Hin|Hin]; done. }
    simpl. apply list_eq. intros p.
    destruct (decide (p = p0)) as [->|Hne].
    + rewrite list_lookup_insert_eq.
      2: { rewrite length_fmap. by apply lookup_lt_Some in Hd0. }
      rewrite list_lookup_fmap, Hd0. simpl. f_equal.
      rewrite linked_snoc. rewrite decide_True; [done|].
      split; [congruence|done].
    + rewrite list_lookup_insert_ne by done.
      rewrite !list_lookup_fmap.
      destruct (domains !! p) as [d|] eqn:Hp; [|done]. simpl. f_equal.
      rewrite linked_snoc. rewrite decide_False; [done|].
      intros [Hc _]. apply Hne.
      apply (same_name_same_position p p0 d d0 Hp Hd0). congruence.
Qed.

Lemma link_prefix (j : nat) :
  (j <= length domains)%nat ->
  foldl (link_step (domainMap_of domains)) domains (seq 0 j)
  = linked (name <$> take j domains) <$> domains.
Proof.
  induction j as [|j IH]; intros Hle.
  - simpl. symmetry. apply list_eq. intros i. rewrite list_lookup_fmap.
    destruct (domains !! i); [|done]. simpl. by rewrite linked_nil.
  - rewrite seq_S, foldl_snoc, IH by lia. simpl.
    destruct (lookup_lt_is_Some_2 domains j ltac:(lia)) as [dj Hj].
    by apply (link_step_linked j dj).
Qed.

(** The builder in closed form. *)
Lemma buildSubdomainRelations_linked :
  buildSubdomainRelations domains = linked (name <$> domains) <$> domains.
Proof.
  unfold buildSubdomainRelations. rewrite link_prefix by lia.
  by rewrite firstn_all.
Qed.
End LinkStep.

Lemma filter_none {A : Type} (P : A -> Prop) `{!forall x, Decision (P x)} (l : list A) :
  (forall x, x ∈ l -> ~ P x) -> filter P l = [].
Proof.
  intros Hno. destruct (filter P l) as [|x l'] eqn:Hf; [done|].
  assert (x ∈ filter P l) as Hx by (rewrite Hf; apply elem_of_cons; by left).
  apply list_elem_of_filter in Hx as [HP Hx]. by destruct (Hno x Hx).
Qed.

Lemma linked_linked (names : list string) (d : DomainData) :
  linked names (linked names d) = linked names d.
Proof.
  unfold linked at 1. simpl.
  rewrite (filter_none (new_child (linked names d)) names).
  - rewrite app_nil_r. by destruct d.
  - intros n Hn [Hp Hnot]. simpl in *. apply Hnot.
    destruct (decide (n ∈ subdomains d)) as [Hin|Hnotin].
    + apply elem_of_app. by left.
    + apply elem_of_app. right. apply list_elem_of_filter. by split.
Qed.

Lemma names_linked (names : list string) (domains : list DomainData) :
  name <$> (linked names <$> domains) = name <$> domains.
Proof.
  apply list_eq. intros i. rewrite !list_lookup_fmap.
  by destruct (domains !! i).
Qed.

(** C6. On records with unique names, the builder changes nothing but
    the subdomain lists, and the list of the record [d] becomes its old
    list followed by the names [n] of the records, in input order, whose
    parent name is the name of [d] and that the old list does not hold.
    The parent name of [n] exists when [n] contains ['.'] and is [n]
    without its first label.  Hence a child whose parent record exists is
    listed in it, and the name of a child whose parent name names no
    record is appended nowhere; the builder is a total function. *)
Theorem buildSubdomainRelations_links (domains : list DomainData) :
  NoDup (name <$> domains) ->
  let out := buildSubdomainRelations domains in
  length out = length domains
  /\ (forall (p : nat) d, domains !! p = Some d ->
        exists d', out !! p = Some d'
          /\ id_ d' = id_ d /\ name d' = name d /\ did d' = did d
          /\ note d' = note d /\ allowSubdomain d' = allowSubdomain d
          /\ owner d' = owner d
          /\ subdomains d'
             = subdomains d ++ filter (new_child d) (name <$> domains))
  /\ (forall n pn, parent_name n = Some pn <->
        exists label, has_char "." label = false
                      /\ n = (label +:+ "." +:+ pn)%string)
  /\ (forall n, parent_name n = None <-> Js.includes n "." = false)
  /\ (forall (c p : nat) child parent,
        domains !! c = Some child -> domains !! p = Some parent ->
        parent_name (name child) = Some (name parent) ->
        exists parent', out !! p = Some parent'
                        /\ name child ∈ subdomains parent')
  /\ (forall (c : nat) child,
        domains !! c = Some child ->
        (forall d, d ∈ domains -> parent_name (name child) <> Some (name d)) ->
        forall (p : nat) d d',
          domains !! p = Some d -> out !! p = Some d' ->
          name child ∈ subdomains d' -> name child ∈ subdomains d).
Proof.
  intros Hnd out. unfold out. rewrite (buildSubdomainRelations_linked domains Hnd).
  split; [apply length_fmap|].
  assert (forall (p : nat) d, domains !! p = Some d ->
            (linked (name <$> domains) <$> domains) !! p
            = Some (linked (name <$> domains) d)) as Hlk.
  { intros p d Hp. by rewrite list_lookup_fmap, Hp. }
  split; [|split; [|split; [|split]]].
  - intros p d Hp. exists (linked (name <$> domains) d).
    split; [by apply Hlk|]. by repeat split.
  - apply parent_name_Some.
  - intros n. rewrite includes_dot. apply parent_name_None.
  - intros c p child parent Hc Hp Hpar.
    exists (linked (name <$> domains) parent). split; [by apply Hlk|].
    simpl. destruct (decide (name child ∈ subdomains parent)) as [Hin|Hnotin].
    + apply elem_of_app. by left.
    + apply elem_of_app. right. apply list_elem_of_filter. split; [by split|].
      apply list_elem_of_fmap. exists child. split; [done|].
      apply list_elem_of_lookup. by exists c.
  - intros c child Hc Hnone p d d' Hp Hout Hin.
    rewrite (Hlk p d Hp) in Hout. injection Hout as <-. simpl in Hin.
    apply elem_of_app in Hin as [Hin|Hin]; [done|].
    apply list_elem_of_filter in Hin as [[Hpar _] _].
    exfalso. apply (Hnone d); [|done]. apply list_elem_of_lookup. by exists p.
Qed.

Lemma example_domains_unique : NoDup (name <$> example_domains).
Proof. compute_done. Qed.

Lemma buildSubdomainRelations_links_witness :
  length (buildSubdomainRelations example_domains) = 4%nat
  /\ subdomains <$> buildSubdomainRelations example_domains
     = [["b.a"]; ["c.b.a"]; []; []]%string.
Proof.
  destruct (buildSubdomainRelations_links example_domains example_domains_unique)
    as (Hlen & _).
  split; [exact Hlen|reflexivity].
Defined.

(** The parent is found by dropping the first label: on names written
    with the parent first, nothing is linked. *)
Lemma buildSubdomainRelations_parent_first_names :
  parent_name "a.b" = Some "b"%string
  /\ subdomains <$> buildSubdomainRelations
       [record_named "a" []; record_named "a.b" []; record_named "a.b.c" [];
        record_named "x.y" []]
     = [[]; []; []; []].
Proof. by split. Qed.

(** C7. On records with unique names, building the relationships of the
    builder's own output changes nothing: every subdomain list is as the
    first run left it, no entry is added again.  A list without
    duplicates before the first run has none after it. *)
Theorem buildSubdomainRelations_idempotent (domains : list DomainData) :
  NoDup (name <$> domains) ->
  buildSubdomainRelations (buildSubdomainRelations domains)
  = buildSubdomainRelations domains
  /\ (forall (p : nat) d d',
        domains !! p = Some d ->
        buildSubdomainRelations domains !! p = Some d' ->
        NoDup (subdomains d) -> NoDup (subdomains d')).
Proof.
  intros Hnd. rewrite (buildSubdomainRelations_linked domains Hnd). split.
  - rewrite buildSubdomainRelations_linked by (by rewrite names_linked).
    rewrite names_linked. apply list_eq. intros i. rewrite !list_lookup_fmap.
    destruct (domains !! i); [|done]. simpl. by rewrite linked_linked.
  - intros p d d' Hp Hout Hd. rewrite list_lookup_fmap, Hp in Hout.
    injection Hout as <-. simpl. apply NoDup_app. split; [done|]. split.
    + intros n Hn Hin. by apply list_elem_of_filter in Hin as [[_ Hnot] _].
    + by apply NoDup_filter.
Qed.

Lemma buildSubdomainRelations_idempotent_witness :
  subdomains <$> buildSubdomainRelations (buildSubdomainRelations example_domains)
  = [["b.a"]; ["c.b.a"]; []; []]%string.
Proof.
  destruct (buildSubdomainRelations_idempotent example_domains example_domains_unique)
    as [Heq _].
  rewrite Heq. reflexivity.
Defined.

(** ** Statistics *)

Lemma filter_split_length {A : Type} (f : A -> bool) (l : list A) :
  (length (filter (fun x => f x = false) l)
   + length (filter (fun x => f x = true) l))%nat = length l.
Proof.
  induction l as [|x l IH]; [done|].
  rewrite !filter_cons. destruct (f x) eqn:Hf.
  - rewrite decide_False, decide_True by done. simpl. lia.
  - rewrite decide_True, decide_False by done. simpl. lia.
Qed.

Lemma did_non_empty (s : string) :
  Js.truthy s && negb (String.eqb s "") = true <-> s <> EmptyString.
Proof.
  unfold Js.truthy. destruct (String.eqb_spec s EmptyString) as [->|Hne]; simpl.
  - split; [discriminate|done].
  - by split.
Qed.

(** C8. [getStatistics] counts: [total] is the number of records,
    [topLevel] those whose name has no ['.'], [subdomains] those whose
    name has one, [withDID] those whose DID is not empty,
    [allowingSubdomains] those that allow subdomains; the first two add
    up to [total].  On four records with counts 2, 3 and 1 the answer is
    [{total:4, topLevel:2, subdomains:2, withDID:3, allowingSubdomains:1}]. *)
Theorem getStatistics_counts (domains : list DomainData) :
  let s := getStatistics domains in
  Statistics.total s = length domains
  /\ Statistics.topLevel s
     = length (filter (fun d => has_char "." (name d) = false) domains)
  /\ Statistics.subdomains s
     = length (filter (fun d => has_char "." (name d) = true) domains)
  /\ Statistics.withDID s = length (filter (fun d => did d <> EmptyString) domains)
  /\ Statistics.allowingSubdomains s
     = length (filter (fun d => allowSubdomain d = true) domains)
  /\ (Statistics.topLevel s + Statistics.subdomains s)%nat = Statistics.total s
  /\ (length domains = 4%nat ->
      length (filter (fun d => has_char "." (name d) = true) domains) = 2%nat ->
      length (filter (fun d => did d <> EmptyString) domains) = 3%nat ->
      length (filter (fun d => allowSubdomain d = true) domains) = 1%nat ->
      s = Statistics.mk 4 2 2 3 1).
Proof.
  intros s.
  assert (Statistics.topLevel s
          = length (filter (fun d => has_char "." (name d) = false) domains)) as Htop.
  { unfold s. simpl. f_equal. apply list_filter_iff. intros d.
    rewrite includes_dot. by destruct (has_char "." (name d)). }
  assert (Statistics.subdomains s
          = length (filter (fun d => has_char "." (name d) = true) domains)) as Hsub.
  { unfold s. simpl. f_equal. apply list_filter_iff. intros d.
    by rewrite includes_dot. }
  assert (Statistics.withDID s
          = length (filter (fun d => did d <> EmptyString) domains)) as Hdid.
  { unfold s. simpl. f_equal. apply list_filter_iff. intros d. apply did_non_empty. }
  assert (Statistics.total s = length domains) as Htot by done.
  assert (Statistics.allowingSubdomains s
          = length (filter (fun d => allowSubdomain d = true) domains)) as Hal by done.
  pose proof (filter_split_length (fun d => has_char "." (name d)) domains) as Hsplit.
  split; [done|]. split; [done|]. split; [done|]. split; [done|].
  split; [done|]. split.
  - rewrite Htop, Hsub, Htot. exact Hsplit.
  - intros H4 H2 H3 H1. clearbody s. destruct s as [t tl sd wd al].
    simpl in *. f_equal; lia.
Qed.

Lemma getStatistics_counts_witness :
  getStatistics example_registry = Statistics.mk 4 2 2 3 1.
Proof.
  destruct (getStatistics_counts example_registry) as (_ & _ & _ & _ & _ & _ & H).
  apply H; reflexivity.
Defined.

(** ** Start-up and the run configuration *)

Lemma truthy_opt_true (s : option string) :
  Js.truthy_opt s = true <-> exists t, s = Some t /\ t <> EmptyString.
Proof.
  destruct s as [t|]; simpl.
  - unfold Js.truthy. destruct (String.eqb_spec t EmptyString) as [->|Hne]; simpl.
    + split; [discriminate|]. intros (t & [= <-] & Hne). done.
    + split; [|done]. intros _. by exists t.
  - split; [discriminate|]. intros (t & Ht & _). discriminate.
Qed.

(** C9, as the code has it.  [main] gives up, with exit status 1, exactly
    when [RPC_URL] or [CONTRACT_ADDRESS] is unset or empty.  Otherwise it
    proceeds, whatever the three numbers are: they go, or their defaults
    500, 5 and 3 go, into the configuration, and the constructor keeps
    the configuration as it is given.  With [retryAttempts < 1] the
    retrying caller throws the [Error] ['Multicall failed'] without
    calling the network. *)
Theorem main_startup_validation (env : Env) :
  (main_startup env = Exit 1 <->
     Js.truthy_opt (RPC_URL env) = false \/ Js.truthy_opt (CONTRACT_ADDRESS env) = false)
  /\ (forall url address,
        RPC_URL env = Some url -> CONTRACT_ADDRESS env = Some address ->
        url <> EmptyString -> address <> EmptyString ->
        exists indexer,
          main_startup env = Proceed indexer
          /\ config indexer
             = {| rpcUrl := url; contractAddress := address;
                  batchSize := default 500 (BATCH_SIZE env);
                  concurrency := default 5 (CONCURRENCY env);
                  retryAttempts := default 3 (RETRY_ATTEMPTS env) |})
  /\ (forall cfg, config (DIDIndexer_constructor cfg) = cfg)
  /\ (forall (E : Type) (staticCall : Z -> list string -> outcome E (list string))
             cfg calls,
        retryAttempts cfg < 1 ->
        returns (fun fuel => executeMulticallWithRetry staticCall fuel cfg calls)
                (Throw (JsError "Multicall failed"), [])).
Proof.
  split; [|split; [|split]].
  - unfold main_startup.
    destruct (Js.truthy_opt (RPC_URL env)), (Js.truthy_opt (CONTRACT_ADDRESS env));
      simpl; split; intros H; try done; try (by left); try (by right).
    by destruct H.
  - intros url address Hu Ha Hune Hane. unfold main_startup.
    assert (Js.truthy_opt (RPC_URL env) = true) as ->
      by (apply truthy_opt_true; by exists url).
    assert (Js.truthy_opt (CONTRACT_ADDRESS env) = true) as ->
      by (apply truthy_opt_true; by exists address).
    simpl. eexists. split; [done|]. simpl. by rewrite Hu, Ha.
  - done.
  - intros E staticCall cfg calls Hlt. split.
    + exists 1%nat. intros [|fuel'] Hf; [lia|].
      by apply executeMulticallWithRetry_loop_none.
    + intros [|fuel] o H; [done|]. unfold executeMulticallWithRetry in H.
      rewrite executeMulticallWithRetry_loop_none in H by done. congruence.
Qed.

Lemma main_startup_validation_witness :
  exists indexer,
    main_startup (example_env None (Some 10) None) = Proceed indexer
    /\ batchSize (config indexer) = 500
    /\ concurrency (config indexer) = 10
    /\ retryAttempts (config indexer) = 3.
Proof.
  destruct (main_startup_validation (example_env None (Some 10) None))
    as (_ & Hproceed & _).
  destruct (Hproceed _ _ eq_refl eq_refl ltac:(discriminate) ltac:(discriminate))
    as (indexer & Hrun & Hcfg).
  exists indexer. split; [exact Hrun|]. by rewrite Hcfg.
Defined.

(** A configuration outside the bounds is not refused: the run proceeds
    with it. *)
Lemma invalid_configuration_proceeds :
  main_startup (example_env (Some 0) (Some 0) (Some 0))
  = Proceed (DIDIndexer_constructor
               {| rpcUrl := "http://localhost:8545";
                  contractAddress := "0x5DA4Fa8e567d86e52eF8Da860de1be8f54cae97D";
                  batchSize := 0; concurrency := 0; retryAttempts := 0 |})
  /\ ~ (forall env indexer,
          main_startup env = Proceed indexer -> within_bounds (config indexer)).
Proof.
  split; [reflexivity|].
  intros H.
  destruct (H (example_env (Some 0) (Some 0) (Some 0)) _ eq_refl) as [Hb _].
  simpl in Hb. lia.
Qed.

(** * Further properties *)

(** ** Batches *)

Lemma returns_intro {A : Type} (run : nat -> option A) (a : A) (fuel0 : nat) :
  (forall fuel, (fuel0 <= fuel)%nat -> run fuel = Some a) ->
  (forall fuel, (fuel < fuel0)%nat -> run fuel = None) ->
  returns run a.
Proof.
  intros Hge Hlt. split; [by exists fuel0|].
  intros fuel a' H. destruct (decide (fuel0 <= fuel)%nat) as [Hle|Hgt].
  - rewrite (Hge fuel Hle) in H. congruence.
  - rewrite (Hlt fuel ltac:(lia)) in H. discriminate.
Qed.

Lemma chunks_lookup {T : Type} (c : nat) :
  (1 <= c)%nat ->
  forall n (l : list T) (k : nat),
    (length l <= n)%nat ->
    chunks n c l !! k
    = if decide (k * c < length l)%nat then Some (window c k l) else None.
Proof.
  intros Hc. induction n as [|n IH]; intros l k Hn.
  - destruct l; [|simpl in *; lia].
    destruct (decide (k * c < length (@nil T))%nat) as [Hk|]; [simpl in Hk; lia|done].
  - destruct l as [|x l].
    { destruct (decide (k * c < length (@nil T))%nat) as [Hk|]; [simpl in Hk; lia|done]. }
    destruct k as [|k].
    + destruct (decide (0 * c < length (x :: l))%nat) as [|Hk]; [done|simpl in Hk; lia].
    + change (chunks n c (drop c (x :: l)) !! k
              = if decide (S k * c < length (x :: l))%nat
                then Some (window c (S k) (x :: l)) else None).
      rewrite IH by (rewrite length_drop; simpl in *; lia).
      rewrite length_drop. unfold window. rewrite drop_drop.
      replace (c + k * c)%nat with (S k * c)%nat by lia.
      destruct (decide (k * c < length (x :: l) - c)%nat),
               (decide (S k * c < length (x :: l))%nat); try done; lia.
Qed.

Lemma chunks_length_lookup {T : Type} (c : nat) (items : list T) (k : nat) b :
  (1 <= c)%nat ->
  chunks (length items) c items !! k = Some b ->
  (k * c < length items)%nat /\ b = window c k items
  /\ length b = (c `min` (length items - k * c))%nat.
Proof.
  intros Hc H. rewrite chunks_lookup in H by lia.
  destruct (decide (k * c < length items)%nat) as [Hk|]; [|done].
  injection H as <-. split; [done|]. split; [done|].
  unfold window. by rewrite length_take, length_drop.
Qed.

(** X1. With a batch size of at least 1, [createBatchesFromArray] loses
    and reorders nothing: the batches concatenate to the input; batch [k]
    is the window [items[k*c .. k*c + c)]; no batch is empty or longer
    than the batch size, and every batch but the last is full. *)
Theorem createBatchesFromArray_chunks {T : Type} (items : list T) (c : Z) :
  1 <= c ->
  exists batches : list (list T),
    returns (fun fuel => createBatchesFromArray fuel items c) batches
    /\ concat batches = items
    /\ (forall k : nat,
          batches !! k
          = if decide (k * Z.to_nat c < length items)%nat
            then Some (window (Z.to_nat c) k items) else None)
    /\ (forall (k : nat) b, batches !! k = Some b ->
          (1 <= length b <= Z.to_nat c)%nat)
    /\ (forall (k : nat) b, batches !! k = Some b ->
          (S k < length batches)%nat -> length b = Z.to_nat c).
Proof.
  intros Hc. exists (chunks (length items) (Z.to_nat c) items).
  split; [by apply createBatchesFromArray_returns|].
  split; [apply concat_chunks; lia|].
  split; [intros k; apply chunks_lookup; lia|].
  split.
  - intros k b H. apply chunks_length_lookup in H as (Hk & _ & Hlen); lia.
  - intros k b H Hnext.
    apply chunks_length_lookup in H as (Hk & _ & Hlen); [|lia].
    destruct (lookup_lt_is_Some_2 _ _ Hnext) as [b' Hb'].
    apply chunks_length_lookup in Hb' as (Hk' & _ & _); lia.
Qed.

Lemma createBatchesFromArray_chunks_witness :
  returns (fun fuel => createBatchesFromArray fuel [1; 2; 3; 4; 5] 2)
          [[1; 2]; [3; 4]; [5]].
Proof.
  destruct (createBatchesFromArray_chunks [1; 2; 3; 4; 5] 2 ltac:(lia))
    as (batches & Hret & _).
  pose proof (proj2 Hret 4%nat [[1; 2]; [3; 4]; [5]] eq_refl) as Heq.
  by rewrite Heq.
Defined.

(** X2. With [batchSize >= 2], every batch of the details stage encodes
    to at most [batchSize] payloads: halving the batch size keeps the two
    calls per identifier within the budget of one aggregated call. *)
Theorem detail_batches_within_budget
    (encodeFunctionData : string -> string -> string)
    (cfg : IndexerConfig) (tokenIds : list string) :
  2 <= batchSize cfg ->
  exists batches : list (list string),
    returns (fun fuel => createBatchesFromArray fuel tokenIds (batchSize cfg / 2))
            batches
    /\ forall b, b ∈ batches ->
         Z.of_nat (length (encodeDetailCalls encodeFunctionData b)) <= batchSize cfg.
Proof.
  intros Hb.
  assert (1 <= batchSize cfg / 2) as Hc.
  { apply (Z.div_le_lower_bound (batchSize cfg) 2 1); lia. }
  exists (chunks (length tokenIds) (Z.to_nat (batchSize cfg / 2)) tokenIds).
  split; [by apply createBatchesFromArray_returns|].
  intros b Hin. apply list_elem_of_lookup in Hin as [k Hk].
  apply chunks_length_lookup in Hk as (_ & _ & Hlen); [|lia].
  rewrite encodeDetailCalls_flat_map, flat_map_pair_length.
  pose proof (Z.mul_div_le (batchSize cfg) 2 ltac:(lia)). lia.
Qed.

Lemma detail_batches_within_budget_witness :
  exists batches : list (list string),
    returns (fun fuel =>
               createBatchesFromArray fuel ["1"; "2"; "3"]%string
                 (batchSize (example_config 5 1 1) / 2))
            batches
    /\ batches = [["1"; "2"]; ["3"]]%string.
Proof.
  destruct (detail_batches_within_budget example_encode (example_config 5 1 1)
              ["1"; "2"; "3"]%string ltac:(simpl; lia)) as (batches & Hret & _).
  exists batches. split; [exact Hret|].
  symmetry. exact (proj2 Hret 3%nat [["1"; "2"]; ["3"]]%string eq_refl).
Defined.

(** ** Empty work, and a step that does not advance *)

Lemma createBatches_nothing (total c : Z) :
  total <= 0 -> returns (fun fuel => createBatches fuel total c) [].
Proof.
  intros Ht. apply (returns_intro _ _ 1).
  - intros [|fuel] Hf; [lia|]. unfold createBatches. simpl.
    by destruct (Z.ltb_spec 0 total); [lia|].
  - intros fuel Hf. by replace fuel with 0%nat by lia.
Qed.

Lemma createBatchesFromArray_nothing {T : Type} (c : Z) :
  returns (fun fuel => createBatchesFromArray fuel (@nil T) c) [].
Proof.
  apply (returns_intro _ _ 1).
  - by intros [|fuel] Hf; [lia|].
  - intros fuel Hf. by replace fuel with 0%nat by lia.
Qed.

Lemma concurrentMap_nothing {T R E : Type} (race : E -> list E -> E)
    (fn : T -> outcome E R) (c : Z) :
  returns (fun fuel => concurrentMap race fuel [] fn c) (Return [], []).
Proof.
  apply (returns_intro _ _ 1).
  - by intros [|fuel] Hf; [lia|].
  - intros fuel Hf. by replace fuel with 0%nat by lia.
Qed.

Lemma batchGetDomainDetails_nothing {E : Type} (race : E -> list E -> E)
    (worker : list string -> outcome E (list DomainData)) (cfg : IndexerConfig) :
  returns (fun fuel => batchGetDomainDetails race worker fuel cfg []) (Return []).
Proof.
  apply (returns_intro _ _ 1).
  - by intros [|fuel] Hf; [lia|].
  - intros fuel Hf. by replace fuel with 0%nat by lia.
Qed.

Lemma batchGetTokenIds_nothing {E : Type} (race : E -> list E -> E)
    (worker : Range -> outcome E (list string)) (cfg : IndexerConfig) (total : Z) :
  total <= 0 ->
  returns (fun fuel => batchGetTokenIds race worker fuel cfg total) (Return []).
Proof.
  intros Ht. apply (returns_intro _ _ 1).
  - intros [|fuel] Hf; [lia|]. unfold batchGetTokenIds, createBatches. simpl.
    by destruct (Z.ltb_spec 0 total); [lia|].
  - intros fuel Hf. by replace fuel with 0%nat by lia.
Qed.

(** X3. Empty work returns at once, whatever the step: [createBatches]
    for a total of at most 0, [createBatchesFromArray] and [concurrentMap]
    on an empty array, and the two stages on nothing to fetch return the
    empty list for every batch size and concurrency, 0 and negative values
    included, and the worker is not called. *)
Theorem empty_work_returns_at_once :
  (forall total c, total <= 0 ->
     returns (fun fuel => createBatches fuel total c) [])
  /\ (forall (T : Type) c,
        returns (fun fuel => createBatchesFromArray fuel (@nil T) c) [])
  /\ (forall (T R E : Type) (race : E -> list E -> E) (fn : T -> outcome E R) c,
        returns (fun fuel => concurrentMap race fuel [] fn c) (Return [], []))
  /\ (forall (E : Type) (race : E -> list E -> E)
             (worker : list string -> outcome E (list DomainData)) cfg,
        returns (fun fuel => batchGetDomainDetails race worker fuel cfg [])
                (Return []))
  /\ (forall (E : Type) (race : E -> list E -> E)
             (worker : Range -> outcome E (list string)) cfg total,
        total <= 0 ->
        returns (fun fuel => batchGetTokenIds race worker fuel cfg total)
                (Return [])).
Proof.
  split; [apply createBatches_nothing|].
  split; [intros T c; apply createBatchesFromArray_nothing|].
  split; [intros T R E race fn c; apply concurrentMap_nothing|].
  split; [intros E race worker cfg; apply batchGetDomainDetails_nothing|].
  intros E race worker cfg total. apply batchGetTokenIds_nothing.
Qed.

Lemma empty_work_returns_at_once_witness :
  returns (fun fuel =>
             batchGetTokenIds first_rejection example_tokenWorker fuel
               (example_config 0 0 0) 0)
          (Return []).
Proof.
  destruct empty_work_returns_at_once as (_ & _ & _ & _ & H).
  apply H. lia.
Defined.

Lemma createBatches_loop_diverges (total c : Z) :
  1 <= total -> c <= 0 ->
  forall fuel i batches,
    i <= 0 -> createBatches_loop fuel total c i batches = None.
Proof.
  intros Ht Hc. induction fuel as [|fuel IH]; intros i batches Hi; [done|].
  simpl. destruct (Z.ltb_spec i total); [|lia]. apply IH. lia.
Qed.

(** X4. With a batch size of at most 0 and a total of at least 1,
    [createBatches] does not terminate, and so neither does the
    identifier stage: the counter never passes the total. *)
Theorem createBatches_nonpositive_step_diverges (total c : Z) :
  1 <= total -> c <= 0 ->
  diverges (fun fuel => createBatches fuel total c)
  /\ forall (E : Type) (race : E -> list E -> E)
            (worker : Range -> outcome E (list string)) (cfg : IndexerConfig),
       batchSize cfg = c ->
       diverges (fun fuel => batchGetTokenIds race worker fuel cfg total).
Proof.
  intros Ht Hc. split.
  - intros fuel. by apply createBatches_loop_diverges.
  - intros E race worker cfg Hb fuel. unfold batchGetTokenIds, createBatches.
    rewrite Hb. by rewrite createBatches_loop_diverges.
Qed.

Lemma createBatches_nonpositive_step_diverges_witness :
  diverges (fun fuel => createBatches fuel 3 0).
Proof.
  apply (createBatches_nonpositive_step_diverges 3 0); lia.
Defined.

Lemma processed_total_ranges (total c : Z) :
  1 <= c ->
  forall (n k : nat) (i : Z),
    iterations_left total c i n -> (k <= n)%nat ->
    processed_total (take k (ranges_from total c n i))
    = Z.min (Z.of_nat k * c) (Z.max 0 (total - i)).
Proof.
  intros Hc. induction n as [|n IH]; intros k i Hn Hk.
  - replace k with 0%nat by lia. simpl. lia.
  - destruct k as [|k]; [simpl; lia|].
    pose proof (iterations_left_enter total c Hc i n Hn) as Hlt.
    apply (iterations_left_step total c) in Hn.
    change (range_len (mkRange i (Z.min (i + c) total))
            + processed_total (take k (ranges_from total c n (i + c)))
            = Z.min (Z.of_nat (S k) * c) (Z.max 0 (total - i))).
    rewrite (IH k (i + c) Hn ltac:(lia)). unfold range_len. simpl start. simpl end_.
    assert (0 <= Z.of_nat k * c) by nia.
    replace (Z.of_nat (S k) * c) with (Z.of_nat k * c + c) by lia.
    lia.
Qed.

(** X5. For [total >= 0] and a batch size of at least 1, the lengths of
    the ranges of [createBatches], which the identifier stage adds to
    [processed], add up to [total]; after the first [k] ranges they add up
    to [min (k * batchSize) total], never more than [total]. *)
Theorem createBatches_processed_total (total c : Z) :
  0 <= total -> 1 <= c ->
  exists batches : list Range,
    returns (fun fuel => createBatches fuel total c) batches
    /\ processed_total batches = total
    /\ forall k : nat, (k <= length batches)%nat ->
         processed_total (take k batches) = Z.min (Z.of_nat k * c) total.
Proof.
  intros Ht Hc. exists (ranges_from total c (chunk_count total c) 0).
  pose proof (chunk_count_iterations total c Hc Ht) as Hn.
  assert (forall k : nat, (k <= chunk_count total c)%nat ->
            processed_total (take k (ranges_from total c (chunk_count total c) 0))
            = Z.min (Z.of_nat k * c) total) as Hsum.
  { intros k Hk. rewrite (processed_total_ranges total c Hc _ k 0 Hn Hk). lia. }
  split; [by apply createBatches_returns_ranges|]. split.
  - rewrite <- (firstn_all (ranges_from total c (chunk_count total c) 0)).
    rewrite ranges_from_length, Hsum by lia.
    destruct (chunk_count total c) as [|n]; unfold iterations_left in Hn; lia.
  - intros k Hk. rewrite ranges_from_length in Hk. by apply Hsum.
Qed.

Lemma createBatches_processed_total_witness :
  exists batches : list Range,
    returns (fun fuel => createBatches fuel 10 3) batches
    /\ processed_total (take 2 batches) = 6
    /\ processed_total batches = 10.
Proof.
  destruct (createBatches_processed_total 10 3 ltac:(lia) ltac:(lia))
    as (batches & Hret & Hall & Hk).
  exists batches. split; [exact Hret|]. split; [|exact Hall].
  rewrite Hk; [reflexivity|].
  pose proof (proj2 Hret 5%nat [mkRange 0 3; mkRange 3 6; mkRange 6 9; mkRange 9 10]
                eq_refl) as Heq.
  rewrite <- Heq. simpl. lia.
Defined.

(** ** The retrying caller: backoff and payloads *)

Section RetryMoreFacts.
Context {E : Type}.
Variable staticCall : Z -> list string -> outcome E (list string).
Variable calls : list string.

Lemma total_sleep_app (t1 t2 : list event) :
  total_sleep (t1 ++ t2) = total_sleep t1 + total_sleep t2.
Proof.
  induction t1 as [|ev t1 IH]; [simpl; lia|]. destruct ev; simpl; lia.
Qed.

Lemma called_payloads_app (t1 t2 : list event) :
  called_payloads (t1 ++ t2) = called_payloads t1 ++ called_payloads t2.
Proof.
  induction t1 as [|ev t1 IH]; [done|]. destruct ev; simpl; by rewrite ?IH.
Qed.

Lemma total_sleep_retried (a : Z) (k : nat) :
  total_sleep (flat_map (retried_attempt calls) (seqZ a (Z.of_nat k)))
  = 500 * Z.of_nat k * (2 * a + Z.of_nat k - 1).
Proof.
  revert a. induction k as [|k IH]; intros a; [simpl; lia|].
  rewrite seqZ_cons by lia.
  replace (Z.pred (Z.of_nat (S k))) with (Z.of_nat k) by lia.
  cbn [flat_map retried_attempt app total_sleep]. rewrite IH.
  rewrite Nat2Z.inj_succ. unfold Z.succ. ring.
Qed.

Lemma called_payloads_retried (a : Z) (k : nat) :
  called_payloads (flat_map (retried_attempt calls) (seqZ a (Z.of_nat k)))
  = replicate k calls.
Proof.
  revert a. induction k as [|k IH]; intros a; [done|].
  rewrite seqZ_cons by lia.
  replace (Z.pred (Z.of_nat (S k))) with (Z.of_nat k) by lia.
  cbn [flat_map retried_attempt app called_payloads]. by rewrite IH.
Qed.

(** The run of the caller, for at least one attempt allowed. *)
Lemma executeMulticallWithRetry_run (cfg : IndexerConfig) :
  1 <= retryAttempts cfg ->
  exists (n : Z) (res : outcome (thrown E) (list string)),
    returns (fun fuel => executeMulticallWithRetry staticCall fuel cfg calls)
            (res, flat_map (retried_attempt calls) (seqZ 1 (n - 1))
                  ++ last_attempt calls n res)
    /\ 1 <= n <= retryAttempts cfg
    /\ (forall k, 1 <= k < n -> exists e, staticCall k calls = Throw e)
    /\ match staticCall n calls with
       | Return results => res = Return results
       | Throw e => n = retryAttempts cfg /\ res = Throw (Cause e)
       end.
Proof.
  intros Hmax.
  set (fuel0 := S (Z.to_nat (retryAttempts cfg))).
  destruct (executeMulticallWithRetry_loop_spec staticCall (retryAttempts cfg) calls
              fuel0 1 [] Hmax ltac:(lia)) as (n & res & Hrun & Hn & Hfail & Hlast).
  simpl app in Hrun. exists n, res.
  split; [|split; [lia|split; [exact Hfail|exact Hlast]]]. split.
  - exists fuel0. intros fuel' Hf. unfold executeMulticallWithRetry.
    by apply (executeMulticallWithRetry_loop_fuel_mono staticCall _ calls fuel0).
  - intros fuel o H. unfold executeMulticallWithRetry in H.
    apply (executeMulticallWithRetry_loop_fuel_mono staticCall _ calls _
             (fuel `max` fuel0)%nat) in H; [|lia].
    apply (executeMulticallWithRetry_loop_fuel_mono staticCall _ calls _
             (fuel `max` fuel0)%nat) in Hrun; [|lia].
    congruence.
Qed.

Lemma retry_trace_facts (n : Z) (res : outcome (thrown E) (list string)) :
  1 <= n ->
  let trace := flat_map (retried_attempt calls) (seqZ 1 (n - 1))
               ++ last_attempt calls n res in
  count_calls trace = n
  /\ total_sleep trace = 500 * (n - 1) * n
  /\ called_payloads trace = replicate (Z.to_nat n) calls.
Proof.
  intros Hn trace. unfold trace.
  rewrite count_calls_app, total_sleep_app, called_payloads_app.
  rewrite count_calls_retried by lia.
  rewrite <- (Z2Nat.id (n - 1)) by lia.
  rewrite total_sleep_retried, called_payloads_retried.
  rewrite Z2Nat.id by lia.
  replace (Z.to_nat n) with (Z.to_nat (n - 1) + 1)%nat by lia.
  rewrite replicate_add.
  destruct res; simpl; repeat split; lia || done.
Qed.
End RetryMoreFacts.

(** X6. With [retryAttempts >= 1], a run of the retrying caller that makes
    [n] aggregated calls sleeps [500 * (n - 1) * n] milliseconds in all,
    at most [500 * (retryAttempts - 1) * retryAttempts]; every attempt
    sends the same payload list; when every attempt fails, exactly
    [retryAttempts] calls are made. *)
Theorem executeMulticallWithRetry_backoff {E : Type}
    (staticCall : Z -> list string -> outcome E (list string))
    (cfg : IndexerConfig) (calls : list string) :
  1 <= retryAttempts cfg ->
  exists (n : Z) (res : outcome (thrown E) (list string)) (trace : list event),
    returns (fun fuel => executeMulticallWithRetry staticCall fuel cfg calls)
            (res, trace)
    /\ count_calls trace = n
    /\ 1 <= n <= retryAttempts cfg
    /\ total_sleep trace = 500 * (n - 1) * n
    /\ total_sleep trace <= 500 * (retryAttempts cfg - 1) * retryAttempts cfg
    /\ called_payloads trace = replicate (Z.to_nat n) calls
    /\ ((forall k, 1 <= k <= retryAttempts cfg ->
           exists e, staticCall k calls = Throw e) ->
        n = retryAttempts cfg).
Proof.
  intros Hmax.
  destruct (executeMulticallWithRetry_run staticCall calls cfg Hmax)
    as (n & res & Hret & Hn & Hfail & Hlast).
  destruct (retry_trace_facts calls n res ltac:(lia)) as (Hc & Hs & Hp).
  eexists n, res, _. split; [exact Hret|].
  split; [done|]. split; [done|]. split; [done|]. split; [|split; [done|]].
  - rewrite Hs. nia.
  - intros Hall. destruct (Hall n ltac:(lia)) as [e He].
    rewrite He in Hlast. tauto.
Qed.

Lemma executeMulticallWithRetry_backoff_witness :
  exists trace : list event,
    returns (fun fuel =>
               executeMulticallWithRetry always_timeout fuel (config_with_retries 3)
                 ["0xab"]%string)
            (Throw (Cause "timeout"%string), trace)
    /\ count_calls trace = 3 /\ total_sleep trace = 3000.
Proof.
  destruct (executeMulticallWithRetry_backoff always_timeout (config_with_retries 3)
              ["0xab"]%string ltac:(simpl; lia))
    as (n & res & trace & Hret & _).
  pose proof (proj2 Hret 4%nat _ eq_refl) as Heq.
  injection Heq as Hres Htrace. subst res trace.
  eexists. split; [exact Hret|]. by split.
Defined.

(** X7. The caller throws its own [Error] exactly when [retryAttempts] is
    below 1, and then the message is ['Multicall failed'] and the network
    has not been called; with at least one attempt allowed, what it throws
    is always the failure of the network. *)
Theorem generic_error_iff_no_attempt {E : Type}
    (staticCall : Z -> list string -> outcome E (list string))
    (cfg : IndexerConfig) (calls : list string) :
  ((exists fuel message trace,
      executeMulticallWithRetry staticCall fuel cfg calls
      = Some (Throw (JsError message), trace))
   <-> retryAttempts cfg < 1)
  /\ (forall fuel message trace,
        executeMulticallWithRetry staticCall fuel cfg calls
        = Some (Throw (JsError message), trace) ->
        message = "Multicall failed"%string /\ trace = []).
Proof.
  assert (forall fuel message trace,
            executeMulticallWithRetry staticCall fuel cfg calls
            = Some (Throw (JsError message), trace) ->
            retryAttempts cfg < 1) as Hlt.
  { intros fuel message trace H.
    destruct (Z.lt_ge_cases (retryAttempts cfg) 1) as [|Hmax]; [done|].
    destruct (executeMulticallWithRetry_run staticCall calls cfg Hmax)
      as (n & res & Hret & _ & _ & Hlast).
    apply (proj2 Hret) in H. injection H as Hres _.
    destruct (staticCall n calls); [congruence|]. destruct Hlast. congruence. }
  split; [split|].
  - intros (fuel & message & trace & H). by apply (Hlt fuel message trace).
  - intros H. exists 1%nat, "Multicall failed"%string, [].
    by apply executeMulticallWithRetry_loop_none.
  - intros fuel message trace H. pose proof (Hlt _ _ _ H) as Hno.
    destruct fuel as [|fuel]; [done|]. unfold executeMulticallWithRetry in H.
    rewrite executeMulticallWithRetry_loop_none in H by done.
    by injection H as <- <-.
Qed.

(** ** Detail retrieval through the retrying caller *)

Section DetailsCallFacts.
Context {E : Type}.
Variable encodeFunctionData : string -> string -> string.
Variable decodeMetadata : option string -> outcome E ContractMetadata.t.
Variable decodeOwner : option string -> outcome E string.
Variable staticCall : Z -> list string -> outcome E (list string).

(** The run of [multicallGetDetails], from the run of the caller on its
    payloads. *)
Lemma multicallGetDetails_returns (cfg : IndexerConfig) (tokenIds : list string)
    (res : outcome (thrown E) (list string)) (trace : list event) :
  returns (fun fuel =>
             executeMulticallWithRetry staticCall fuel cfg
               (encodeDetailCalls encodeFunctionData tokenIds))
          (res, trace) ->
  returns (fun fuel =>
             multicallGetDetails encodeFunctionData decodeMetadata decodeOwner
               staticCall fuel cfg tokenIds)
          (match res with
           | Return results => decodeDetails decodeMetadata decodeOwner tokenIds results
           | Throw e => Throw e
           end).
Proof.
  intros [[fuel0 Hrun] Huniq]. split.
  - exists fuel0. intros fuel Hf. unfold multicallGetDetails.
    rewrite Hrun by done. by destruct res.
  - intros fuel o H. unfold multicallGetDetails in H.
    destruct (executeMulticallWithRetry staticCall fuel cfg _)
      as [[res' trace']|] eqn:Hcall; [|done].
    apply Huniq in Hcall. injection Hcall as -> ->.
    destruct res; congruence.
Qed.

(** With at least one attempt allowed, [multicallGetDetails] returns: the
    decoding of the results of the attempt that succeeds, or the failure
    of the last attempt. *)
Lemma multicallGetDetails_run (cfg : IndexerConfig) (tokenIds : list string) :
  1 <= retryAttempts cfg ->
  let calls := encodeDetailCalls encodeFunctionData tokenIds in
  exists (n : Z) (res : outcome (thrown E) (list string)) (trace : list event),
    returns (fun fuel => executeMulticallWithRetry staticCall fuel cfg calls)
            (res, trace)
    /\ 1 <= n <= retryAttempts cfg
    /\ count_calls trace = n
    /\ called_payloads trace = replicate (Z.to_nat n) calls
    /\ (forall k, 1 <= k < n -> exists e, staticCall k calls = Throw e)
    /\ returns (fun fuel =>
                  multicallGetDetails encodeFunctionData decodeMetadata decodeOwner
                    staticCall fuel cfg tokenIds)
               (match staticCall n calls with
                | Return results =>
                    decodeDetails decodeMetadata decodeOwner tokenIds results
                | Throw e => Throw (Cause e)
                end).
Proof.
  intros Hmax calls.
  destruct (executeMulticallWithRetry_run staticCall calls cfg Hmax)
    as (n & res & Hret & Hn & Hfail & Hlast).
  destruct (retry_trace_facts calls n res ltac:(lia)) as (Hc & _ & Hp).
  eexists n, res, _. split; [exact Hret|].
  split; [done|]. split; [done|]. split; [done|]. split; [done|].
  pose proof (multicallGetDetails_returns cfg tokenIds res _ Hret) as Hmgd.
  destruct (staticCall n calls) as [results|e].
  - by rewrite Hlast in Hmgd.
  - destruct Hlast as [_ Hres]. by rewrite Hres in Hmgd.
Qed.
End DetailsCallFacts.

(** C5. For a batch of [k] identifiers, the payload list has length [2k],
    with the metadata call of the [i]-th identifier at [2i] and its owner
    call at [2i + 1].  Decoding reads [results[2i]] as metadata and
    [results[2i + 1]] as owner: when it returns, it returns one record per
    identifier, in identifier order, the [i]-th with the [i]-th identifier
    as its id, the decoded metadata, the decoded owner in lower case and
    no subdomain; and it returns whenever the two results of every
    identifier decode.  [multicallGetDetails] sends these payloads through
    the retrying caller and returns what decoding makes of its results:
    whenever the caller returns results, [multicallGetDetails] returns
    their decoding, and whenever the caller fails, it fails alike; with
    at least one attempt allowed it does return, having sent the payload
    list at each of its attempts. *)
Theorem multicallGetDetails_interleaving {E : Type}
    (encodeFunctionData : string -> string -> string)
    (decodeMetadata : option string -> outcome E ContractMetadata.t)
    (decodeOwner : option string -> outcome E string)
    (tokenIds : list string) :
  let calls := encodeDetailCalls encodeFunctionData tokenIds in
  length calls = (2 * length tokenIds)%nat
  /\ (forall (i : nat) t, tokenIds !! i = Some t ->
        calls !! (i * 2)%nat = Some (encodeFunctionData "getMetadata(uint256)" t)
        /\ calls !! (i * 2 + 1)%nat = Some (encodeFunctionData "ownerOf(uint256)" t))
  /\ (forall results domains,
        decodeDetails decodeMetadata decodeOwner tokenIds results = Return domains ->
        length domains = length tokenIds
        /\ forall (i : nat) t, tokenIds !! i = Some t ->
             exists d metadata owner_,
               domains !! i = Some d
               /\ decodeMetadata (results !! (i * 2)%nat) = Return metadata
               /\ decodeOwner (results !! (i * 2 + 1)%nat) = Return owner_
               /\ d = record_of t metadata owner_
               /\ id_ d = t
               /\ owner d = Js.toLowerCase owner_
               /\ has_upper (owner d) = false
               /\ subdomains d = [])
  /\ (forall results,
        (forall i, (i < length tokenIds)%nat ->
           (exists metadata, decodeMetadata (results !! (i * 2)%nat) = Return metadata)
           /\ (exists owner_, decodeOwner (results !! (i * 2 + 1)%nat) = Return owner_)) ->
        exists domains,
          decodeDetails decodeMetadata decodeOwner tokenIds results = Return domains)
  /\ (forall staticCall fuel cfg domains,
        multicallGetDetails encodeFunctionData decodeMetadata decodeOwner staticCall
          fuel cfg tokenIds = Some (Return domains) ->
        exists results trace,
          executeMulticallWithRetry staticCall fuel cfg calls = Some (Return results, trace)
          /\ decodeDetails decodeMetadata decodeOwner tokenIds results = Return domains)
  /\ (forall staticCall cfg results trace,
        returns (fun fuel => executeMulticallWithRetry staticCall fuel cfg calls)
                (Return results, trace) ->
        returns (fun fuel =>
                   multicallGetDetails encodeFunctionData decodeMetadata decodeOwner
                     staticCall fuel cfg tokenIds)
                (decodeDetails decodeMetadata decodeOwner tokenIds results))
  /\ (forall staticCall cfg e trace,
        returns (fun fuel => executeMulticallWithRetry staticCall fuel cfg calls)
                (Throw e, trace) ->
        returns (fun fuel =>
                   multicallGetDetails encodeFunctionData decodeMetadata decodeOwner
                     staticCall fuel cfg tokenIds)
                (Throw e))
  /\ (forall staticCall cfg,
        1 <= retryAttempts cfg ->
        exists (n : Z) (res : outcome (thrown E) (list string)) (trace : list event),
          returns (fun fuel => executeMulticallWithRetry staticCall fuel cfg calls)
                  (res, trace)
          /\ 1 <= n <= retryAttempts cfg
          /\ count_calls trace = n
          /\ called_payloads trace = replicate (Z.to_nat n) calls
          /\ (forall k, 1 <= k < n -> exists e, staticCall k calls = Throw e)
          /\ returns (fun fuel =>
                        multicallGetDetails encodeFunctionData decodeMetadata
                          decodeOwner staticCall fuel cfg tokenIds)
                     (match staticCall n calls with
                      | Return results =>
                          decodeDetails decodeMetadata decodeOwner tokenIds results
                      | Throw e => Throw (Cause e)
                      end)).
Proof.
  intros calls. unfold calls.
  split; [rewrite encodeDetailCalls_flat_map; apply flat_map_pair_length|].
  split.
  { rewrite encodeDetailCalls_flat_map. intros i t. apply flat_map_pair_lookup. }
  split; [|split; [|split; [|split; [|split]]]].
  - intros results domains H. unfold decodeDetails in H.
    apply decodeDetails_loop_Return in H as (recs & -> & Hlen & Hrec).
    split; [done|]. intros i t Hi.
    destruct (Hrec i t Hi) as (m & o & Hm & Ho & Hd).
    exists (record_of t m o), m, o. simpl in *.
    repeat split; try done. apply toLowerCase_no_upper.
  - intros results Hok. apply decodeDetails_loop_total. by intros j Hj; apply Hok.
  - intros staticCall fuel cfg domains H. unfold multicallGetDetails in H.
    destruct (executeMulticallWithRetry staticCall fuel cfg _) as [[[results|e] trace]|];
      [|done|done].
    exists results, trace. split; [done|]. congruence.
  - intros staticCall cfg results trace Hret.
    apply (multicallGetDetails_returns encodeFunctionData decodeMetadata decodeOwner
             staticCall cfg tokenIds (Return results) trace Hret).
  - intros staticCall cfg e trace Hret.
    apply (multicallGetDetails_returns encodeFunctionData decodeMetadata decodeOwner
             staticCall cfg tokenIds (Throw e) trace Hret).
  - intros staticCall cfg Hmax.
    apply (multicallGetDetails_run encodeFunctionData decodeMetadata decodeOwner
             staticCall cfg tokenIds Hmax).
Qed.

Lemma multicallGetDetails_interleaving_witness :
  exists domains,
    returns (fun fuel =>
               multicallGetDetails example_encode example_decodeMetadata
                 example_decodeOwner example_details_call fuel
                 (config_with_retries 3) ["7"; "9"]%string)
            (Return domains)
    /\ decodeDetails example_decodeMetadata example_decodeOwner ["7"; "9"]%string
         ["a.com"; "0xAB"; "b.a.com"; "0xCd"]%string = Return domains
    /\ map id_ domains = ["7"; "9"]%string
    /\ map name domains = ["a.com"; "b.a.com"]%string
    /\ map owner domains = ["0xab"; "0xcd"]%string.
Proof.
  destruct (multicallGetDetails_interleaving example_encode example_decodeMetadata
              example_decodeOwner ["7"; "9"]%string)
    as (_ & _ & _ & Htotal & _ & _ & _ & Hrun).
  destruct (Htotal ["a.com"; "0xAB"; "b.a.com"; "0xCd"]%string) as [domains Hd].
  { intros [|[|i]] Hi; simpl in *; try lia; split; eexists; reflexivity. }
  destruct (Hrun example_details_call (config_with_retries 3) ltac:(simpl; lia))
    as (n & res & trace & _ & _ & _ & _ & _ & Hret).
  exists domains. unfold example_details_call in Hret. rewrite Hd in Hret.
  split; [exact Hret|]. split; [exact Hd|].
  vm_compute in Hd. injection Hd as <-. by repeat split.
Defined.

(** ** Identifier retrieval *)

Section TokenIdsFacts.
Context {E : Type}.
Variable encodeTokenByIndex : Z -> string.
Variable decodeTokenByIndex : string -> outcome E string.
Variable staticCall : Z -> list string -> outcome E (list string).

Lemma encodeTokenCalls_loop_spec (end_index : Z) :
  forall fuel i calls,
    Z.max 0 (end_index - i) < Z.of_nat fuel ->
    encodeTokenCalls_loop encodeTokenByIndex fuel end_index i calls
    = Some (calls ++ (encodeTokenByIndex <$> seqZ i (end_index - i))).
Proof.
  induction fuel as [|fuel IH]; intros i calls Hf; [lia|].
  simpl. destruct (Z.ltb_spec i end_index) as [Hlt|Hge].
  - rewrite IH by lia. rewrite (seqZ_cons i (end_index - i)) by lia.
    rewrite fmap_cons, <- app_assoc. simpl.
    replace (Z.succ i) with (i + 1) by lia.
    by replace (Z.pred (end_index - i)) with (end_index - (i + 1)) by lia.
  - rewrite seqZ_nil by lia. by rewrite app_nil_r.
Qed.

Lemma encodeTokenCalls_loop_fuel_mono (end_index : Z) fuel fuel' i calls out :
  encodeTokenCalls_loop encodeTokenByIndex fuel end_index i calls = Some out ->
  (fuel <= fuel')%nat ->
  encodeTokenCalls_loop encodeTokenByIndex fuel' end_index i calls = Some out.
Proof.
  revert fuel' i calls. induction fuel as [|fuel IH]; intros fuel' i calls H Hle.
  - discriminate.
  - destruct fuel' as [|fuel']; [lia|]. simpl in *.
    destruct (i <? end_index); [|done]. apply IH; [done|lia].
Qed.

Lemma decodeTokenIds_loop_Return (results : list string) :
  forall tokenIds out,
    decodeTokenIds_loop decodeTokenByIndex results tokenIds = Return out <->
    exists ids, out = tokenIds ++ ids
                /\ Forall2 (fun r tokenId => decodeTokenByIndex r = Return tokenId)
                           results ids.
Proof.
  induction results as [|r results IH]; intros tokenIds out; simpl.
  - split.
    + intros [= <-]. exists []. by rewrite app_nil_r.
    + intros (ids & -> & Hall). apply Forall2_nil_inv_l in Hall as ->.
      by rewrite app_nil_r.
  - destruct (decodeTokenByIndex r) as [tokenId|e] eqn:Hr.
    + rewrite IH. split.
      * intros (ids & -> & Hall). exists (tokenId :: ids).
        split; [by rewrite <- app_assoc|]. by constructor.
      * intros (ids & -> & Hall).
        apply Forall2_cons_inv_l in Hall as (tokenId' & ids' & Hd & Hall & ->).
        exists ids'. split; [|done]. rewrite <- app_assoc. simpl. congruence.
    + split; [done|]. intros (ids & _ & Hall).
      apply Forall2_cons_inv_l in Hall as (tokenId' & ids' & Hd & _). congruence.
Qed.

(** The run of [multicallTokenByIndex], from the run of the caller on its
    payloads. *)
Lemma multicallTokenByIndex_returns (cfg : IndexerConfig) (start_index end_index : Z)
    (res : outcome (thrown E) (list string)) (trace : list event) :
  returns (fun fuel =>
             executeMulticallWithRetry staticCall fuel cfg
               (encodeTokenByIndex <$> seqZ start_index (end_index - start_index)))
          (res, trace) ->
  returns (fun fuel =>
             multicallTokenByIndex encodeTokenByIndex decodeTokenByIndex staticCall
               fuel cfg start_index end_index)
          (match res with
           | Return results => decodeTokenIds decodeTokenByIndex results
           | Throw e => Throw e
           end, trace).
Proof.
  intros [[fuel0 Hrun] Huniq].
  set (fuel1 := S (Z.to_nat (end_index - start_index))).
  assert (forall fuel, (fuel1 <= fuel)%nat ->
            encodeTokenCalls_loop encodeTokenByIndex fuel end_index start_index []
            = Some (encodeTokenByIndex <$> seqZ start_index (end_index - start_index)))
    as Henc.
  { intros fuel Hf. rewrite encodeTokenCalls_loop_spec by lia. done. }
  split.
  - exists (fuel0 `max` fuel1)%nat. intros fuel Hf. unfold multicallTokenByIndex.
    rewrite Henc by lia. rewrite Hrun by lia. by destruct res.
  - intros fuel o H. unfold multicallTokenByIndex in H.
    destruct (encodeTokenCalls_loop encodeTokenByIndex fuel end_index start_index [])
      as [calls|] eqn:Hcalls; [|done].
    apply (encodeTokenCalls_loop_fuel_mono _ _ (fuel `max` fuel1)%nat) in Hcalls; [|lia].
    rewrite Henc in Hcalls by lia. injection Hcalls as <-.
    destruct (executeMulticallWithRetry staticCall fuel cfg _)
      as [[res' trace']|] eqn:Hcall; [|done].
    apply Huniq in Hcall. injection Hcall as -> ->.
    destruct res; congruence.
Qed.
End TokenIdsFacts.

(** X8. With [retryAttempts >= 1], [multicallTokenByIndex(start, end)]
    sends the payloads of the indices [start, ..., end - 1], in order and
    the same at every attempt; it makes at least one aggregated call, also
    when the range is empty.  When it returns, the network answered the
    last attempt, and the identifiers are the decoded results, one per
    result and in order: their number is the number of results returned,
    which is not compared with [end - start]. *)
Theorem multicallTokenByIndex_results {E : Type}
    (encodeTokenByIndex : Z -> string)
    (decodeTokenByIndex : string -> outcome E string)
    (staticCall : Z -> list string -> outcome E (list string))
    (cfg : IndexerConfig) (start_index end_index : Z) :
  1 <= retryAttempts cfg ->
  let calls := encodeTokenByIndex <$> seqZ start_index (end_index - start_index) in
  exists (o : outcome (thrown E) (list string)) (trace : list event),
    returns (fun fuel =>
               multicallTokenByIndex encodeTokenByIndex decodeTokenByIndex staticCall
                 fuel cfg start_index end_index)
            (o, trace)
    /\ length calls = Z.to_nat (end_index - start_index)
    /\ 1 <= count_calls trace <= retryAttempts cfg
    /\ called_payloads trace = replicate (Z.to_nat (count_calls trace)) calls
    /\ forall tokenIds, o = Return tokenIds ->
         exists results,
           staticCall (count_calls trace) calls = Return results
           /\ Forall2 (fun r tokenId => decodeTokenByIndex r = Return tokenId)
                      results tokenIds
           /\ length tokenIds = length results.
Proof.
  intros Hmax calls.
  destruct (executeMulticallWithRetry_run staticCall calls cfg Hmax)
    as (n & res & Hret & Hn & _ & Hlast).
  destruct (retry_trace_facts calls n res ltac:(lia)) as (Hc & _ & Hp).
  eexists _, _. split.
  { apply (multicallTokenByIndex_returns encodeTokenByIndex decodeTokenByIndex
             staticCall cfg start_index end_index res _ Hret). }
  split; [unfold calls; by rewrite length_fmap, length_seqZ|].
  rewrite Hc. split; [lia|]. split; [done|].
  intros tokenIds Ho. destruct res as [results|e]; [|done].
  exists results. destruct (staticCall n calls) as [results'|e]; [|by destruct Hlast].
  injection Hlast as <-. split; [done|].
  apply decodeTokenIds_loop_Return in Ho as (ids & -> & Hall). simpl.
  split; [done|]. symmetry. by apply Forall2_length in Hall.
Qed.

Lemma multicallTokenByIndex_results_witness :
  returns (fun fuel =>
             multicallTokenByIndex example_encodeIndex example_decodeId echo_call
               fuel (example_config 2 1 1) 5 7)
          (Return ["idx5"; "idx6"]%string, [EvCall 1 ["idx5"; "idx6"]%string]).
Proof.
  destruct (multicallTokenByIndex_results example_encodeIndex example_decodeId
              echo_call (example_config 2 1 1) 5 7 ltac:(simpl; lia))
    as (o & trace & Hret & _).
  pose proof (proj2 Hret 3%nat _ eq_refl) as Heq.
  injection Heq as Ho Htrace. subst o trace. exact Hret.
Defined.

(** ** Detail retrieval and the number of results *)

Section DetailsLengthFacts.
Context {E : Type}.
Variable decodeMetadata : option string -> outcome E ContractMetadata.t.
Variable decodeOwner : option string -> outcome E string.

Lemma decodeDetails_loop_surplus (results surplus : list string) :
  forall todo i domains,
    (2 * (i + length todo) <= length results)%nat ->
    decodeDetails_loop decodeMetadata decodeOwner i todo (results ++ surplus) domains
    = decodeDetails_loop decodeMetadata decodeOwner i todo results domains.
Proof.
  induction todo as [|t todo IH]; intros i domains Hlen; [done|].
  simpl in *. rewrite !lookup_app_l by lia.
  destruct (decodeMetadata (results !! (i * 2)%nat)); [|done].
  destruct (decodeOwner (results !! (i * 2 + 1)%nat)); [|done].
  apply IH. lia.
Qed.

Lemma decodeDetails_loop_short (results : list string) (em eo : E) :
  decodeMetadata None = Throw em -> decodeOwner None = Throw eo ->
  forall todo i domains,
    (2 * i <= length results < 2 * (i + length todo))%nat ->
    exists e, decodeDetails_loop decodeMetadata decodeOwner i todo results domains
              = Throw (Cause e).
Proof.
  intros Hm Ho. induction todo as [|t todo IH]; intros i domains Hlen.
  - simpl in Hlen. lia.
  - simpl.
    destruct (results !! (i * 2)%nat) as [rm|] eqn:Hrm.
    2: { rewrite Hm. by exists em. }
    destruct (decodeMetadata (Some rm)) as [metadata|e]; [|by exists e].
    destruct (results !! (i * 2 + 1)%nat) as [ro|] eqn:Hro.
    2: { rewrite Ho. by exists eo. }
    destruct (decodeOwner (Some ro)) as [owner_|e]; [|by exists e].
    apply IH. apply lookup_lt_Some in Hro. simpl in Hlen. lia.
Qed.
End DetailsLengthFacts.

(** X9. Decoding a details batch reads the first [2k] results only:
    results past them are ignored.  With fewer than [2k] results, and a
    coder that rejects [undefined], decoding throws: a short answer is
    never turned into records. *)
Theorem decodeDetails_results_length {E : Type}
    (decodeMetadata : option string -> outcome E ContractMetadata.t)
    (decodeOwner : option string -> outcome E string)
    (tokenIds results : list string) :
  (forall surplus,
     (2 * length tokenIds <= length results)%nat ->
     decodeDetails decodeMetadata decodeOwner tokenIds (results ++ surplus)
     = decodeDetails decodeMetadata decodeOwner tokenIds results)
  /\ (forall em eo,
        decodeMetadata None = Throw em -> decodeOwner None = Throw eo ->
        (length results < 2 * length tokenIds)%nat ->
        exists e, decodeDetails decodeMetadata decodeOwner tokenIds results
                  = Throw (Cause e)).
Proof.
  split.
  - intros surplus Hlen. apply decodeDetails_loop_surplus. simpl. lia.
  - intros em eo Hm Ho Hlen.
    apply (decodeDetails_loop_short decodeMetadata decodeOwner results em eo Hm Ho).
    simpl. lia.
Qed.

Lemma decodeDetails_results_length_witness :
  decodeDetails example_decodeMetadata example_decodeOwner ["7"; "9"]%string
    ["a.com"; "0xAB"; "b.a.com"]%string
  = Throw (Cause "undefined"%string).
Proof.
  destruct (decodeDetails_results_length example_decodeMetadata example_decodeOwner
              ["7"; "9"]%string ["a.com"; "0xAB"; "b.a.com"]%string) as [_ Hshort].
  destruct (Hshort _ _ eq_refl eq_refl ltac:(simpl; lia)) as [e He].
  rewrite He. vm_compute in He. by injection He as <-.
Defined.

(** ** The two stages and the pipeline *)

Lemma returns_ext {A : Type} (run run' : nat -> option A) (a : A) :
  (forall fuel, run fuel = run' fuel) -> returns run a -> returns run' a.
Proof.
  intros Hext [[fuel0 Hrun] Huniq]. split.
  - exists fuel0. intros fuel Hf. rewrite <- Hext. by apply Hrun.
  - intros fuel a' H. rewrite <- Hext in H. by apply (Huniq fuel).
Qed.

Lemma returns_compose {A B C : Type} (run1 : nat -> option A)
    (run2 : A -> nat -> option B) (k : B -> C) (a : A) (b : B) :
  returns run1 a -> returns (run2 a) b ->
  returns (fun fuel =>
             match run1 fuel with
             | None => None
             | Some a' =>
                 match run2 a' fuel with
                 | None => None
                 | Some b' => Some (k b')
                 end
             end) (k b).
Proof.
  intros [[f1 H1] U1] [[f2 H2] U2]. split.
  - exists (f1 `max` f2)%nat. intros fuel Hf.
    rewrite H1 by lia. by rewrite H2 by lia.
  - intros fuel c H. destruct (run1 fuel) as [a'|] eqn:Ha; [|done].
    apply U1 in Ha as ->. destruct (run2 a fuel) as [b'|] eqn:Hb; [|done].
    apply U2 in Hb as ->. congruence.
Qed.

Section StageFacts.
Context {T R E : Type}.
Variable race : E -> list E -> E.

Lemma concurrentMap_pointwise (items : list T) (fn : T -> outcome E R)
    (g : T -> R) (c : Z) :
  1 <= c -> (forall x, x ∈ items -> fn x = Return (g x)) ->
  returns (fun fuel => concurrentMap race fuel items fn c)
          (Return (g <$> items), items).
Proof.
  intros Hc Hg.
  assert (rejections (map fn items) = []) as Hok.
  { apply rejections_nil. intros x Hx. exists (g x). by apply Hg. }
  assert (fulfilments (map fn items) = g <$> items) as Hres.
  { clear Hok. induction items as [|x l IH]; [done|]. simpl.
    rewrite (Hg x) by (apply elem_of_cons; by left). simpl. f_equal.
    apply IH. intros y Hy. apply Hg. apply elem_of_cons. by right. }
  apply (concurrentMap_returns race fn items c (S (length items))).
  intros fuel' Hf. unfold concurrentMap.
  rewrite (concurrentMap_loop_ok race fn items c Hc); [|lia|lia|done].
  change (Z.to_nat 0) with 0%nat. by rewrite drop_0, Hres.
Qed.
End StageFacts.

Lemma concat_fmap_chunks {A B : Type} (f : A -> B) (bs : list (list A)) :
  concat (fmap (M := list) f <$> bs) = f <$> concat bs.
Proof.
  induction bs as [|b bs IH]; [done|].
  by rewrite fmap_cons, !concat_cons, IH, fmap_app.
Qed.

Lemma concat_ranges (g : Z -> string) (total c : Z) :
  1 <= c ->
  forall (n : nat) (i : Z),
    iterations_left total c i n ->
    concat ((fun r => g <$> seqZ (start r) (end_ r - start r))
              <$> ranges_from total c n i)
    = g <$> seqZ i (total - i).
Proof.
  intros Hc. induction n as [|n IH]; intros i Hn.
  - simpl in *. by rewrite seqZ_nil by lia.
  - pose proof (iterations_left_enter total c Hc i n Hn) as Hlt.
    apply (iterations_left_step total c) in Hn.
    change (((g <$> seqZ i (Z.min (i + c) total - i))
             ++ concat ((fun r => g <$> seqZ (start r) (end_ r - start r))
                          <$> ranges_from total c n (i + c)))
            = g <$> seqZ i (total - i)).
    rewrite (IH _ Hn), <- fmap_app. f_equal.
    destruct (Z.le_gt_cases (i + c) total) as [Hle|Hgt].
    + rewrite Z.min_l by lia.
      replace (seqZ i (total - i))
        with (seqZ i ((i + c - i) + (total - (i + c)))) by (f_equal; lia).
      rewrite seqZ_app by lia. do 2 f_equal. lia.
    + rewrite Z.min_r by lia.
      rewrite (seqZ_nil (i + c)) by lia. by rewrite app_nil_r.
Qed.

Section PipelineFacts.
Context {E : Type}.
Variable race : E -> list E -> E.

Lemma batchGetDomainDetails_pointwise
    (worker : list string -> outcome E (list DomainData))
    (f : string -> DomainData) (cfg : IndexerConfig) (tokenIds : list string) :
  2 <= batchSize cfg -> 1 <= concurrency cfg ->
  (forall b, worker b = Return (f <$> b)) ->
  returns (fun fuel => batchGetDomainDetails race worker fuel cfg tokenIds)
          (Return (f <$> tokenIds)).
Proof.
  intros Hb Hc Hw.
  assert (1 <= batchSize cfg / 2) as Hd.
  { apply (Z.div_le_lower_bound (batchSize cfg) 2 1); lia. }
  set (batches := chunks (length tokenIds) (Z.to_nat (batchSize cfg / 2)) tokenIds).
  pose proof (createBatchesFromArray_returns tokenIds (batchSize cfg / 2) Hd) as H1.
  pose proof (concurrentMap_pointwise race batches worker (fmap f)
                (concurrency cfg) Hc (fun b _ => Hw b)) as H2.
  pose proof (returns_compose _ (fun bs fuel => concurrentMap race fuel bs worker
                                                  (concurrency cfg))
                (fun o : outcome E (list (list DomainData)) * list (list string) =>
                   match o with
                   | (Throw e, _) => Throw e
                   | (Return results, _) => Return (concat results)
                   end) _ _ H1 H2) as H.
  simpl in H. fold batches in H.
  rewrite concat_fmap_chunks in H. unfold batches in H.
  rewrite concat_chunks in H by lia.
  eapply returns_ext; [|exact H].
  intros fuel. unfold batchGetDomainDetails.
  destruct (createBatchesFromArray fuel tokenIds (batchSize cfg / 2)); [|done].
  by destruct (concurrentMap race fuel l worker (concurrency cfg)) as [[[?|?] ?]|].
Qed.

Lemma batchGetTokenIds_pointwise
    (worker : Range -> outcome E (list string)) (g : Z -> string)
    (cfg : IndexerConfig) (total : Z) :
  0 <= total -> 1 <= batchSize cfg -> 1 <= concurrency cfg ->
  (forall r, worker r = Return (g <$> seqZ (start r) (end_ r - start r))) ->
  returns (fun fuel => batchGetTokenIds race worker fuel cfg total)
          (Return (g <$> seqZ 0 total)).
Proof.
  intros Ht Hb Hc Hw.
  set (batches := ranges_from total (batchSize cfg) (chunk_count total (batchSize cfg)) 0).
  pose proof (createBatches_returns_ranges total (batchSize cfg) Ht Hb) as H1.
  pose proof (concurrentMap_pointwise race batches worker
                (fun r => g <$> seqZ (start r) (end_ r - start r))
                (concurrency cfg) Hc (fun r _ => Hw r)) as H2.
  pose proof (returns_compose _ (fun bs fuel => concurrentMap race fuel bs worker
                                                  (concurrency cfg))
                (fun o : outcome E (list (list string)) * list Range =>
                   match o with
                   | (Throw e, _) => Throw e
                   | (Return results, _) => Return (concat results)
                   end) _ _ H1 H2) as H.
  simpl in H. fold batches in H. unfold batches in H.
  rewrite (concat_ranges g total (batchSize cfg) Hb _ 0
             (chunk_count_iterations total (batchSize cfg) Hb Ht)) in H.
  rewrite Z.sub_0_r in H.
  eapply returns_ext; [|exact H].
  intros fuel. unfold batchGetTokenIds.
  destruct (createBatches fuel total (batchSize cfg)); [|done].
  by destruct (concurrentMap race fuel l worker (concurrency cfg)) as [[[?|?] ?]|].
Qed.

Lemma indexAllDomains_returns
    (tokenWorker : Range -> outcome E (list string))
    (detailWorker : list string -> outcome E (list DomainData))
    (cfg : IndexerConfig) (total : Z) (tokenIds : list string)
    (domains : list DomainData) :
  returns (fun fuel => batchGetTokenIds race tokenWorker fuel cfg total)
          (Return tokenIds) ->
  returns (fun fuel => batchGetDomainDetails race detailWorker fuel cfg tokenIds)
          (Return domains) ->
  returns (fun fuel =>
             indexAllDomains race (Return total) tokenWorker detailWorker fuel cfg)
          (Return (buildSubdomainRelations domains)).
Proof.
  intros [[f1 H1] U1] [[f2 H2] U2]. split.
  - exists (f1 `max` f2)%nat. intros fuel Hf. unfold indexAllDomains.
    rewrite H1 by lia. by rewrite H2 by lia.
  - intros fuel o H. unfold indexAllDomains in H.
    destruct (batchGetTokenIds race tokenWorker fuel cfg total) as [o1|] eqn:Ho1; [|done].
    apply U1 in Ho1 as ->.
    destruct (batchGetDomainDetails race detailWorker fuel cfg tokenIds)
      as [o2|] eqn:Ho2; [|done].
    apply U2 in Ho2 as ->. congruence.
Qed.

Lemma indexAllDomains_stage2_diverges
    (tokenWorker : Range -> outcome E (list string))
    (detailWorker : list string -> outcome E (list DomainData))
    (cfg : IndexerConfig) (total : Z) (tokenIds : list string) :
  returns (fun fuel => batchGetTokenIds race tokenWorker fuel cfg total)
          (Return tokenIds) ->
  diverges (fun fuel => batchGetDomainDetails race detailWorker fuel cfg tokenIds) ->
  diverges (fun fuel =>
              indexAllDomains race (Return total) tokenWorker detailWorker fuel cfg).
Proof.
  intros [_ U1] Hdiv fuel. unfold indexAllDomains.
  destruct (batchGetTokenIds race tokenWorker fuel cfg total) as [o1|] eqn:Ho1; [|done].
  apply U1 in Ho1 as ->. by rewrite Hdiv.
Qed.
End PipelineFacts.

(** X10. With [batchSize >= 2] and [concurrency >= 1], batching does not
    show in the result of the details stage: when the worker answers
    every batch with one record per identifier, in order, the stage
    returns the records of all identifiers in identifier order, the same
    for every batch size and concurrency. *)
Theorem details_stage_is_map {E : Type} (race : E -> list E -> E)
    (worker : list string -> outcome E (list DomainData))
    (f : string -> DomainData) (cfg : IndexerConfig) (tokenIds : list string) :
  2 <= batchSize cfg -> 1 <= concurrency cfg ->
  (forall b, worker b = Return (f <$> b)) ->
  returns (fun fuel => batchGetDomainDetails race worker fuel cfg tokenIds)
          (Return (f <$> tokenIds))
  /\ length (f <$> tokenIds) = length tokenIds
  /\ forall (i : nat) t, tokenIds !! i = Some t -> (f <$> tokenIds) !! i = Some (f t).
Proof.
  intros Hb Hc Hw. split; [by apply batchGetDomainDetails_pointwise|].
  split; [apply length_fmap|].
  intros i t Hi. by rewrite list_lookup_fmap, Hi.
Qed.

Lemma details_stage_is_map_witness :
  returns (fun fuel =>
             batchGetDomainDetails first_rejection example_detailWorker fuel
               (example_config 4 3 1) ["t0"; "t1"; "t2"]%string)
          (Return (example_record <$> ["t0"; "t1"; "t2"]%string)).
Proof.
  apply (details_stage_is_map first_rejection example_detailWorker example_record
           (example_config 4 3 1) ["t0"; "t1"; "t2"]%string);
    [simpl; lia|simpl; lia|reflexivity].
Defined.

(** X11. With [total >= 0], [batchSize >= 1] and [concurrency >= 1], when
    the worker answers every range with the identifiers of its indices,
    the identifier stage returns the identifiers of the indices
    [0, ..., total - 1] in index order: exactly [total] of them, the same
    for every batch size and concurrency. *)
Theorem token_stage_is_map {E : Type} (race : E -> list E -> E)
    (worker : Range -> outcome E (list string)) (g : Z -> string)
    (cfg : IndexerConfig) (total : Z) :
  0 <= total -> 1 <= batchSize cfg -> 1 <= concurrency cfg ->
  (forall r, worker r = Return (g <$> seqZ (start r) (end_ r - start r))) ->
  returns (fun fuel => batchGetTokenIds race worker fuel cfg total)
          (Return (g <$> seqZ 0 total))
  /\ Z.of_nat (length (g <$> seqZ 0 total)) = total.
Proof.
  intros Ht Hb Hc Hw. split; [by apply batchGetTokenIds_pointwise|].
  rewrite length_fmap, length_seqZ. lia.
Qed.

Lemma token_stage_is_map_witness :
  returns (fun fuel =>
             batchGetTokenIds first_rejection example_tokenWorker fuel
               (example_config 2 5 1) 3)
          (Return ["t0"; "t1"; "t2"]%string).
Proof.
  apply (token_stage_is_map first_rejection example_tokenWorker example_token
           (example_config 2 5 1) 3); [lia|simpl; lia|simpl; lia|reflexivity].
Defined.

(** X12. With [batchSize >= 2] and [concurrency >= 1], when the registry
    holds [total >= 0] records and both workers answer for each index and
    each identifier, the pipeline returns the relationships built on the
    records of the indices [0, ..., total - 1] in index order: what a
    one-at-a-time retrieval would give, whatever the batch size and the
    concurrency. *)
Theorem indexAllDomains_end_to_end {E : Type} (race : E -> list E -> E)
    (tokenWorker : Range -> outcome E (list string))
    (detailWorker : list string -> outcome E (list DomainData))
    (g : Z -> string) (f : string -> DomainData)
    (cfg : IndexerConfig) (total : Z) :
  0 <= total -> 2 <= batchSize cfg -> 1 <= concurrency cfg ->
  (forall r, tokenWorker r = Return (g <$> seqZ (start r) (end_ r - start r))) ->
  (forall b, detailWorker b = Return (f <$> b)) ->
  returns (fun fuel =>
             indexAllDomains race (Return total) tokenWorker detailWorker fuel cfg)
          (Return (buildSubdomainRelations (f <$> (g <$> seqZ 0 total)))).
Proof.
  intros Ht Hb Hc Hg Hf.
  apply (indexAllDomains_returns race _ _ cfg total (g <$> seqZ 0 total)
           (f <$> (g <$> seqZ 0 total))).
  - apply batchGetTokenIds_pointwise; [done|lia|done|done].
  - by apply batchGetDomainDetails_pointwise.
Qed.

Lemma indexAllDomains_end_to_end_witness :
  returns (fun fuel =>
             indexAllDomains first_rejection (Return 3) example_tokenWorker
               example_detailWorker fuel (example_config 2 2 1))
          (Return (example_record <$> ["t0"; "t1"; "t2"]%string)).
Proof.
  apply (indexAllDomains_end_to_end first_rejection example_tokenWorker
           example_detailWorker example_token example_record
           (example_config 2 2 1) 3);
    [lia|simpl; lia|simpl; lia|reflexivity|reflexivity].
Defined.

(** X13. On an empty registry the pipeline returns no record for every
    configuration, batch sizes and concurrencies of at most 0 included,
    without calling a worker; when the supply cannot be read, the
    pipeline fails with that failure. *)
Theorem indexAllDomains_empty_registry {E : Type} (race : E -> list E -> E)
    (tokenWorker : Range -> outcome E (list string))
    (detailWorker : list string -> outcome E (list DomainData))
    (cfg : IndexerConfig) :
  (forall total, total <= 0 ->
     returns (fun fuel =>
                indexAllDomains race (Return total) tokenWorker detailWorker fuel cfg)
             (Return []))
  /\ (forall e,
        returns (fun fuel =>
                   indexAllDomains race (Throw e) tokenWorker detailWorker fuel cfg)
                (Throw e)).
Proof.
  split.
  - intros total Ht.
    apply (indexAllDomains_returns race tokenWorker detailWorker cfg total [] []).
    + by apply batchGetTokenIds_nothing.
    + apply batchGetDomainDetails_nothing.
  - intros e. apply (returns_intro _ _ 0); [done|]. intros fuel Hf. lia.
Qed.

Lemma indexAllDomains_empty_registry_witness :
  returns (fun fuel =>
             indexAllDomains first_rejection (Return 0) example_tokenWorker
               example_detailWorker fuel (example_config 0 0 0))
          (Return []).
Proof.
  destruct (indexAllDomains_empty_registry first_rejection example_tokenWorker
              example_detailWorker (example_config 0 0 0)) as [H _].
  apply H. lia.
Defined.

(** X14. On a registry of at least one record, the pipeline does not
    terminate when [batchSize] is at most 0 (the identifier stage never
    ends), nor when [batchSize] is 1, [concurrency >= 1] and the
    identifier stage succeeds (the details stage then chunks by 0). *)
Theorem indexAllDomains_small_batchSize_diverges {E : Type}
    (race : E -> list E -> E)
    (tokenWorker : Range -> outcome E (list string))
    (detailWorker : list string -> outcome E (list DomainData))
    (cfg : IndexerConfig) (total : Z) :
  1 <= total ->
  (batchSize cfg <= 0 ->
   diverges (fun fuel =>
               indexAllDomains race (Return total) tokenWorker detailWorker fuel cfg))
  /\ (batchSize cfg = 1 -> 1 <= concurrency cfg ->
      forall g : Z -> string,
        (forall r, tokenWorker r = Return (g <$> seqZ (start r) (end_ r - start r))) ->
        diverges (fun fuel =>
                    indexAllDomains race (Return total) tokenWorker detailWorker
                      fuel cfg)).
Proof.
  intros Ht. split.
  - intros Hb fuel. unfold indexAllDomains, batchGetTokenIds, createBatches.
    by rewrite createBatches_loop_diverges.
  - intros Hb Hc g Hg.
    apply (indexAllDomains_stage2_diverges race _ _ cfg total (g <$> seqZ 0 total)).
    + apply batchGetTokenIds_pointwise; [lia|lia|done|done].
    + apply batchGetDomainDetails_diverges; [by rewrite Hb|].
      rewrite (seqZ_cons 0 total) by lia. done.
Qed.

Lemma indexAllDomains_small_batchSize_diverges_witness :
  diverges (fun fuel =>
              indexAllDomains first_rejection (Return 3) example_tokenWorker
                example_detailWorker fuel (example_config 1 5 3)).
Proof.
  destruct (indexAllDomains_small_batchSize_diverges first_rejection
              example_tokenWorker example_detailWorker (example_config 1 5 3) 3
              ltac:(lia)) as [_ H].
  apply (H eq_refl ltac:(simpl; lia) example_token). reflexivity.
Defined.

(** ** The relationship builder on any list of records *)

Lemma string_length_app (s1 s2 : string) :
  String.length (s1 +:+ s2) = (String.length s1 + String.length s2)%nat.
Proof. induction s1 as [|a s1 IH]; simpl; [done|]. by rewrite IH. Qed.

Lemma parent_name_shorter (n pn : string) :
  parent_name n = Some pn -> (String.length pn < String.length n)%nat.
Proof.
  intros H. apply parent_name_Some in H as (label & _ & ->).
  rewrite !string_length_app. simpl. lia.
Qed.

Lemma domainMap_from_latest (ds : list DomainData) :
  forall i (m : gmap string nat) n p,
    domainMap_from i ds m !! n = Some p ->
    forall (j : nat) d, ds !! j = Some d -> name d = n -> (i + j <= p)%nat.
Proof.
  induction ds as [|d0 ds IH]; intros i m n p H j d Hj Hn; [done|].
  simpl in H. destruct j as [|j].
  - injection Hj as ->.
    apply domainMap_from_Some in H as [H|(j & d' & _ & _ & ->)]; [|lia].
    rewrite Hn, lookup_insert_eq in H. injection H as <-. lia.
  - simpl in Hj. pose proof (IH _ _ _ _ H j d Hj Hn). lia.
Qed.

Section BuilderFacts.
Variable domains : list DomainData.

Lemma linked_from_refl (d : DomainData) : linked_from (name <$> domains) d d.
Proof.
  split; [by repeat split|]. split; [|done]. intros n Hn. by left.
Qed.

Lemma linked_from_push (d d' : DomainData) (n : string) :
  linked_from (name <$> domains) d d' ->
  n ∉ subdomains d' -> n ∈ name <$> domains -> parent_name n = Some (name d) ->
  linked_from (name <$> domains) d (push_subdomain d' n).
Proof.
  intros ((Hid & Hname & Hdid & Hnote & Hal & How & Hpre) & Hsub & Hnd) Hnot Hin Hpar.
  split; [|split].
  - repeat split; simpl; try done.
    by apply prefix_app_r.
  - simpl. intros n' Hn'. apply elem_of_app in Hn' as [Hn'|Hn']; [by apply Hsub|].
    apply list_elem_of_singleton in Hn' as ->. by right.
  - simpl. intros Hd. apply NoDup_app. split; [by apply Hnd|]. split.
    + intros n' Hn' Heq. apply list_elem_of_singleton in Heq as ->. done.
    + apply NoDup_singleton.
Qed.

Lemma link_step_linked_from (ds : list DomainData) (j : nat) :
  Forall2 (linked_from (name <$> domains)) domains ds ->
  Forall2 (linked_from (name <$> domains)) domains
          (link_step (domainMap_of domains) ds j).
Proof.
  intros Hinv. unfold link_step.
  destruct (ds !! j) as [domain|] eqn:Hj; [|done].
  destruct (parent_name (name domain)) as [pn|] eqn:Hpn; [|done].
  destruct (domainMap_of domains !! pn) as [p|] eqn:Hm; [|done].
  destruct (ds !! p) as [parent|] eqn:Hp; [|done].
  destruct (decide (name domain ∈ subdomains parent)) as [Hin|Hnotin].
  { by rewrite bool_decide_eq_true_2. }
  rewrite bool_decide_eq_false_2 by done. simpl.
  destruct (domainMap_of_Some domains pn p Hm) as (d0 & Hd0 & Hn0).
  destruct (Forall2_lookup_r _ _ _ j domain Hinv Hj) as (dj & Hdj & Hlj).
  pose proof (Forall2_lookup_lr _ _ _ p d0 parent Hinv Hd0 Hp) as Hl0.
  assert (linked_from (name <$> domains) d0 (push_subdomain parent (name domain)))
    as Hpush.
  { apply linked_from_push; [done|done| |congruence].
    destruct Hlj as ((_ & Hname & _) & _). rewrite Hname.
    apply list_elem_of_fmap. exists dj. split; [done|].
    apply list_elem_of_lookup. by exists j. }
  pose proof (Forall2_insert _ _ _ _ _ p Hinv Hpush) as Hins.
  by rewrite (list_insert_id domains p d0 Hd0) in Hins.
Qed.

Lemma link_steps_linked_from (js : list nat) :
  forall ds,
    Forall2 (linked_from (name <$> domains)) domains ds ->
    Forall2 (linked_from (name <$> domains)) domains
            (foldl (link_step (domainMap_of domains)) ds js).
Proof.
  induction js as [|j js IH]; intros ds Hinv; [done|].
  simpl. apply IH. by apply link_step_linked_from.
Qed.

(** The builder relates every record to what it was. *)
Lemma buildSubdomainRelations_linked_from :
  Forall2 (linked_from (name <$> domains)) domains (buildSubdomainRelations domains).
Proof.
  apply link_steps_linked_from. apply Forall_Forall2_diag.
  apply Forall_forall. intros d _. apply linked_from_refl.
Qed.

Lemma link_step_other (m : gmap string nat) (ds : list DomainData) (j p : nat) :
  (forall n, m !! n <> Some p) -> link_step m ds j !! p = ds !! p.
Proof.
  intros Hp. unfold link_step.
  destruct (ds !! j) as [domain|]; [|done].
  destruct (parent_name (name domain)) as [pn|]; [|done].
  destruct (m !! pn) as [p0|] eqn:Hm; [|done].
  destruct (ds !! p0) as [parent|]; [|done].
  destruct (negb (bool_decide (name domain ∈ subdomains parent))); [|done].
  apply list_lookup_insert_ne. intros ->. by apply (Hp pn).
Qed.

Lemma link_steps_other (m : gmap string nat) (js : list nat) (p : nat) :
  (forall n, m !! n <> Some p) ->
  forall ds, foldl (link_step m) ds js !! p = ds !! p.
Proof.
  intros Hp. induction js as [|j js IH]; intros ds; [done|].
  simpl. rewrite IH. by apply link_step_other.
Qed.

Lemma link_steps_identity (js : list nat) :
  (forall d d', d ∈ domains -> d' ∈ domains ->
     parent_name (name d) <> Some (name d')) ->
  foldl (link_step (domainMap_of domains)) domains js = domains.
Proof.
  intros Hno. induction js as [|j js IH]; [done|]. simpl.
  assert (link_step (domainMap_of domains) domains j = domains) as ->; [|done].
  unfold link_step.
  destruct (domains !! j) as [domain|] eqn:Hj; [|done].
  destruct (parent_name (name domain)) as [pn|] eqn:Hpn; [|done].
  destruct (domainMap_of domains !! pn) as [p|] eqn:Hm; [|done].
  destruct (domainMap_of_Some domains pn p Hm) as (d0 & Hd0 & Hn0).
  exfalso. apply (Hno domain d0).
  - apply list_elem_of_lookup. by exists j.
  - apply list_elem_of_lookup. by exists p.
  - congruence.
Qed.
End BuilderFacts.

Lemma filter_length_related {A : Type} (R : A -> A -> Prop) (P : A -> Prop)
    `{!forall x, Decision (P x)} (l l' : list A) :
  Forall2 R l l' -> (forall x y, R x y -> (P x <-> P y)) ->
  length (filter P l') = length (filter P l).
Proof.
  intros Hall HR. induction Hall as [|x y l l' Hxy Hall IH]; [done|].
  rewrite !filter_cons. pose proof (HR x y Hxy).
  destruct (decide (P y)), (decide (P x)); simpl; try tauto; by rewrite ?IH.
Qed.

(** X15. On any list of records, names repeated or not, the builder
    removes, adds and reorders no record and changes no field but the
    subdomain lists, which only grow at the end: the old list is a prefix
    of the new one. *)
Theorem buildSubdomainRelations_preserves (domains : list DomainData) :
  let out := buildSubdomainRelations domains in
  length out = length domains
  /\ name <$> out = name <$> domains
  /\ forall (p : nat) d, domains !! p = Some d ->
       exists d', out !! p = Some d' /\ extends_subdomains d d'.
Proof.
  intros out. pose proof (buildSubdomainRelations_linked_from domains) as Hinv.
  fold out in Hinv. split; [symmetry; by apply Forall2_length in Hinv|]. split.
  - apply list_eq. intros i. rewrite !list_lookup_fmap.
    destruct (domains !! i) as [d|] eqn:Hd.
    + destruct (Forall2_lookup_l _ _ _ i d Hinv Hd) as (d' & -> & (_ & Hn & _) & _).
      simpl. by rewrite Hn.
    + apply lookup_ge_None in Hd. apply Forall2_length in Hinv.
      rewrite (proj2 (lookup_ge_None out i)) by lia. done.
  - intros p d Hp.
    destruct (Forall2_lookup_l _ _ _ p d Hinv Hp) as (d' & Hd' & Hext & _).
    by exists d'.
Qed.

(** X16. On any list of records, every name that the builder appends to a
    record is the name of a record of the list whose parent name is the
    name of that record, and never the record's own name; a subdomain
    list without duplicates stays without duplicates. *)
Theorem buildSubdomainRelations_appends_children (domains : list DomainData)
    (p : nat) (d d' : DomainData) :
  domains !! p = Some d -> buildSubdomainRelations domains !! p = Some d' ->
  (forall n, n ∈ subdomains d' ->
     n ∈ subdomains d
     \/ (n ∈ name <$> domains /\ parent_name n = Some (name d) /\ n <> name d))
  /\ (NoDup (subdomains d) -> NoDup (subdomains d')).
Proof.
  intros Hp Hout.
  pose proof (Forall2_lookup_lr _ _ _ p d d'
                (buildSubdomainRelations_linked_from domains) Hp Hout)
    as (_ & Hsub & Hnd).
  split; [|done]. intros n Hn. destruct (Hsub n Hn) as [|[Hin Hpar]]; [by left|].
  right. split; [done|]. split; [done|]. intros ->.
  apply parent_name_shorter in Hpar. lia.
Qed.

Lemma buildSubdomainRelations_appends_children_witness :
  "b.a"%string ∈ name <$> example_domains
  /\ parent_name "b.a" = Some "a"%string.
Proof.
  destruct (buildSubdomainRelations_appends_children example_domains 0
              (record_named "a" []) (record_named "a" ["b.a"])
              eq_refl eq_refl) as [Hsub _].
  destruct (Hsub "b.a"%string) as [Hold|(Hin & Hpar & _)].
  - apply elem_of_cons. by left.
  - by apply elem_of_nil in Hold.
  - by split.
Defined.

(** X17. When a name is repeated, the map keeps the last record of that
    name: a record whose name occurs again later in the list comes out of
    the builder unchanged, its children go to the last record of the
    name. *)
Theorem buildSubdomainRelations_last_name_wins (domains : list DomainData)
    (p q : nat) (d d' : DomainData) :
  domains !! p = Some d -> domains !! q = Some d' ->
  (p < q)%nat -> name d' = name d ->
  buildSubdomainRelations domains !! p = Some d.
Proof.
  intros Hp Hq Hlt Hname. unfold buildSubdomainRelations.
  rewrite link_steps_other; [done|].
  intros n Hn.
  destruct (domainMap_of_Some domains n p Hn) as (dp & Hdp & Hndp).
  assert (dp = d) as -> by congruence.
  pose proof (domainMap_from_latest domains 0 ∅ n p Hn q d' Hq ltac:(congruence)).
  lia.
Qed.

Lemma buildSubdomainRelations_last_name_wins_witness :
  buildSubdomainRelations example_duplicates !! 0%nat = Some (record_named "a" [])
  /\ subdomains <$> buildSubdomainRelations example_duplicates
     = [[]; []; ["old"; "b.a"]]%string.
Proof.
  split; [|reflexivity].
  apply (buildSubdomainRelations_last_name_wins example_duplicates 0 2
           (record_named "a" []) (record_named "a" ["old"]%string));
    [reflexivity|reflexivity|lia|reflexivity].
Defined.

(** X18. When the parent name of no record is the name of a record of the
    list, in particular when no name contains ['.'], the builder returns
    the list as it is. *)
Theorem buildSubdomainRelations_no_parent (domains : list DomainData) :
  ((forall d d', d ∈ domains -> d' ∈ domains ->
      parent_name (name d) <> Some (name d')) ->
   buildSubdomainRelations domains = domains)
  /\ ((forall d, d ∈ domains -> Js.includes (name d) "." = false) ->
      buildSubdomainRelations domains = domains).
Proof.
  split.
  - intros Hno. by apply link_steps_identity.
  - intros Hdot. apply link_steps_identity. intros d d' Hd _ Hpar.
    assert (parent_name (name d) = None) as Hnone.
    { apply parent_name_None. rewrite <- includes_dot. by apply Hdot. }
    congruence.
Qed.

Lemma buildSubdomainRelations_no_parent_witness :
  buildSubdomainRelations [record_named "a" ["x"]; record_named "b" []]%string
  = [record_named "a" ["x"]; record_named "b" []]%string.
Proof.
  apply (proj2 (buildSubdomainRelations_no_parent
                  [record_named "a" ["x"]; record_named "b" []]%string)).
  intros d Hd. repeat (apply elem_of_cons in Hd as [->|Hd]; [reflexivity|]).
  by apply elem_of_nil in Hd.
Defined.

(** X19. The statistics do not depend on the relationships: they are the
    same on the output of the builder as on its input, for any list of
    records. *)
Theorem getStatistics_after_build (domains : list DomainData) :
  getStatistics (buildSubdomainRelations domains) = getStatistics domains.
Proof.
  pose proof (buildSubdomainRelations_linked_from domains) as Hinv.
  assert (Forall2 extends_subdomains domains (buildSubdomainRelations domains)) as Hext.
  { eapply Forall2_impl; [exact Hinv|]. by intros d d' [H _]. }
  unfold getStatistics. f_equal.
  - symmetry. by apply Forall2_length in Hext.
  - apply (filter_length_related extends_subdomains _ _ _ Hext).
    intros d d' (_ & Hn & _). by rewrite Hn.
  - apply (filter_length_related extends_subdomains _ _ _ Hext).
    intros d d' (_ & Hn & _). by rewrite Hn.
  - apply (filter_length_related extends_subdomains _ _ _ Hext).
    intros d d' (_ & _ & Hd & _). by rewrite Hd.
  - apply (filter_length_related extends_subdomains _ _ _ Hext).
    intros d d' (_ & _ & _ & _ & Ha & _). by rewrite Ha.
Qed.

(** X20. With unique names, the builder appends a name to the list of at
    most one record. *)
Theorem buildSubdomainRelations_one_parent (domains : list DomainData)
    (p q : nat) (dp dq dp' dq' : DomainData) (n : string) :
  NoDup (name <$> domains) ->
  domains !! p = Some dp -> domains !! q = Some dq ->
  buildSubdomainRelations domains !! p = Some dp' ->
  buildSubdomainRelations domains !! q = Some dq' ->
  n ∈ subdomains dp' -> n ∉ subdomains dp ->
  n ∈ subdomains dq' -> n ∉ subdomains dq ->
  p = q.
Proof.
  intros Hnd Hp Hq Hp' Hq' Hin1 Hnot1 Hin2 Hnot2.
  pose proof (buildSubdomainRelations_linked_from domains) as Hinv.
  destruct (Forall2_lookup_lr _ _ _ p dp dp' Hinv Hp Hp') as (_ & Hs1 & _).
  destruct (Forall2_lookup_lr _ _ _ q dq dq' Hinv Hq Hq') as (_ & Hs2 & _).
  destruct (Hs1 n Hin1) as [|[_ Hpar1]]; [done|].
  destruct (Hs2 n Hin2) as [|[_ Hpar2]]; [done|].
  apply (same_name_same_position domains Hnd p q dp dq Hp Hq). congruence.
Qed.

Lemma buildSubdomainRelations_one_parent_witness :
  NoDup (name <$> example_domains) /\ 0%nat = 0%nat.
Proof.
  split; [exact example_domains_unique|].
  apply (buildSubdomainRelations_one_parent example_domains 0 0
           (record_named "a" []) (record_named "a" [])
           (record_named "a" ["b.a"]) (record_named "a" ["b.a"]) "b.a"
           example_domains_unique eq_refl eq_refl eq_refl eq_refl).
  - apply elem_of_cons. by left.
  - apply not_elem_of_nil.
  - apply elem_of_cons. by left.
  - apply not_elem_of_nil.
Defined.

(** ** [concurrentMap]: one unit at a time, and all units at once *)

Section FailFacts.
Context {T R E : Type}.
Variable race : E -> list E -> E.
Variable fn : T -> outcome E R.
Variable items : list T.
Variable c : Z.
Hypothesis c_pos : 1 <= c.

Lemma concurrentMap_fail_returns :
  rejections (map fn items) <> [] ->
  exists (w : nat) (e' : E),
    returns (fun fuel => concurrentMap race fuel items fn c)
            (Throw e', take ((w + 1) * Z.to_nat c) items)
    /\ rejections (map fn (take (w * Z.to_nat c) items)) = []
    /\ exists e0 es,
         rejections (map fn (window (Z.to_nat c) w items)) = e0 :: es
         /\ e' = race e0 es.
Proof.
  intros Hbad.
  destruct (concurrentMap_loop_fail race fn items c c_pos (S (length items)) 0 [] []
              ltac:(lia) ltac:(lia) Hbad) as (w & e' & Hrun & Hpre & Hwin).
  exists w, e'. split; [|by split].
  apply (concurrentMap_returns race fn items c (S (length items))).
  intros fuel' Hf. unfold concurrentMap.
  by apply (concurrentMap_loop_fuel_mono race fn items c (S (length items))).
Qed.
End FailFacts.

(** X21. With a concurrency of 1 the units run one after the other: when
    the units before [x] succeed and [x] fails, [concurrentMap] fails with
    the failure of [x], having started the units up to [x] and none after
    it. *)
Theorem concurrentMap_sequential_fail {T R E : Type} (race : E -> list E -> E)
    (fn : T -> outcome E R) (before after : list T) (x : T) (e : E) :
  (forall e0 es, race e0 es ∈ e0 :: es) ->
  (forall y, y ∈ before -> exists r, fn y = Return r) ->
  fn x = Throw e ->
  returns (fun fuel => concurrentMap race fuel (before ++ x :: after) fn 1)
          (Throw e, before ++ [x]).
Proof.
  intros Hrace Hok Hx.
  set (items := before ++ x :: after).
  assert (rejections (map fn items) <> []) as Hbad.
  { intros Hnil. destruct (proj1 (rejections_nil fn items) Hnil x) as [r Hr].
    - apply elem_of_app. right. apply elem_of_cons. by left.
    - congruence. }
  destruct (concurrentMap_fail_returns race fn items 1 ltac:(lia) Hbad)
    as (w & e' & Hret & Hpre & e0 & es & Hwin & He').
  change (Z.to_nat 1) with 1%nat in *. rewrite Nat.mul_1_r in *.
  assert (w = length before) as ->.
  { destruct (Nat.lt_trichotomy w (length before)) as [Hlt|[Heq|Hgt]]; [|done|].
    - exfalso. destruct (lookup_lt_is_Some_2 before w Hlt) as [y Hy].
      assert (window 1 w items = [y]) as Hw.
      { unfold window, items. rewrite Nat.mul_1_r.
        rewrite <- (take_drop_middle before w y Hy) at 1.
        rewrite <- app_assoc, drop_app_length'; [done|].
        rewrite length_take. apply lookup_lt_Some in Hy. lia. }
      rewrite Hw in Hwin. simpl in Hwin.
      destruct (Hok y) as [r Hr]; [apply list_elem_of_lookup; by exists w|].
      by rewrite Hr in Hwin.
    - exfalso. destruct (proj1 (rejections_nil fn _) Hpre x) as [r Hr]; [|congruence].
      apply elem_of_take. exists (length before). split; [|done].
      unfold items. by rewrite list_lookup_middle. }
  assert (window 1 (length before) items = [x]) as Hw.
  { unfold window, items. rewrite Nat.mul_1_r.
    by rewrite drop_app_length. }
  rewrite Hw in Hwin. simpl in Hwin. rewrite Hx in Hwin. injection Hwin as <- <-.
  pose proof (Hrace e []) as Hin. apply list_elem_of_singleton in Hin.
  replace (take (length before + 1) items) with (before ++ [x]) in Hret.
  - by rewrite He', Hin in Hret.
  - unfold items. rewrite take_app_add'; [|done]. done.
Qed.

Lemma concurrentMap_sequential_fail_witness :
  returns (fun fuel =>
             concurrentMap first_rejection fuel [1; 2; 3; 4; 5]
               (fun x => if x =? 3 then Throw "boom"%string else Return (x * 2)) 1)
          (Throw "boom"%string, [1; 2; 3]).
Proof.
  apply (concurrentMap_sequential_fail first_rejection
           (fun x => if x =? 3 then Throw "boom"%string else Return (x * 2))
           [1; 2] [4; 5] 3 "boom"%string first_rejection_In).
  - intros y Hy. repeat (apply elem_of_cons in Hy as [->|Hy]; [by eexists|]).
    by apply elem_of_nil in Hy.
  - reflexivity.
Defined.

(** X22. With a concurrency of at least the number of units there is one
    window only: when some unit fails, [concurrentMap] fails with the
    failure of a failing unit, and every unit has been started. *)
Theorem concurrentMap_single_window {T R E : Type} (race : E -> list E -> E)
    (fn : T -> outcome E R) (items : list T) (c : Z) (x : T) (e : E) :
  (forall e0 es, race e0 es ∈ e0 :: es) ->
  1 <= c -> Z.of_nat (length items) <= c ->
  x ∈ items -> fn x = Throw e ->
  exists (e' : E) (u : T),
    returns (fun fuel => concurrentMap race fuel items fn c) (Throw e', items)
    /\ u ∈ items /\ fn u = Throw e'.
Proof.
  intros Hrace Hc Hlen Hx Hfx.
  assert (rejections (map fn items) <> []) as Hbad.
  { intros Hnil. destruct (proj1 (rejections_nil fn items) Hnil x Hx). congruence. }
  destruct (concurrentMap_fail_returns race fn items c Hc Hbad)
    as (w & e' & Hret & Hpre & e0 & es & Hwin & He').
  assert (w = 0%nat) as ->.
  { destruct w as [|w]; [done|]. exfalso.
    rewrite take_ge in Hpre by nia.
    destruct (proj1 (rejections_nil fn items) Hpre x Hx). congruence. }
  rewrite take_ge in Hret by lia.
  assert (e' ∈ rejections (map fn (window (Z.to_nat c) 0 items))) as Hin.
  { rewrite Hwin, He'. apply Hrace. }
  apply elem_of_rejections in Hin as (u & Hu & Hfu).
  exists e', u. split; [done|]. split; [|done].
  unfold window in Hu. by apply subseteq_take, subseteq_drop in Hu.
Qed.

Lemma concurrentMap_single_window_witness :
  exists (e' : string) (u : Z),
    returns (fun fuel =>
               concurrentMap first_rejection fuel [1; 2; 3]
                 (fun x => if x =? 1 then Throw "boom"%string else Return (x * 2)) 3)
            (Throw e', [1; 2; 3])
    /\ u ∈ [1; 2; 3]
    /\ (if u =? 1 then Throw "boom"%string else Return (u * 2)) = @Throw string Z e'.
Proof.
  apply (concurrentMap_single_window first_rejection
           (fun x => if x =? 1 then Throw "boom"%string else Return (x * 2))
           [1; 2; 3] 3 1 "boom"%string first_rejection_In);
    [lia|simpl; lia|apply elem_of_cons; by left|reflexivity].
Defined.

(** ** The note listing script *)

Lemma Set_add_elem (s : list string) (x y : string) :
  x ∈ Set_add s y <-> x ∈ s \/ x = y.
Proof.
  unfold Set_add. destruct (decide (y ∈ s)) as [Hin|Hnotin].
  - rewrite bool_decide_eq_true_2 by done. split; [by left|].
    intros [H| ->]; done.
  - rewrite bool_decide_eq_false_2 by done.
    rewrite elem_of_app, list_elem_of_singleton. done.
Qed.

Lemma Set_add_NoDup (s : list string) (y : string) :
  NoDup s -> NoDup (Set_add s y).
Proof.
  intros Hs. unfold Set_add. destruct (decide (y ∈ s)) as [Hin|Hnotin].
  - by rewrite bool_decide_eq_true_2.
  - rewrite bool_decide_eq_false_2 by done. apply NoDup_app.
    split; [done|]. split; [|apply NoDup_singleton].
    intros x Hx Heq. apply list_elem_of_singleton in Heq as ->. done.
Qed.

Lemma Set_add_prefix (s : list string) (y : string) : s `prefix_of` Set_add s y.
Proof.
  unfold Set_add. destruct (bool_decide (y ∈ s)); [done|]. by apply prefix_app_r.
Qed.

Lemma Set_add_length (s : list string) (y : string) :
  (length (Set_add s y) <= S (length s))%nat.
Proof.
  unfold Set_add. destruct (bool_decide (y ∈ s)); [lia|].
  rewrite length_app. simpl. lia.
Qed.

Lemma notes_fold (domains : list DomainData) :
  forall s,
    let out := foldl (fun uniqueNotes domain => Set_add uniqueNotes (note domain))
                     s domains in
    (NoDup s -> NoDup out)
    /\ (forall x, x ∈ out <-> x ∈ s \/ x ∈ note <$> domains)
    /\ s `prefix_of` out
    /\ (length out <= length s + length domains)%nat.
Proof.
  induction domains as [|d ds IH]; intros s; simpl.
  - split; [done|]. split; [|split; [done|lia]].
    intros x. split; [by left|]. intros [|H]; [done|]. by apply elem_of_nil in H.
  - destruct (IH (Set_add s (note d))) as (Hnd & Hel & Hpre & Hlen).
    split; [|split; [|split]].
    + intros Hs. by apply Hnd, Set_add_NoDup.
    + intros x. rewrite Hel, Set_add_elem, elem_of_cons. tauto.
    + etrans; [apply Set_add_prefix|done].
    + pose proof (Set_add_length s (note d)). lia.
Qed.

(** X23. The list of notes that the script prints holds every note of the
    input once: it has no duplicate, it holds exactly the notes that
    occur, it is no longer than the input, and notes come in the order of
    their first occurrence, so that reading more records only appends. *)
Theorem notesList_unique (domains : list DomainData) :
  NoDup (notesList domains)
  /\ (forall x, x ∈ notesList domains <-> x ∈ note <$> domains)
  /\ (length (notesList domains) <= length domains)%nat
  /\ (forall more, notesList domains `prefix_of` notesList (domains ++ more))
  /\ (forall d rest, domains = d :: rest ->
        head (notesList domains) = Some (note d)).
Proof.
  destruct (notes_fold domains []) as (Hnd & Hel & _ & Hlen).
  split; [apply Hnd, NoDup_nil_2|]. split.
  { intros x. unfold notesList. rewrite Hel. split; [|by right].
    intros [H|H]; [by apply elem_of_nil in H|done]. }
  split; [exact Hlen|]. split.
  - intros more. unfold notesList. rewrite foldl_app.
    by destruct (notes_fold more (notesList domains)) as (_ & _ & Hpre & _).
  - intros d rest ->. unfold notesList. simpl.
    destruct (notes_fold rest (Set_add [] (note d))) as (_ & _ & [k Hk] & _).
    simpl in Hk. by rewrite Hk.
Qed.

(** ** Failures of the pipeline *)

Section PipelineFailures.
Context {E : Type}.
Variable race : E -> list E -> E.
Hypothesis race_In : forall e0 es, race e0 es ∈ e0 :: es.

Lemma concurrentMap_some_failure {T R : Type} (fn : T -> outcome E R)
    (items : list T) (c : Z) (x : T) (e : E) :
  1 <= c -> x ∈ items -> fn x = Throw e ->
  exists (e' : E) (u : T) (started : list T),
    returns (fun fuel => concurrentMap race fuel items fn c) (Throw e', started)
    /\ u ∈ items /\ fn u = Throw e'.
Proof.
  intros Hc Hx Hfx.
  assert (rejections (map fn items) <> []) as Hbad.
  { intros Hnil. destruct (proj1 (rejections_nil fn items) Hnil x Hx). congruence. }
  destruct (concurrentMap_fail_returns race fn items c Hc Hbad)
    as (w & e' & Hret & _ & e0 & es & Hwin & He').
  assert (e' ∈ rejections (map fn (window (Z.to_nat c) w items))) as Hin.
  { rewrite Hwin, He'. apply race_In. }
  apply elem_of_rejections in Hin as (u & Hu & Hfu).
  exists e', u, (take ((w + 1) * Z.to_nat c) items).
  split; [done|]. split; [|done].
  unfold window in Hu. by apply subseteq_take, subseteq_drop in Hu.
Qed.

Lemma batchGetTokenIds_throws (worker : Range -> outcome E (list string))
    (cfg : IndexerConfig) (total : Z) (batches started : list Range) (e : E) :
  returns (fun fuel => createBatches fuel total (batchSize cfg)) batches ->
  returns (fun fuel => concurrentMap race fuel batches worker (concurrency cfg))
          (Throw e, started) ->
  returns (fun fuel => batchGetTokenIds race worker fuel cfg total) (Throw e).
Proof.
  intros H1 H2.
  pose proof (returns_compose _ (fun bs fuel => concurrentMap race fuel bs worker
                                                  (concurrency cfg))
                (fun o : outcome E (list (list string)) * list Range =>
                   match o with
                   | (Throw e, _) => Throw e
                   | (Return results, _) => Return (concat results)
                   end) _ _ H1 H2) as H.
  eapply returns_ext; [|exact H].
  intros fuel. unfold batchGetTokenIds.
  destruct (createBatches fuel total (batchSize cfg)); [|done].
  by destruct (concurrentMap race fuel l worker (concurrency cfg)) as [[[?|?] ?]|].
Qed.

Lemma batchGetDomainDetails_throws
    (worker : list string -> outcome E (list DomainData))
    (cfg : IndexerConfig) (tokenIds : list string)
    (batches started : list (list string)) (e : E) :
  returns (fun fuel => createBatchesFromArray fuel tokenIds (batchSize cfg / 2))
          batches ->
  returns (fun fuel => concurrentMap race fuel batches worker (concurrency cfg))
          (Throw e, started) ->
  returns (fun fuel => batchGetDomainDetails race worker fuel cfg tokenIds) (Throw e).
Proof.
  intros H1 H2.
  pose proof (returns_compose _ (fun bs fuel => concurrentMap race fuel bs worker
                                                  (concurrency cfg))
                (fun o : outcome E (list (list DomainData)) * list (list string) =>
                   match o with
                   | (Throw e, _) => Throw e
                   | (Return results, _) => Return (concat results)
                   end) _ _ H1 H2) as H.
  eapply returns_ext; [|exact H].
  intros fuel. unfold batchGetDomainDetails.
  destruct (createBatchesFromArray fuel tokenIds (batchSize cfg / 2)); [|done].
  by destruct (concurrentMap race fuel l worker (concurrency cfg)) as [[[?|?] ?]|].
Qed.

Lemma indexAllDomains_stage1_throws
    (tokenWorker : Range -> outcome E (list string))
    (detailWorker : list string -> outcome E (list DomainData))
    (cfg : IndexerConfig) (total : Z) (e : E) :
  returns (fun fuel => batchGetTokenIds race tokenWorker fuel cfg total) (Throw e) ->
  returns (fun fuel =>
             indexAllDomains race (Return total) tokenWorker detailWorker fuel cfg)
          (Throw e).
Proof.
  intros [[f1 H1] U1]. split.
  - exists f1. intros fuel Hf. unfold indexAllDomains. by rewrite H1.
  - intros fuel o H. unfold indexAllDomains in H.
    destruct (batchGetTokenIds race tokenWorker fuel cfg total) as [o1|] eqn:Ho1; [|done].
    apply U1 in Ho1 as ->. congruence.
Qed.

Lemma indexAllDomains_stage2_throws
    (tokenWorker : Range -> outcome E (list string))
    (detailWorker : list string -> outcome E (list DomainData))
    (cfg : IndexerConfig) (total : Z) (tokenIds : list string) (e : E) :
  returns (fun fuel => batchGetTokenIds race tokenWorker fuel cfg total)
          (Return tokenIds) ->
  returns (fun fuel => batchGetDomainDetails race detailWorker fuel cfg tokenIds)
          (Throw e) ->
  returns (fun fuel =>
             indexAllDomains race (Return total) tokenWorker detailWorker fuel cfg)
          (Throw e).
Proof.
  intros [[f1 H1] U1] [[f2 H2] U2]. split.
  - exists (f1 `max` f2)%nat. intros fuel Hf. unfold indexAllDomains.
    rewrite H1 by lia. by rewrite H2 by lia.
  - intros fuel o H. unfold indexAllDomains in H.
    destruct (batchGetTokenIds race tokenWorker fuel cfg total) as [o1|] eqn:Ho1; [|done].
    apply U1 in Ho1 as ->.
    destruct (batchGetDomainDetails race detailWorker fuel cfg tokenIds)
      as [o2|] eqn:Ho2; [|done].
    apply U2 in Ho2 as ->. congruence.
Qed.
End PipelineFailures.

(** X24. With [batchSize >= 1] and [concurrency >= 1], when the worker of
    the identifier stage fails on one of the ranges, the pipeline fails
    with the failure of a failing range, whatever the details stage would
    do: no record is returned and the details stage has no part in the
    outcome. *)
Theorem indexAllDomains_fails_in_identifier_stage {E : Type}
    (race : E -> list E -> E)
    (tokenWorker : Range -> outcome E (list string))
    (cfg : IndexerConfig) (total : Z) (k : nat) (e : E) :
  (forall e0 es, race e0 es ∈ e0 :: es) ->
  0 <= total -> 1 <= batchSize cfg -> 1 <= concurrency cfg ->
  Z.of_nat k * batchSize cfg < total ->
  tokenWorker (mkRange (Z.of_nat k * batchSize cfg)
                 (Z.min (Z.of_nat k * batchSize cfg + batchSize cfg) total))
  = Throw e ->
  exists (e' : E) (r : Range),
    tokenWorker r = Throw e'
    /\ forall detailWorker : list string -> outcome E (list DomainData),
         returns (fun fuel =>
                    indexAllDomains race (Return total) tokenWorker detailWorker
                      fuel cfg)
                 (Throw e').
Proof.
  intros Hrace Ht Hb Hc Hk Hfail.
  set (c := batchSize cfg) in *.
  set (batches := ranges_from total c (chunk_count total c) 0).
  assert (k < chunk_count total c)%nat as Hkn.
  { pose proof (chunk_count_iterations total c Hb Ht) as Hn.
    destruct (chunk_count total c) as [|n]; unfold iterations_left in Hn; [lia|].
    assert (Z.of_nat k < Z.of_nat (S n)); [nia|lia]. }
  assert (mkRange (Z.of_nat k * c) (Z.min (Z.of_nat k * c + c) total) ∈ batches)
    as Hin.
  { apply list_elem_of_lookup. exists k. unfold batches.
    by rewrite (ranges_from_lookup total c _ 0 k Hkn). }
  destruct (concurrentMap_some_failure race Hrace tokenWorker batches
              (concurrency cfg) _ e Hc Hin Hfail)
    as (e' & r & started & Hret & _ & Hr).
  exists e', r. split; [done|]. intros detailWorker.
  apply indexAllDomains_stage1_throws.
  apply (batchGetTokenIds_throws race tokenWorker cfg total batches started e');
    [|done].
  by apply createBatches_returns_ranges.
Qed.

Lemma indexAllDomains_fails_in_identifier_stage_witness :
  exists (e' : string) (r : Range),
    always_failing_worker r = Throw e'
    /\ forall detailWorker : list string -> outcome string (list DomainData),
         returns (fun fuel =>
                    indexAllDomains first_rejection (Return 3) always_failing_worker
                      detailWorker fuel (example_config 2 2 1))
                 (Throw e').
Proof.
  apply (indexAllDomains_fails_in_identifier_stage first_rejection
           always_failing_worker (example_config 2 2 1) 3 1 "boom"%string
           first_rejection_In);
    [lia|simpl; lia|simpl; lia|simpl; lia|reflexivity].
Defined.

(** X25. With [batchSize >= 2] and [concurrency >= 1], when the
    identifier stage succeeds and the worker of the details stage fails on
    one of the batches, the pipeline fails with the failure of a failing
    batch: the records of the batches that succeeded are not returned. *)
Theorem indexAllDomains_fails_in_details_stage {E : Type}
    (race : E -> list E -> E)
    (tokenWorker : Range -> outcome E (list string))
    (detailWorker : list string -> outcome E (list DomainData))
    (g : Z -> string) (cfg : IndexerConfig) (total : Z) (k : nat) (e : E) :
  (forall e0 es, race e0 es ∈ e0 :: es) ->
  0 <= total -> 2 <= batchSize cfg -> 1 <= concurrency cfg ->
  (forall r, tokenWorker r = Return (g <$> seqZ (start r) (end_ r - start r))) ->
  Z.of_nat k * (batchSize cfg / 2) < total ->
  detailWorker (window (Z.to_nat (batchSize cfg / 2)) k (g <$> seqZ 0 total))
  = Throw e ->
  exists (e' : E) (b : list string),
    detailWorker b = Throw e'
    /\ returns (fun fuel =>
                  indexAllDomains race (Return total) tokenWorker detailWorker
                    fuel cfg)
               (Throw e').
Proof.
  intros Hrace Ht Hb Hc Hg Hk Hfail.
  assert (1 <= batchSize cfg / 2) as Hd.
  { apply (Z.div_le_lower_bound (batchSize cfg) 2 1); lia. }
  set (tokenIds := g <$> seqZ 0 total) in *.
  set (c := Z.to_nat (batchSize cfg / 2)) in *.
  set (batches := chunks (length tokenIds) c tokenIds).
  assert (length tokenIds = Z.to_nat total) as Hlen.
  { unfold tokenIds. by rewrite length_fmap, length_seqZ. }
  assert (window c k tokenIds ∈ batches) as Hin.
  { apply list_elem_of_lookup. exists k. unfold batches.
    rewrite chunks_lookup by lia. rewrite decide_True; [done|]. nia. }
  destruct (concurrentMap_some_failure race Hrace detailWorker batches
              (concurrency cfg) _ e Hc Hin Hfail)
    as (e' & b & started & Hret & _ & Hbf).
  exists e', b. split; [done|].
  apply (indexAllDomains_stage2_throws race tokenWorker detailWorker cfg total tokenIds).
  - apply batchGetTokenIds_pointwise; [done|lia|done|done].
  - apply (batchGetDomainDetails_throws race detailWorker cfg tokenIds batches started);
      [|done].
    by apply createBatchesFromArray_returns.
Qed.

Lemma indexAllDomains_fails_in_details_stage_witness :
  exists (e' : string) (b : list string),
    failing_on_t2 b = Throw e'
    /\ returns (fun fuel =>
                  indexAllDomains first_rejection (Return 3) example_tokenWorker
                    failing_on_t2 fuel (example_config 2 2 1))
               (Throw e').
Proof.
  apply (indexAllDomains_fails_in_details_stage first_rejection example_tokenWorker
           failing_on_t2 example_token (example_config 2 2 1) 3 2 "boom"%string
           first_rejection_In);
    [lia|simpl; lia|simpl; lia|reflexivity|reflexivity|reflexivity].
Defined.
